(** * The halley dispatcher and its reference HTTP transport

    A shallow embedding of the Dispatcher and of NodeHttpTransport, and the
    properties their specification states about them.

    The code is written against bluebird promises (version 3, cancellation
    enabled).  A promise chain is embedded as the state machine of its
    settlements: every callback the source registers ([then], [catch],
    [finally], a timer, an event listener) is a function on the state, and
    the run-time system is the list of events that fires them.  Calls on
    collaborators that are not part of these files (the Scheduler, the
    TransportPool, the transports, the publisher mixin) are recorded, in
    order and with the time of the call, in a trace.

    What the embedding takes for granted: a call of [sendMessage] or
    [handleResponse] runs to its end before anything else does, and the
    collaborators it calls neither throw nor call back into the dispatcher;
    a timer does not fire before it is due; every event of the loop is a
    turn of its own, so the queue of the promise library is drained (the
    [finally] of a response promise has run) before the next call comes
    in; [Object.keys] enumerates in the order of the finite map, which
    bears on the order of the cancellations of [_cancelPending] in the
    trace and on nothing else. *)

From stdpp Require Import gmap strings list fin_maps pretty.
From Stdlib Require Import ZArith Lia.

Open Scope Z_scope.
Set Warnings "-register-all".

(** ** Data *)

(** References to objects with identity: a promise handed to the caller of
    [sendMessage], a transport instance. *)
Definition PromiseRef := nat.
Definition TransportRef := nat.

(** Messages and replies have one shape:
    [{id, channel, successful?, connectionType?, ...}].  A field that is
    absent reads [undefined], here [None]. *)
Record Message := {
  id : string;
  channel : string;
  successful : option bool;
  connectionType : option string;
}.

(** Modelled from the spec: [Channel.CONNECT], the connect channel; the
    Channel module is not among the sources. *)
Definition CONNECT : string := "/meta/connect".

(** The members every object inherits from [Object.prototype].
    [this._envelopes] is a plain [{}] read with [this._envelopes[id]]: at
    one of these names, when the object has no property of its own under
    it, the read gives the inherited member (a function, or the prototype
    itself at ['__proto__']): a truthy value that has neither a [promise]
    nor a [resolve]. *)
Definition Object_prototype : list string :=
  ["constructor"; "hasOwnProperty"; "isPrototypeOf"; "propertyIsEnumerable";
   "toLocaleString"; "toString"; "valueOf"; "__proto__";
   "__defineGetter__"; "__defineSetter__"; "__lookupGetter__";
   "__lookupSetter__"].

Definition inherited (i : string) : bool :=
  existsb (String.eqb i) Object_prototype.

(** The third argument of [sendMessage]. *)
Record Options := {
  opt_attempts : option Z;
  opt_deadline : option Z;
}.

(** The options object the dispatcher hands to the scheduler constructor. *)
Record SchedulerOptions := {
  timeout : Z;
  interval : Z;
  attempts : option Z;
}.

Inductive Error :=
| NoLongerDeliverable                 (* new Error('No longer deliverable') *)
| TimeoutError                        (* Promise.TimeoutError *)
| TransportError (message : string)   (* new TransportError(message) *)
| Failure (message : string).         (* a rejection reason of a collaborator *)

Inductive Outcome :=
| Fulfilled (response : Message)
| Rejected (e : Error)
| Cancelled.

(** A transport as the dispatcher sees it. *)
Record Transport := {
  tref : TransportRef;
  transport_connectionType : string;
}.

(** The values JSON.parse produces (numbers restricted to integers). *)
Inductive JSON :=
| JNull
| JBool (b : bool)
| JNumber (n : Z)
| JString (s : string)
| JArray (items : list JSON)
| JObject (fields : list (string * JSON)).

(** ECMAScript ToBoolean on those values: what [if (replies)] tests. *)
Definition truthy (v : JSON) : bool :=
  match v with
  | JNull => false
  | JBool b => b
  | JNumber n => negb (n =? 0)
  | JString s => negb (String.eqb s "")
  | JArray _ => true
  | JObject _ => true
  end.

(** ** The scheduler interface

    The dispatcher is constructed with [options.scheduler || Scheduler]: the
    scheduler is an injected class.  The dispatcher uses the eight members
    below.  The real scheduler reads the wall clock, so every member takes
    the current time. *)
Class Scheduler (S : Type) := {
  new_Scheduler : Z -> Message -> SchedulerOptions -> S;
  isDeliverable : Z -> S -> bool;
  getTimeout : Z -> S -> Z;
  getInterval : Z -> S -> Z;
  send : Z -> S -> S;
  fail : Z -> S -> S;
  succeed : Z -> S -> S;
  abort : Z -> S -> S;
}.

(** ** Calls on collaborators *)
Inductive Effect :=
| scheduler_new (p : PromiseRef) (o : SchedulerOptions)
| scheduler_send (p : PromiseRef)
| scheduler_fail (p : PromiseRef)
| scheduler_succeed (p : PromiseRef)
| scheduler_abort (p : PromiseRef)
| pool_get (p : PromiseRef)
| pool_down (t : TransportRef)
| pool_closing
| pool_close
| transport_sendMessage (p : PromiseRef) (t : Transport) (m : Message)
| sendPromise_cancel (p : PromiseRef)
| Promise_delay (p : PromiseRef) (ms : Z)
| envelope_resolve (p : PromiseRef) (k : nat) (reply : Message)
| trigger (name : string) (arg : option Message)
| stopListening.

(** [envelope.resolve]: not yet assigned, a resolver function (that of the
    [k]-th attempt), or [null]. *)
Inductive Slot :=
| Undefined
| Null
| Resolver (k : nat).

Definition is_Resolver (s : Slot) : bool :=
  match s with Resolver _ => true | _ => false end.

(** Where the promise chain built by one [sendMessage] call stands. *)
Inductive Phase :=
| Starting
    (* constructed, [_attemptSend] not yet entered *)
| AwaitTransport (due : Z)
    (* [this._pool.get().timeout(T)] pending; the timer fires at [due] *)
| AwaitReply (t : Transport) (due : Z) (sent : bool) (response : option Message)
    (* [Promise.join(responsePromise, sendPromise).timeout(T)] pending *)
| AwaitRetry (due : Z)
    (* [Promise.delay(interval)] pending; it elapses at [due] *)
| Settling (o : Outcome)
    (* the attempt chain has settled or was cancelled; the [then], [catch]
       and [finally] of [sendMessage] have not run yet *)
| Settled (o : Outcome).
    (* the promise returned by [sendMessage] has settled *)

Definition is_pending (ph : Phase) : bool :=
  match ph with Settled _ => false | _ => true end.

Definition is_awaiting (ph : Phase) : bool :=
  match ph with
  | AwaitTransport _ | AwaitReply _ _ _ _ | AwaitRetry _ => true
  | _ => false
  end.

Section Dispatcher.
Context {S : Type} `{!Scheduler S}.

(** One [sendMessage] call that went past the in-flight test allocates an
    envelope object, a scheduler and a promise chain whose closures share
    [envelope], [message] and [scheduler].  The envelope is identified
    with the promise it holds ([envelope.promise], assigned once), so an
    operation record is the envelope object together with what the
    closures captured. *)
Record Operation := {
  resolve : Slot;             (* envelope.resolve *)
  message : Message;
  scheduler : S;
  deadline : Z;               (* when the outer [.timeout(...)] fires *)
  attempt : nat;              (* attempts entered so far *)
  phase : Phase;
}.

Definition set_phase (ph : Phase) (op : Operation) : Operation :=
  {| resolve := resolve op; message := message op; scheduler := scheduler op;
     deadline := deadline op; attempt := attempt op; phase := ph |}.

Definition set_resolve (s : Slot) (op : Operation) : Operation :=
  {| resolve := s; message := message op; scheduler := scheduler op;
     deadline := deadline op; attempt := attempt op; phase := phase op |}.

Definition set_scheduler (s : S) (op : Operation) : Operation :=
  {| resolve := resolve op; message := message op; scheduler := s;
     deadline := deadline op; attempt := attempt op; phase := phase op |}.

Definition set_message (m : Message) (op : Operation) : Operation :=
  {| resolve := resolve op; message := m; scheduler := scheduler op;
     deadline := deadline op; attempt := attempt op; phase := phase op |}.

Definition next_attempt (op : Operation) : Operation :=
  {| resolve := resolve op; message := message op; scheduler := scheduler op;
     deadline := deadline op; attempt := Datatypes.S (attempt op);
     phase := phase op |}.

(** *** The retry loop, on one operation

    The functions below run at time [now] in the closure of operation
    [p]; they return the operation as they leave it and the calls they
    made, in order. *)

(** [_attemptSend], up to the point where it returns its promise. *)
Definition _attemptSend (now : Z) (p : PromiseRef) (op : Operation)
  : Operation * list Effect :=
  if negb (isDeliverable now (scheduler op)) then
    (set_phase (Settling (Rejected NoLongerDeliverable)) op, [])
  else
    let s := send now (scheduler op) in
    (set_phase (AwaitTransport (now + getTimeout now s))
       (next_attempt (set_scheduler s op)),
     [scheduler_send p; pool_get p]).

(** [_awaitRetry], up to the point where it returns its promise. *)
Definition _awaitRetry (now : Z) (p : PromiseRef) (op : Operation)
  : Operation * list Effect :=
  let ms := getInterval now (scheduler op) in
  (set_phase (AwaitRetry (now + ms)) op, [Promise_delay p ms]).

(** The [.catch(function(e) {...})] that closes [_attemptSend]. *)
Definition attempt_catch (now : Z) (p : PromiseRef) (e : Error) (op : Operation)
  : Operation * list Effect :=
  let op := set_scheduler (fail now (scheduler op)) op in
  if negb (isDeliverable now (scheduler op)) then
    (set_phase (Settling (Rejected e)) op, [scheduler_fail p])
  else
    let '(op, effects) := _awaitRetry now p op in
    (op, scheduler_fail p :: effects).

(** The [.then(function(transport) {...})] of [_attemptSend]: the pool
    delivered a transport. *)
Definition attempt_then (now : Z) (p : PromiseRef) (t : Transport) (op : Operation)
  : Operation * list Effect :=
  let m := message op in
  let m :=
    if String.eqb (channel m) CONNECT then
      {| id := id m; channel := channel m; successful := successful m;
         connectionType := Some (transport_connectionType t) |}
    else m in
  let op := set_message m op in
  let op := set_resolve (Resolver (attempt op)) op in
  (set_phase (AwaitReply t (now + getTimeout now (scheduler op)) false None) op,
   [transport_sendMessage p t m]).

(** [Promise.join(responsePromise, sendPromise, ...)] settles once both
    have. *)
Definition join (t : Transport) (due : Z) (sent : bool) (response : option Message)
  : Phase :=
  match sent, response with
  | true, Some r => Settling (Fulfilled r)
  | _, _ => AwaitReply t due sent response
  end.

(** [envelope.resolve(reply)]: resolves the response promise of attempt
    [k]; its [finally] clears the slot when the promise library drains its
    queue, which is taken to be before the next event (every event is a
    turn of its own). *)
Definition call_resolver (p : PromiseRef) (k : nat) (reply : Message) (op : Operation)
  : Operation * list Effect :=
  let op := set_resolve Null op in
  let op :=
    match phase op with
    | AwaitReply t due sent None =>
        if Nat.eqb k (attempt op) then set_phase (join t due sent (Some reply)) op
        else op
    | _ => op
    end in
  (op, [envelope_resolve p k reply]).

(** The promise of [transport.sendMessage(message)] settles. *)
Definition send_resolved (op : Operation) : Operation * list Effect :=
  match phase op with
  | AwaitReply t due false response => (set_phase (join t due true response) op, [])
  | _ => (op, [])
  end.

Definition send_rejected (now : Z) (p : PromiseRef) (e : Error) (op : Operation)
  : Operation * list Effect :=
  match phase op with
  | AwaitReply t due false response => attempt_catch now p e op
  | _ => (op, [])
  end.

(** The pool's promise settles. *)
Definition pool_resolved (now : Z) (p : PromiseRef) (t : Transport) (op : Operation)
  : Operation * list Effect :=
  match phase op with
  | AwaitTransport _ => attempt_then now p t op
  | _ => (op, [])
  end.

Definition pool_rejected (now : Z) (p : PromiseRef) (e : Error) (op : Operation)
  : Operation * list Effect :=
  match phase op with
  | AwaitTransport _ => attempt_catch now p e op
  | _ => (op, [])
  end.

(** Cancelling the pending join cancels both legs: the response promise
    (whose [finally] clears the slot) and the send promise. *)
Definition cancel_legs (p : PromiseRef) (op : Operation) : Operation * list Effect :=
  match phase op with
  | AwaitReply _ _ _ _ => (set_resolve Null op, [sendPromise_cancel p])
  | _ => (op, [])
  end.

(** A per-attempt [.timeout(scheduler.getTimeout())] fires.  A timer never
    fires before it is due. *)
Definition attempt_timeout (now : Z) (p : PromiseRef) (op : Operation)
  : Operation * list Effect :=
  match phase op with
  | AwaitTransport due =>
      if due <=? now then attempt_catch now p TimeoutError op else (op, [])
  | AwaitReply _ due _ _ =>
      if due <=? now then
        let '(op, cancelled) := cancel_legs p op in
        let '(op, effects) := attempt_catch now p TimeoutError op in
        (op, cancelled ++ effects)
      else (op, [])
  | _ => (op, [])
  end.

(** The [Promise.delay] of [_awaitRetry] elapses and its [then] runs. *)
Definition delay_elapsed (now : Z) (p : PromiseRef) (op : Operation)
  : Operation * list Effect :=
  match phase op with
  | AwaitRetry due => if due <=? now then _attemptSend now p op else (op, [])
  | _ => (op, [])
  end.

(** The outer [.timeout(options && options.deadline || 60000)] fires: the
    promise rejects and the attempt under way is cancelled. *)
Definition deadline_timeout (now : Z) (p : PromiseRef) (op : Operation)
  : Operation * list Effect :=
  if is_awaiting (phase op) && (deadline op <=? now) then
    let '(op, effects) := cancel_legs p op in
    (set_phase (Settling (Rejected TimeoutError)) op, effects)
  else (op, []).

(** [promise.cancel()] on the promise [sendMessage] returned. *)
Definition cancel (p : PromiseRef) (op : Operation) : Operation * list Effect :=
  match phase op with
  | Settled _ => (op, [])
  | _ =>
      let '(op, effects) := cancel_legs p op in
      (set_phase (Settling Cancelled) op, effects)
  end.

(** The [then] and [catch] of [sendMessage]; its [finally] needs the
    dispatcher and is part of [handlers_run] below. *)
Definition then_catch (now : Z) (p : PromiseRef) (o : Outcome) (op : Operation)
  : Operation * list Effect :=
  match o with
  | Fulfilled _ =>
      (set_scheduler (succeed now (scheduler op)) op, [scheduler_succeed p])
  | Rejected _ =>
      (set_scheduler (abort now (scheduler op)) op, [scheduler_abort p])
  | Cancelled => (op, [])
  end.

(** *** The dispatcher

    The first four fields are the object's own.  [clock], [operations]
    and [trace] are its surroundings: the time, the closures the promise
    library holds (an operation is referred to by its index), and the
    calls made so far with the time of each.  [removals] is a history
    variable: the envelopes taken out of [_envelopes], oldest first. *)
Record Dispatcher := {
  _advice_retry : Z;                      (* this._advice.retry *)
  _envelopes : gmap string PromiseRef;
  _state : Z;
  maxRequestSize : Z;
  clock : Z;
  operations : list Operation;
  trace : list (Z * Effect);
  removals : list PromiseRef;
}.

Definition UP : Z := 1.
Definition DOWN : Z := 2.
Definition MAX_REQUEST_SIZE : Z := 2048.

(** [new Dispatcher(endpoint, advice, options)] at time [now]. *)
Definition new_Dispatcher (retry now : Z) : Dispatcher :=
  {| _advice_retry := retry; _envelopes := ∅; _state := 0;
     maxRequestSize := MAX_REQUEST_SIZE; clock := now; operations := [];
     trace := []; removals := [] |}.

Definition set_envelopes (m : gmap string PromiseRef) (gone : list PromiseRef)
    (d : Dispatcher) : Dispatcher :=
  {| _advice_retry := _advice_retry d; _envelopes := m; _state := _state d;
     maxRequestSize := maxRequestSize d; clock := clock d;
     operations := operations d; trace := trace d;
     removals := removals d ++ gone |}.

Definition set_state (s : Z) (d : Dispatcher) : Dispatcher :=
  {| _advice_retry := _advice_retry d; _envelopes := _envelopes d; _state := s;
     maxRequestSize := maxRequestSize d; clock := clock d;
     operations := operations d; trace := trace d; removals := removals d |}.

Definition set_clock (t : Z) (d : Dispatcher) : Dispatcher :=
  {| _advice_retry := _advice_retry d; _envelopes := _envelopes d;
     _state := _state d; maxRequestSize := maxRequestSize d; clock := t;
     operations := operations d; trace := trace d; removals := removals d |}.

Definition set_operations (ops : list Operation) (d : Dispatcher) : Dispatcher :=
  {| _advice_retry := _advice_retry d; _envelopes := _envelopes d;
     _state := _state d; maxRequestSize := maxRequestSize d; clock := clock d;
     operations := ops; trace := trace d; removals := removals d |}.

(** Record calls, stamped with the current time. *)
Definition emit (effects : list Effect) (d : Dispatcher) : Dispatcher :=
  {| _advice_retry := _advice_retry d; _envelopes := _envelopes d;
     _state := _state d; maxRequestSize := maxRequestSize d; clock := clock d;
     operations := operations d;
     trace := trace d ++ map (pair (clock d)) effects;
     removals := removals d |}.

(** Run a callback of operation [p]. *)
Definition on_operation (p : PromiseRef)
    (f : Z -> PromiseRef -> Operation -> Operation * list Effect)
    (d : Dispatcher) : Dispatcher :=
  match operations d !! p with
  | Some op =>
      let '(op, effects) := f (clock d) p op in
      emit effects (set_operations (<[p := op]> (operations d)) d)
  | None => d
  end.

(** [delete this._envelopes[id]]. *)
Definition delete_envelope (i : string) (d : Dispatcher) : Dispatcher :=
  match _envelopes d !! i with
  | Some q => set_envelopes (delete i (_envelopes d)) [q] d
  | None => d
  end.

(** [options && options.deadline || 60000]. *)
Definition deadline_of (options : option Options) : Z :=
  match options ≫= opt_deadline with
  | Some ms => if ms =? 0 then 60000 else ms
  | None => 60000
  end.

(** [sendMessage] returns [envelope.promise], which is [undefined], here
    [None], when [envelope] is a member inherited from [Object.prototype]. *)
Definition sendMessage (message : Message) (timeout : Z) (options : option Options)
    (d : Dispatcher) : option PromiseRef * Dispatcher :=
  match _envelopes d !! id message with
  | Some envelope =>
      (* Already inflight *)
      (Some envelope, d)
  | None =>
    if inherited (id message) then
      (* taken for in-flight: the inherited member is truthy *)
      (None, d)
    else
      let p := length (operations d) in
      let o := {| timeout := timeout; interval := _advice_retry d;
                  attempts := options ≫= opt_attempts |} in
      let op := {| resolve := Undefined; message := message;
                   scheduler := new_Scheduler (clock d) message o;
                   deadline := clock d + deadline_of options;
                   attempt := 0; phase := Starting |} in
      let d := set_envelopes (<[id message := p]> (_envelopes d)) [] d in
      let d := set_operations (operations d ++ [op]) d in
      let d := emit [scheduler_new p o] d in
      (Some p, on_operation p _attemptSend d)
  end.

(** The [then], [catch] and [finally] that [sendMessage] chained run, and
    the promise it returned settles. *)
Definition handlers_run (p : PromiseRef) (d : Dispatcher) : Dispatcher :=
  match operations d !! p with
  | Some op =>
      match phase op with
      | Settling o =>
          let '(op, effects) := then_catch (clock d) p o op in
          let d := emit effects d in
          let d := delete_envelope (id (message op)) d in
          set_operations (<[p := set_phase (Settled o) op]> (operations d)) d
      | _ => d
      end
  | None => d
  end.

Definition _cancelPending (d : Dispatcher) : Dispatcher :=
  let envelopes := map_to_list (_envelopes d) in
  let d := set_envelopes ∅ (envelopes.*2) d in
  foldl (λ d envelope, on_operation envelope.2 (λ _, cancel) d) d envelopes.

Definition disconnecting (d : Dispatcher) : Dispatcher :=
  emit [pool_closing] d.

Definition close (d : Dispatcher) : Dispatcher :=
  emit [pool_close] (_cancelPending d).

Definition destroy (d : Dispatcher) : Dispatcher :=
  close (disconnecting (emit [stopListening] d)).

Definition handleResponse (reply : Message) (d : Dispatcher) : Dispatcher :=
  let envelope := _envelopes d !! id reply in
  let d :=
    match successful reply, envelope with
    | Some _, Some p =>
        match resolve <$> operations d !! p with
        | Some (Resolver k) =>
            (* This is a response to a message we fired. *)
            on_operation p (λ _ p, call_resolver p k reply) d
        | _ => d
        end
    | Some _, None =>
        if inherited (id reply) then
          (* [envelope] is the inherited member: truthy, without a
             [resolve] *)
          d
        else emit [trigger "message" (Some reply)] d
    | None, _ => emit [trigger "message" (Some reply)] d
    end in
  if _state d =? UP then d
  else emit [trigger "transport:up" None] (set_state UP d).

Definition transportDown (transport : TransportRef) (d : Dispatcher) : Dispatcher :=
  emit [pool_down transport] d.

(** *** The event loop *)
Inductive Event :=
| Tick (dt : Z)
| Call_sendMessage (m : Message) (ms : Z) (options : option Options)
| Call_handleResponse (reply : Message)
| Call_transportDown (t : TransportRef)
| Call_cancelPending
| Call_disconnecting
| Call_close
| Call_destroy
| Call_cancel (p : PromiseRef)
| Pool_resolved (p : PromiseRef) (t : Transport)
| Pool_rejected (p : PromiseRef) (e : Error)
| Send_resolved (p : PromiseRef)
| Send_rejected (p : PromiseRef) (e : Error)
| Attempt_timeout (p : PromiseRef)
| Delay_elapsed (p : PromiseRef)
| Deadline_timeout (p : PromiseRef)
| Handlers_run (p : PromiseRef).

Definition step (d : Dispatcher) (ev : Event) : Dispatcher :=
  match ev with
  | Tick dt => if 0 <=? dt then set_clock (clock d + dt) d else d
  | Call_sendMessage m ms options => (sendMessage m ms options d).2
  | Call_handleResponse reply => handleResponse reply d
  | Call_transportDown t => transportDown t d
  | Call_cancelPending => _cancelPending d
  | Call_disconnecting => disconnecting d
  | Call_close => close d
  | Call_destroy => destroy d
  | Call_cancel p => on_operation p (λ _, cancel) d
  | Pool_resolved p t => on_operation p (λ now p, pool_resolved now p t) d
  | Pool_rejected p e => on_operation p (λ now p, pool_rejected now p e) d
  | Send_resolved p => on_operation p (λ _ _, send_resolved) d
  | Send_rejected p e => on_operation p (λ now p, send_rejected now p e) d
  | Attempt_timeout p => on_operation p attempt_timeout d
  | Delay_elapsed p => on_operation p delay_elapsed d
  | Deadline_timeout p => on_operation p deadline_timeout d
  | Handlers_run p => handlers_run p d
  end.

Definition run (d : Dispatcher) (evs : list Event) : Dispatcher :=
  foldl step d evs.

(** The calls made between two states of one run. *)
Definition since (d d' : Dispatcher) : list (Z * Effect) :=
  drop (length (trace d)) (trace d').

End Dispatcher.

Arguments Operation : clear implicits.
Arguments Dispatcher : clear implicits.

(** ** The reference HTTP transport *)

(** The promise [request] returns. *)
Inductive Future :=
| pending
| resolved
| rejected (e : Error)
| cancelled.

Section NodeHttpTransport.
Context {S : Type} `{!Scheduler S}.

(** [JSON.parse]; [None] when it throws. *)
Variable JSON_parse : string -> option JSON.

(** One call of [request]: the transport ([self], by reference), the
    dispatcher it reports to, the promise, and the variables of the
    response callback.  [listening] holds once the ['data'] and ['end']
    listeners are installed; [received] lists the arguments of
    [self._receive], oldest first. *)
Record Request := {
  self : TransportRef;
  _dispatcher : Dispatcher S;
  future : Future;
  listening : bool;
  body : string;
  received : list JSON;
  aborted : bool;
}.

(** [request(messages)] as it returns: the request is on the wire. *)
Definition request (transport : TransportRef) (d : Dispatcher S) : Request :=
  {| self := transport; _dispatcher := d; future := pending;
     listening := false; body := ""; received := []; aborted := false |}.

(** [resolve()] and [reject(e)]: a promise settles once. *)
Definition settle (f : Future) (r : Request) : Request :=
  match future r with
  | pending =>
      {| self := self r; _dispatcher := _dispatcher r; future := f;
         listening := listening r; body := body r; received := received r;
         aborted := aborted r |}
  | _ => r
  end.

(** [self._dispatcher.transportDown(self)]. *)
Definition signal_down (r : Request) : Request :=
  {| self := self r; _dispatcher := transportDown (self r) (_dispatcher r);
     future := future r; listening := listening r; body := body r;
     received := received r; aborted := aborted r |}.

(** [self._receive(replies)]. *)
Definition _receive (replies : JSON) (r : Request) : Request :=
  {| self := self r; _dispatcher := _dispatcher r; future := future r;
     listening := listening r; body := body r;
     received := received r ++ [replies]; aborted := aborted r |}.

Definition listen (r : Request) : Request :=
  {| self := self r; _dispatcher := _dispatcher r; future := future r;
     listening := true; body := ""; received := received r;
     aborted := aborted r |}.

Definition append_body (chunk : string) (r : Request) : Request :=
  {| self := self r; _dispatcher := _dispatcher r; future := future r;
     listening := listening r; body := body r +:+ chunk;
     received := received r; aborted := aborted r |}.

(** The callback given to [this._httpClient.request]. *)
Definition on_response (status : Z) (r : Request) : Request :=
  let successful := (200 <=? status) && (status <? 300) in
  if successful then listen (settle resolved r)
  else
    signal_down
      (settle (rejected (TransportError ("HTTP Status " +:+ pretty status))) r).

(** [response.on('data', ...)]. *)
Definition on_data (chunk : string) (r : Request) : Request :=
  if listening r then append_body chunk r else r.

(** [response.on('end', ...)]. *)
Definition on_end (r : Request) : Request :=
  if listening r then
    match JSON_parse (body r) with
    | None => signal_down r
    | Some replies => if truthy replies then _receive replies r else signal_down r
    end
  else r.

(** [request.on('error', ...)]. *)
Definition on_error (message : string) (r : Request) : Request :=
  settle (rejected (TransportError message)) r.

(** [onCancel(function() { request.abort(); })]. *)
Definition on_cancel (r : Request) : Request :=
  match future r with
  | pending =>
      {| self := self r; _dispatcher := _dispatcher r; future := cancelled;
         listening := listening r; body := body r; received := received r;
         aborted := true |}
  | _ => r
  end.

Inductive HttpEvent :=
| Response (status : Z)
| Data (chunk : string)
| End_of_body
| Socket_error (message : string)
| Cancel.

Definition http_step (r : Request) (ev : HttpEvent) : Request :=
  match ev with
  | Response status => on_response status r
  | Data chunk => on_data chunk r
  | End_of_body => on_end r
  | Socket_error message => on_error message r
  | Cancel => on_cancel r
  end.

Definition http_run (r : Request) (evs : list HttpEvent) : Request :=
  foldl http_step r evs.

(** The transports handed to [Pool.down] so far, oldest first. *)
Definition downs (r : Request) : list TransportRef :=
  omap (λ e, match e.2 with pool_down t => Some t | _ => None end)
       (trace (_dispatcher r)).

End NodeHttpTransport.

Arguments Request : clear implicits.

(** ** A scheduler *)

(** Modelled from the spec: the Scheduler class ([lib/protocol/scheduler.js])
    is not among the sources.  Per message it keeps the attempts made, the
    attempts allowed (optional), the absolute deadline and the retry
    interval; it is deliverable iff attempts remain and the deadline has not
    passed. *)
Record BoundedScheduler := {
  made : Z;
  allowed : option Z;
  expires : Z;
  delay : Z;
  failures : Z;
  ended : bool;
}.

#[export] Instance bounded_scheduler : Scheduler BoundedScheduler := {
  new_Scheduler now _ o :=
    {| made := 0; allowed := attempts o; expires := now + timeout o;
       delay := interval o; failures := 0; ended := false |};
  isDeliverable now s :=
    match allowed s with
    | Some n => (made s <? n) && (now <? expires s)
    | None => now <? expires s
    end;
  getTimeout now s := expires s - now;
  getInterval _ s := delay s;
  send _ s :=
    {| made := made s + 1; allowed := allowed s; expires := expires s;
       delay := delay s; failures := failures s; ended := ended s |};
  fail _ s :=
    {| made := made s; allowed := allowed s; expires := expires s;
       delay := delay s; failures := failures s + 1; ended := ended s |};
  succeed _ s :=
    {| made := made s; allowed := allowed s; expires := expires s;
       delay := delay s; failures := failures s; ended := true |};
  abort _ s :=
    {| made := made s; allowed := allowed s; expires := expires s;
       delay := delay s; failures := failures s; ended := true |};
}.

(** A fragment of [JSON.parse], enough to run the transport on examples. *)
Definition parse_literal (s : string) : option JSON :=
  if String.eqb s "null" then Some JNull
  else if String.eqb s "false" then Some (JBool false)
  else if String.eqb s "true" then Some (JBool true)
  else if String.eqb s "0" then Some (JNumber 0)
  else if String.eqb s "[]" then Some (JArray [])
  else if String.eqb s "{}" then Some (JObject [])
  else None.

Definition msg (i : string) : Message :=
  {| id := i; channel := "/chat"; successful := None; connectionType := None |}.
Definition reply_to (i : string) : Message :=
  {| id := i; channel := "/chat"; successful := Some true; connectionType := None |}.
Definition ws : Transport := {| tref := 7%nat; transport_connectionType := "websocket" |}.
Definition d0 : Dispatcher BoundedScheduler := new_Dispatcher 100 0.

(** How often [x] occurs in [l]. *)
Definition occurrences {A} `{EqDecision A} (x : A) (l : list A) : nat :=
  length (filter (x =.) l).

(** The envelopes the map holds for id [i]. *)
Definition envelopes_of {S} (i : string) (d : Dispatcher S)
  : list (string * PromiseRef) :=
  filter (λ e, e.1 = i) (map_to_list (_envelopes d)).

(** The phase of operation [p], if it exists. *)
Definition phase_of {S} (p : PromiseRef) (d : Dispatcher S) : option Phase :=
  phase <$> operations d !! p.

(** The arguments of the notifications [name] in a trace, oldest first. *)
Definition notifications (name : string) (tr : list (Z * Effect))
  : list (option Message) :=
  omap (λ e, match e.2 with
             | trigger n arg => if String.eqb n name then Some arg else None
             | _ => None
             end) tr.

(** [handleResponse] called for each reply in turn. *)
Definition handle_all {S} `{!Scheduler S} (d : Dispatcher S) (replies : list Message)
  : Dispatcher S :=
  foldl (λ d reply, handleResponse reply d) d replies.

(** What [handleResponse] does with a reply, apart from the connectivity
    state: the calls it makes. *)
Definition correlation {S} (reply : Message) (d : Dispatcher S) : list Effect :=
  match successful reply, _envelopes d !! id reply with
  | Some _, Some p =>
      match resolve <$> operations d !! p with
      | Some (Resolver k) => [envelope_resolve p k reply]
      | _ => []
      end
  | Some _, None =>
      if inherited (id reply) then [] else [trigger "message" (Some reply)]
  | None, _ => [trigger "message" (Some reply)]
  end.

(** The calls that make up a delivery attempt of operation [p]: the
    scheduler is told an attempt starts, the pool is asked for a transport,
    the message is handed to a transport. *)
Definition attempt_effect (p : PromiseRef) (e : Effect) : bool :=
  match e with
  | scheduler_send q | pool_get q | transport_sendMessage q _ _ => Nat.eqb p q
  | _ => false
  end.

(** The attempt chain of the operation has come to its end. *)
Definition finished (ph : Phase) : bool :=
  match ph with Settling _ | Settled _ => true | _ => false end.

(** The error with which event [ev] at time [now] fails the attempt that
    operation [p] has under way, if it does: the pool or the transport
    rejects, or a per-attempt timer fires. *)
Definition failure {S} (ev : Event) (p : PromiseRef) (op : Operation S) (now : Z)
  : option Error :=
  match ev, phase op with
  | Pool_rejected q e, AwaitTransport _ =>
      if Nat.eqb q p then Some e else None
  | Send_rejected q e, AwaitReply _ _ false _ =>
      if Nat.eqb q p then Some e else None
  | Attempt_timeout q, AwaitTransport due
  | Attempt_timeout q, AwaitReply _ due _ _ =>
      if Nat.eqb q p && (due <=? now) then Some TimeoutError else None
  | _, _ => None
  end.

(** A status in [200, 300). *)
Definition in_range (status : Z) : Prop := 200 ≤ status < 300.

(** No (second) response among the events. *)
Definition no_response (evs : list HttpEvent) : Prop :=
  ∀ status, Response status ∉ evs.

(** [body += chunk] for each chunk in turn. *)
Definition accumulate (body : string) (chunks : list string) : string :=
  foldl (λ body chunk, body +:+ chunk) body chunks.

(** The ['data'] events of a body that arrives in [chunks]. *)
Definition data_all {S} (r : Request S) (chunks : list string) : Request S :=
  foldl (λ r chunk, on_data chunk r) r chunks.

(** The values that are empty as a string, an array or an object. *)
Definition is_empty (v : JSON) : bool :=
  match v with
  | JString "" | JArray [] | JObject [] => true
  | _ => false
  end.

(** ** Invariants *)

Section Invariants.
Context {S : Type} `{!Scheduler S}.
Implicit Types (op : Operation S) (d : Dispatcher S) (p q : PromiseRef).

(** What a callback of an operation may do to it: the message keeps its
    id, and the promise does not settle (only [handlers_run] settles it). *)
Definition evolves op op' : Prop :=
  id (message op') = id (message op) ∧
  (is_pending (phase op) = true → is_pending (phase op') = true).

Definition callback : Type :=
  Z → PromiseRef → Operation S → Operation S * list Effect.

Definition tame (f : callback) : Prop :=
  ∀ now p op, evolves op (f now p op).1.

(** The envelope map and the promises: every entry of the map refers to a
    pending operation for that id; an envelope is taken out of the map at
    most once, and is then out; and every envelope ever created is in the
    map or was taken out. *)
Record consistent d : Prop := {
  open_pending i p :
    _envelopes d !! i = Some p →
    ∃ op, operations d !! p = Some op ∧ id (message op) = i ∧
          is_pending (phase op) = true;
  removed_once : NoDup (removals d);
  removed_gone p :
    p ∈ removals d →
    (p < length (operations d))%nat ∧ ∀ i, _envelopes d !! i ≠ Some p;
  kept_or_removed p op :
    operations d !! p = Some op →
    _envelopes d !! id (message op) = Some p ∨ p ∈ removals d;
}.

(** Attempts of operation [p] are held back: none at all when [bound] is
    [None], none before [due] when it is [Some due].  [n0] is the length
    of the trace from which on this is observed. *)
Section Held.
Variables (p : PromiseRef) (bound : option Z) (n0 : nat).

Definition late (t : Z) : Prop := ∃ due, bound = Some due ∧ due ≤ t.

Definition op_waiting (now : Z) op : Prop :=
  finished (phase op) = true ∨ late now ∨
  ∃ due, bound = Some due ∧ phase op = AwaitRetry due.

Record waiting d : Prop := {
  waiting_length : (n0 ≤ length (trace d))%nat;
  waiting_trace t e :
    (t, e) ∈ drop n0 (trace d) → attempt_effect p e = true → late t;
  waiting_phase :
    ∃ op, operations d !! p = Some op ∧ op_waiting (clock d) op;
}.

(** The attempt calls of a callback carry the operation's own label. *)
Definition labelled (f : callback) : Prop :=
  ∀ now q op e r, e ∈ (f now q op).2 → attempt_effect r e = true → r = q.

(** A callback of [p] keeps waiting. *)
Definition waits (f : callback) : Prop :=
  ∀ now op, op_waiting now op →
    op_waiting now (f now p op).1 ∧
    ∀ e, e ∈ (f now p op).2 → attempt_effect p e = true → late now.

End Held.

End Invariants.

(** How often the scheduler of operation [p] was told of a failure. *)
Definition failures_told (p : PromiseRef) (tr : list (Z * Effect)) : nat :=
  length (omap (λ e, match e.2 with
                     | scheduler_fail q => if Nat.eqb p q then Some q else None
                     | _ => None
                     end) tr).

(** ** The process-wide events

    The module [global-events.js]: an event emitter on which the dispatcher
    listens for ['beforeunload'].  [published] lists the calls of
    [globalEvents.trigger], oldest first, each with its argument; [console]
    the statuses given to [console.log]; [debug] output is left out. *)
Definition SLEEP_TIMER_INTERVAL : Z := 30000.

Record GlobalEvents := {
  published : list (string * option bool);
  console : list bool;
  change_listener_installed : bool;
  sleepLast : Z;
}.

Definition publish (type : string) (e : option bool) (g : GlobalEvents)
  : GlobalEvents :=
  {| published := published g ++ [(type, e)]; console := console g;
     change_listener_installed := change_listener_installed g;
     sleepLast := sleepLast g |}.

(** [fire(type)] returns the handler; it publishes when it is called. *)
Definition fire (type : string) : option bool → GlobalEvents → GlobalEvents :=
  λ e g, publish type e g.

(** The listener [install] gives to [NetInfo.isConnected]: it logs the
    status and builds a handler with [fire('network')], which it does not
    call. *)
Definition change_listener (status : bool) (g : GlobalEvents) : GlobalEvents :=
  let g := {| published := published g; console := console g ++ [status];
              change_listener_installed := change_listener_installed g;
              sleepLast := sleepLast g |} in
  let _ := fire "network" in
  g.

Definition install (g : GlobalEvents) : GlobalEvents :=
  {| published := published g; console := console g;
     change_listener_installed := true; sleepLast := sleepLast g |}.

(** The callback [installSleepDetector] gives to [setInterval]; [now] is
    what [Date.now()] returns in it. *)
Definition sleep_timer (now : Z) (g : GlobalEvents) : GlobalEvents :=
  let g :=
    if sleepLast g - now >? SLEEP_TIMER_INTERVAL * 2 then publish "sleep" None g
    else g in
  {| published := published g; console := console g;
     change_listener_installed := change_listener_installed g;
     sleepLast := now |}.

(** [installSleepDetector()] at time [now]. *)
Definition installSleepDetector (now : Z) (g : GlobalEvents) : GlobalEvents :=
  {| published := published g; console := console g;
     change_listener_installed := change_listener_installed g;
     sleepLast := now |}.

(** Loading the module at time [now]; [window] tells whether
    [typeof window !== 'undefined']. *)
Definition load_globalEvents (window : bool) (now : Z) : GlobalEvents :=
  let g := {| published := []; console := [];
              change_listener_installed := false; sleepLast := 0 |} in
  let g := if window then install g else g in
  installSleepDetector now g.

Inductive GlobalEvent :=
| NetInfo_change (status : bool)
| Interval_elapsed (now : Z).

Definition global_step (g : GlobalEvents) (ev : GlobalEvent) : GlobalEvents :=
  match ev with
  | NetInfo_change status =>
      if change_listener_installed g then change_listener status g else g
  | Interval_elapsed now => sleep_timer now g
  end.

Definition global_run (g : GlobalEvents) (evs : list GlobalEvent) : GlobalEvents :=
  foldl global_step g evs.

(** No reading of the clock is more than twice the interval behind the
    reading before it ([last] is the reading before the first). *)
Fixpoint steady (last : Z) (evs : list GlobalEvent) : Prop :=
  match evs with
  | [] => True
  | NetInfo_change _ :: evs => steady last evs
  | Interval_elapsed now :: evs =>
      last - now ≤ SLEEP_TIMER_INTERVAL * 2 ∧ steady now evs
  end.

(** ** The endpoint of the HTTP transport *)

(** A parsed URI; a part that is absent is [None]. *)
Record Uri := {
  protocol : string;
  hostname : option string;
  host : option string;
  path : option string;
  port : option string;
}.

(** A part of a URI as a JavaScript value. *)
Definition part (s : option string) : JSON :=
  match s with Some s => JString s | None => JNull end.

(** [NodeHttpTransport.isUsable]: the value of
    [(p === 'http:' || p === 'https:') && endpoint.host && endpoint.path]. *)
Definition isUsable (endpoint : Uri) : JSON :=
  if String.eqb (protocol endpoint) "http:" || String.eqb (protocol endpoint) "https:"
  then if truthy (part (host endpoint)) then part (path endpoint)
       else part (host endpoint)
  else JBool false.

Inductive HttpClient := http | https.

(** The client the constructor keeps in [_httpClient]. *)
Definition _httpClient (endpoint : Uri) : HttpClient :=
  let endpointSecure := String.eqb (protocol endpoint) "https:" in
  if endpointSecure then https else http.

(** ** More notions about operations and traces *)

(** The calls that are counted per operation. *)
Inductive Kind :=
| K_new | K_send | K_get | K_handed | K_fail | K_succeed | K_abort.

(** Effect [e] is the call of kind [k] for operation [p]: the scheduler's
    construction, [send], [pool.get], [transport.sendMessage], [fail],
    [succeed], [abort]. *)
Definition entry (k : Kind) (p : PromiseRef) (e : Effect) : bool :=
  match k, e with
  | K_new, scheduler_new q _
  | K_send, scheduler_send q
  | K_get, pool_get q
  | K_handed, transport_sendMessage q _ _
  | K_fail, scheduler_fail q
  | K_succeed, scheduler_succeed q
  | K_abort, scheduler_abort q => Nat.eqb p q
  | _, _ => false
  end.

Fixpoint count (k : Kind) (p : PromiseRef) (effects : list Effect) : nat :=
  match effects with
  | [] => 0%nat
  | e :: effects => ((if entry k p e then 1 else 0) + count k p effects)%nat
  end.

(** How often the call of kind [k] was made for operation [p]. *)
Definition calls {S} (k : Kind) (p : PromiseRef) (d : Dispatcher S) : nat :=
  count k p (trace d).*2.

(** The trace holds no notification. *)
Definition silent (effects : list Effect) : Prop :=
  ∀ e, e ∈ effects → ∀ name arg, e ≠ trigger name arg.

Section History.
Context {S : Type} `{!Scheduler S}.
Implicit Types (op : Operation S) (d : Dispatcher S) (p q : PromiseRef).

(** What stays and what grows in an operation from one state to a later
    one. *)
Record follows op op' : Prop := {
  same_id : id (message op') = id (message op);
  same_channel : channel (message op') = channel (message op);
  same_successful : successful (message op') = successful (message op);
  same_deadline : deadline op' = deadline op;
  more_attempts : (attempt op ≤ attempt op')%nat;
  unstamped : channel (message op) ≠ CONNECT → message op' = message op;
  settled_for_good o : phase op = Settled o → phase op' = Settled o;
  finished_for_good :
    finished (phase op) = true →
    finished (phase op') = true ∧ attempt op' = attempt op ∧
    message op' = message op;
}.

(** The books of an operation, [c k] being the number of calls of kind [k]
    made for it: one scheduler; a [send] and a [pool.get] per attempt
    entered; the message handed to a transport no more often than that;
    [fail] called for every attempt but the one under way; [succeed] or
    [abort] called once, when the promise has settled fulfilled or
    rejected, and never otherwise. *)
Definition balanced op (c : Kind → nat) : Prop :=
  (c K_new = 1 ∧ c K_send = attempt op ∧ c K_get = attempt op)%nat ∧
  match phase op with
  | AwaitTransport _ =>
      (c K_handed + 1 ≤ attempt op ∧ c K_fail + 1 = attempt op)%nat
  | AwaitReply _ _ _ _ =>
      (c K_handed ≤ attempt op ∧ c K_fail + 1 = attempt op)%nat
  | AwaitRetry _ => (c K_handed ≤ attempt op ∧ c K_fail = attempt op)%nat
  | _ => (c K_handed ≤ attempt op ∧ c K_fail ≤ attempt op)%nat
  end ∧
  match phase op with
  | Settled (Fulfilled _) => (c K_succeed = 1 ∧ c K_abort = 0)%nat
  | Settled (Rejected _) => (c K_succeed = 0 ∧ c K_abort = 1)%nat
  | _ => (c K_succeed = 0 ∧ c K_abort = 0)%nat
  end.

(** The books of every operation are balanced, and there are no entries
    for operations that do not exist yet. *)
Record ledger d : Prop := {
  ledger_fresh k p :
    (length (operations d) ≤ p)%nat → calls k p d = 0%nat;
  ledger_balanced p op :
    operations d !! p = Some op → balanced op (λ k, calls k p d);
}.

(** A callback keeps the books of its operation, and writes in no other. *)
Definition books (f : callback) : Prop :=
  ∀ now p op c,
    balanced op c →
    balanced (f now p op).1 (λ k, (c k + count k p (f now p op).2)%nat).

Definition own (f : callback) : Prop :=
  ∀ now p op k q, q ≠ p → count k q (f now p op).2 = 0%nat.

(** A callback publishes nothing. *)
Definition mute (f : callback) : Prop :=
  ∀ now p op, silent (f now p op).2.

(** From [d] to [d'] the connectivity state stays and nothing is
    published. *)
Definition quietly d d' : Prop :=
  _state d' = _state d ∧
  ∃ new, trace d' = trace d ++ new ∧ ∀ name, notifications name new = [].

(** The connectivity state and the ['transport:up'] notifications agree. *)
Definition connectivity d : Prop :=
  _state d = 0 ∧ notifications "transport:up" (trace d) = [] ∨
  _state d = UP ∧ notifications "transport:up" (trace d) = [None].

End History.

(** The text that arrives in [chunks], in one piece. *)
Definition whole (chunks : list string) : string :=
  foldr String.append "" chunks.

(** The reply an operation holds: the one the response promise of the
    attempt under way was resolved with, or the one the promise is
    fulfilled with. *)
Definition answer (ph : Phase) : option Message :=
  match ph with
  | AwaitReply _ _ _ (Some r) | Settling (Fulfilled r) | Settled (Fulfilled r) =>
      Some r
  | _ => None
  end.

Section Answers.
Context {S : Type} `{!Scheduler S}.
Implicit Types (op : Operation S) (d : Dispatcher S) (p q : PromiseRef).

(** While an attempt awaits its reply, [envelope.resolve] is the resolver
    of that attempt. *)
Definition armed op : Prop :=
  ∀ t due sent,
    phase op = AwaitReply t due sent None → resolve op = Resolver (attempt op).

(** A callback gives its operation no reply. *)
Definition unanswering (f : callback) : Prop :=
  ∀ now p op r,
    answer (phase (f now p op).1) = Some r → answer (phase op) = Some r.

(** Every reply an operation holds carries its id and [successful], and
    came through [envelope.resolve]. *)
Definition sourced d : Prop :=
  ∀ p op r,
    operations d !! p = Some op → answer (phase op) = Some r →
    id r = id (message op) ∧ successful r ≠ None ∧
    ∃ t k, (t, envelope_resolve p k r) ∈ trace d.

End Answers.

(** No message is handed to a transport among the calls. *)
Definition plain (effects : list Effect) : Prop :=
  ∀ p tr m, transport_sendMessage p tr m ∉ effects.

Section Wire.
Context {S : Type} `{!Scheduler S}.
Implicit Types (op : Operation S) (d : Dispatcher S) (p q : PromiseRef).

(** Message [m] as [_attemptSend] leaves it before it hands it to
    transport [t]: a message on the connect channel gets the connection
    type of the transport, any other message is left as it is. *)
Definition stamped (t : Transport) (m : Message) : Message :=
  if String.eqb (channel m) CONNECT then
    {| id := id m; channel := channel m; successful := successful m;
       connectionType := Some (transport_connectionType t) |}
  else m.

(** [m] is [m0] up to the connection type of a message on the connect
    channel. *)
Definition restamped (m m0 : Message) : Prop :=
  id m = id m0 ∧ channel m = channel m0 ∧ successful m = successful m0 ∧
  (channel m0 ≠ CONNECT → m = m0).

(** What a callback hands to a transport is the message of its operation,
    stamped for that transport. *)
Definition handing (f : callback) : Prop :=
  ∀ now p op q t m,
    transport_sendMessage q t m ∈ (f now p op).2 →
    q = p ∧ m = stamped t (message op).

(** A callback hands nothing to a transport. *)
Definition idle (f : callback) : Prop :=
  ∀ now p op, plain (f now p op).2.

(** From [d] to [d'] nothing is handed to a transport. *)
Definition unhanding d d' : Prop :=
  ∃ new, trace d' = trace d ++ new ∧ plain new.*2.

(** Operation [p] holds message [m0] up to its stamp, and whatever was
    handed to a transport for it is [m0] stamped for that transport. *)
Definition wired p (m0 : Message) d : Prop :=
  (∃ op, operations d !! p = Some op ∧ restamped (message op) m0) ∧
  ∀ time t m,
    (time, transport_sendMessage p t m) ∈ trace d → m = stamped t m0.

End Wire.

(** ** Example inputs *)

Definition message_1 : Message :=
  {| id := "1"; channel := "/chat"; successful := None; connectionType := None |}.

Definition reply_1 : Message :=
  {| id := "1"; channel := "/chat"; successful := Some true;
     connectionType := None |}.

(** A dispatcher with a retry advice of 100 ms, created at time 0. *)
Definition fresh_dispatcher : Dispatcher BoundedScheduler := new_Dispatcher 100 0.

(** The same with message 1 on its first attempt, waiting for a transport. *)
Definition sending_1 : Dispatcher BoundedScheduler :=
  run fresh_dispatcher [Call_sendMessage message_1 1000 None].

(** Message 1 as [sending_1] holds it. *)
Definition first_attempt : Operation BoundedScheduler :=
  {| resolve := Undefined; message := message_1;
     scheduler := {| made := 1; allowed := None; expires := 1000; delay := 100;
                     failures := 0; ended := false |};
     deadline := 60000; attempt := 1; phase := AwaitTransport 1000 |}.

(** The pool has no transport to give. *)
Definition no_transport : Event := Pool_rejected 0%nat (Failure "no transport").

Definition no_attempts : Options :=
  {| opt_attempts := Some 0; opt_deadline := None |}.

Definition first_request : Request BoundedScheduler := request 3%nat fresh_dispatcher.

(** Message 1 is sent, the dispatcher closed and message 1 sent again; only
    then does the [finally] of the first promise, which [close] cancelled,
    run. *)
Definition closed_and_resent : Dispatcher BoundedScheduler :=
  run fresh_dispatcher
    [Call_sendMessage message_1 1000 None; Call_close;
     Call_sendMessage message_1 1000 None].

Definition resent_after_close : Dispatcher BoundedScheduler :=
  run closed_and_resent [Handlers_run 0%nat].

(** A message and a reply whose ids name members of [Object.prototype]. *)
Definition constructor_message : Message :=
  {| id := "constructor"; channel := "/chat"; successful := None;
     connectionType := None |}.

Definition toString_reply : Message :=
  {| id := "toString"; channel := "/chat"; successful := Some true;
     connectionType := None |}.

(** Message 1 handed to a transport on its first attempt, awaiting the
    reply. *)
Definition awaiting_reply_1 : Dispatcher BoundedScheduler :=
  run fresh_dispatcher
    [Call_sendMessage message_1 1000 None; Pool_resolved 0%nat ws].

(** Message 1 as [awaiting_reply_1] holds it. *)
Definition handed_attempt : Operation BoundedScheduler :=
  {| resolve := Resolver 1; message := message_1;
     scheduler := {| made := 1; allowed := None; expires := 1000; delay := 100;
                     failures := 0; ended := false |};
     deadline := 60000; attempt := 1;
     phase := AwaitReply ws 1000 false None |}.


(** Message 1 sent, replied to, and its promise fulfilled. *)
Definition delivery_1 : list Event :=
  [Call_sendMessage message_1 1000 None; Pool_resolved 0%nat ws;
   Send_resolved 0%nat; Call_handleResponse reply_1; Handlers_run 0%nat].

Definition delivered_1 : Dispatcher BoundedScheduler :=
  run fresh_dispatcher delivery_1.

(** Message 1 as [delivered_1] holds it. *)
Definition delivered_attempt : Operation BoundedScheduler :=
  {| resolve := Null; message := message_1;
     scheduler := {| made := 1; allowed := None; expires := 1000; delay := 100;
                     failures := 0; ended := true |};
     deadline := 60000; attempt := 1;
     phase := Settled (Fulfilled reply_1) |}.

(** A message on the connect channel that says it is long-polling, and
    what goes on the wire when a websocket transport takes it. *)
Definition connect_1 : Message :=
  {| id := "1"; channel := CONNECT; successful := None;
     connectionType := Some "long-polling" |}.

Definition connect_1_on_websocket : Message :=
  {| id := "1"; channel := CONNECT; successful := None;
     connectionType := Some "websocket" |}.

(** Things that happen to a request before any response. *)
Definition before_response : list HttpEvent :=
  [Data "x"; Socket_error "reset"; Cancel].

(** * Properties *)

Ltac crush_op :=
  repeat first
    [ progress (simpl in *; subst)
    | match goal with
      | |- context [match phase ?op with _ => _ end] => destruct (phase op) eqn:?
      | |- context [if ?b then _ else _] => destruct b eqn:?
      | |- context [match ?o with Fulfilled _ => _ | _ => _ end] => destruct o
      | |- context [match ?o with Some _ => _ | None => _ end] => destruct o
      end ];
  try done.

Ltac unfold_callbacks :=
  unfold attempt_timeout, deadline_timeout, delay_elapsed, cancel,
    send_rejected, send_resolved, pool_rejected, pool_resolved, call_resolver,
    cancel_legs, attempt_then, attempt_catch, _awaitRetry, _attemptSend, join.

Section OperationFacts.
Context {S : Type} `{!Scheduler S}.
Implicit Types (op : Operation S) (d : Dispatcher S) (p q : PromiseRef).

Ltac tame_tac :=
  intros now p op; unfold evolves; unfold_callbacks; crush_op;
  try (split; [done | intros _]);
  try match goal with H : phase _ = _ |- _ => by rewrite H end.

Lemma tame_attemptSend : tame (S:=S) _attemptSend.
Proof. tame_tac. Qed.

Lemma tame_cancel : tame (S:=S) (λ _, cancel).
Proof. tame_tac. Qed.

Lemma tame_pool_resolved t : tame (S:=S) (λ now p, pool_resolved now p t).
Proof. tame_tac. Qed.

Lemma tame_pool_rejected e : tame (S:=S) (λ now p, pool_rejected now p e).
Proof. tame_tac. Qed.

Lemma tame_send_resolved : tame (S:=S) (λ _ _, send_resolved).
Proof. tame_tac. Qed.

Lemma tame_send_rejected e : tame (S:=S) (λ now p, send_rejected now p e).
Proof. tame_tac. Qed.

Lemma tame_attempt_timeout : tame (S:=S) attempt_timeout.
Proof. tame_tac. Qed.

Lemma tame_delay_elapsed : tame (S:=S) delay_elapsed.
Proof. tame_tac. Qed.

Lemma tame_deadline_timeout : tame (S:=S) deadline_timeout.
Proof. tame_tac. Qed.

Lemma tame_call_resolver k reply : tame (S:=S) (λ _ p, call_resolver p k reply).
Proof. tame_tac. Qed.

(** **** Callbacks at the level of the dispatcher *)

Lemma on_operation_unfold p f d op :
  operations d !! p = Some op →
  on_operation p f d =
    emit (f (clock d) p op).2
      (set_operations (<[p := (f (clock d) p op).1]> (operations d)) d).
Proof.
  intros Hp. unfold on_operation. rewrite Hp. by destruct (f (clock d) p op).
Qed.

Lemma on_operation_None p f d :
  operations d !! p = None → on_operation p f d = d.
Proof. intros Hp. unfold on_operation. by rewrite Hp. Qed.

Lemma on_operation_envelopes p f d :
  _envelopes (on_operation p f d) = _envelopes d.
Proof.
  destruct (operations d !! p) as [op|] eqn:Hp.
  - by rewrite (on_operation_unfold _ _ _ _ Hp).
  - by rewrite on_operation_None.
Qed.

Lemma on_operation_removals p f d :
  removals (on_operation p f d) = removals d.
Proof.
  destruct (operations d !! p) as [op|] eqn:Hp.
  - by rewrite (on_operation_unfold _ _ _ _ Hp).
  - by rewrite on_operation_None.
Qed.

Lemma on_operation_state p f d : _state (on_operation p f d) = _state d.
Proof.
  destruct (operations d !! p) as [op|] eqn:Hp.
  - by rewrite (on_operation_unfold _ _ _ _ Hp).
  - by rewrite on_operation_None.
Qed.

Lemma on_operation_clock p f d : clock (on_operation p f d) = clock d.
Proof.
  destruct (operations d !! p) as [op|] eqn:Hp.
  - by rewrite (on_operation_unfold _ _ _ _ Hp).
  - by rewrite on_operation_None.
Qed.

Lemma on_operation_length p f d :
  length (operations (on_operation p f d)) = length (operations d).
Proof.
  destruct (operations d !! p) as [op|] eqn:Hp.
  - rewrite (on_operation_unfold _ _ _ _ Hp). simpl. apply length_insert.
  - by rewrite on_operation_None.
Qed.

Lemma on_operation_lookup p f d q op' :
  operations (on_operation p f d) !! q = Some op' →
  ∃ op, operations d !! q = Some op ∧
        (q ≠ p ∧ op' = op ∨ q = p ∧ op' = (f (clock d) p op).1).
Proof.
  destruct (operations d !! p) as [op|] eqn:Hp.
  - rewrite (on_operation_unfold _ _ _ _ Hp). simpl.
    intros [(-> & <- & _)|[Hne Hq]]%list_lookup_insert_Some; eauto.
  - rewrite on_operation_None; [|done]. intros Hq. exists op'.
    split; [done|]. left. split; [|done]. intros ->. congruence.
Qed.

Lemma on_operation_lookup_ne p f d q :
  q ≠ p → operations (on_operation p f d) !! q = operations d !! q.
Proof.
  intros Hne. destruct (operations d !! p) as [op|] eqn:Hp.
  - rewrite (on_operation_unfold _ _ _ _ Hp). simpl.
    by apply list_lookup_insert_ne.
  - by rewrite on_operation_None.
Qed.

Lemma on_operation_lookup_eq p f d op :
  operations d !! p = Some op →
  operations (on_operation p f d) !! p = Some (f (clock d) p op).1.
Proof.
  intros Hp. rewrite (on_operation_unfold _ _ _ _ Hp). simpl.
  apply list_lookup_insert_eq. by eapply lookup_lt_Some.
Qed.

Lemma on_operation_trace p f d :
  trace (on_operation p f d) =
    trace d ++
    match operations d !! p with
    | Some op => pair (clock d) <$> (f (clock d) p op).2
    | None => []
    end.
Proof.
  destruct (operations d !! p) as [op|] eqn:Hp.
  - by rewrite (on_operation_unfold _ _ _ _ Hp).
  - rewrite on_operation_None; [|done]. by rewrite app_nil_r.
Qed.

Lemma consistent_new retry now : consistent (S:=S) (new_Dispatcher retry now).
Proof.
  split; simpl.
  - intros i p. by rewrite lookup_empty.
  - constructor.
  - intros p Hp. by apply elem_of_nil in Hp.
  - intros p op Hp. by rewrite lookup_nil in Hp.
Qed.

Lemma consistent_on_operation p f d :
  tame (S:=S) f → consistent d → consistent (on_operation p f d).
Proof.
  intros Hf [H1 H2 H3 H4]. split.
  - intros i q. rewrite on_operation_envelopes. intros Hq.
    destruct (H1 _ _ Hq) as (op & Hop & Hid & Hpend).
    destruct (decide (q = p)) as [->|Hne].
    + exists (f (clock d) p op).1. split; [by apply on_operation_lookup_eq|].
      destruct (Hf (clock d) p op) as [Hid' Hpend']. split; [congruence|auto].
    + exists op. by rewrite on_operation_lookup_ne.
  - by rewrite on_operation_removals.
  - intros q. rewrite on_operation_removals, on_operation_length.
    intros Hq. destruct (H3 _ Hq) as [Hlt Hout]. split; [done|].
    intros i. rewrite on_operation_envelopes. apply Hout.
  - intros q op' Hq. rewrite on_operation_envelopes, on_operation_removals.
    destruct (on_operation_lookup _ _ _ _ _ Hq) as (op & Hop & [[_ ->]|[-> ->]]).
    + by apply H4.
    + destruct (Hf (clock d) p op) as [-> _]. by apply H4.
Qed.

Lemma consistent_frame d d' :
  _envelopes d' = _envelopes d → operations d' = operations d →
  removals d' = removals d → consistent d → consistent d'.
Proof.
  intros He Ho Hr [H1 H2 H3 H4].
  split; intros; rewrite ?He, ?Ho, ?Hr in *; auto.
Qed.

Lemma consistent_sendMessage m ms options d :
  consistent d → consistent (sendMessage m ms options d).2.
Proof.
  intros Hd. unfold sendMessage.
  destruct (_envelopes d !! id m) as [q|] eqn:Hm; [done|].
  destruct (inherited (id m)); [done|]. simpl.
  apply consistent_on_operation; [apply tame_attemptSend|].
  destruct Hd as [H1 H2 H3 H4]. split; simpl.
  - intros i q [[<- <-]|[Hne Hq]]%lookup_insert_Some.
    + eexists. split.
      { rewrite lookup_app_r by done. by rewrite Nat.sub_diag. }
      done.
    + destruct (H1 _ _ Hq) as (op & Hop & Hid & Hpend).
      exists op. split; [|done]. by apply lookup_app_l_Some.
  - by rewrite app_nil_r.
  - intros q. rewrite app_nil_r, length_app. simpl. intros Hq.
    destruct (H3 _ Hq) as [Hlt Hout]. split; [lia|].
    intros i [[_ <-]|[_ Hi]]%lookup_insert_Some; [lia|]. by eapply Hout.
  - intros q op. rewrite app_nil_r.
    intros [Hq|[Hlen Hq]]%lookup_app_Some.
    + destruct (H4 _ _ Hq) as [Hin|Hin]; [|by right]. left.
      rewrite lookup_insert_ne; [done|]. intros Heq. congruence.
    + destruct (q - length (operations d))%nat as [|n] eqn:Hn; [|done].
      simpl in Hq. injection Hq as <-. simpl. left.
      replace q with (length (operations d)) by lia.
      by rewrite lookup_insert_eq.
Qed.

Lemma delete_envelope_frame i d :
  trace (delete_envelope i d) = trace d ∧
  operations (delete_envelope i d) = operations d ∧
  clock (delete_envelope i d) = clock d.
Proof. unfold delete_envelope. by destruct (_envelopes d !! i). Qed.

Lemma then_catch_message now p o op :
  message (then_catch now p o op).1 = message op.
Proof. by destruct o. Qed.

Lemma consistent_handlers_run p d :
  consistent d → consistent (handlers_run p d).
Proof.
  intros Hd. unfold handlers_run.
  destruct (operations d !! p) as [op|] eqn:Hp; [|done].
  destruct (phase op) as [| | | |o|] eqn:Hph; try done.
  pose proof (then_catch_message (clock d) p o op) as Hmsg.
  destruct (then_catch (clock d) p o op) as [op1 effects]. simpl in Hmsg.
  unfold delete_envelope. simpl. rewrite Hmsg.
  destruct Hd as [H1 H2 H3 H4].
  assert (Hother : ∀ i q, i ≠ id (message op) → _envelopes d !! i = Some q →
            ∃ op', <[p := set_phase (Settled o) op1]> (operations d) !! q = Some op' ∧
                   id (message op') = i ∧ is_pending (phase op') = true).
  { intros i q Hne Hq. destruct (H1 _ _ Hq) as (op' & Hop' & Hid & Hpend).
    exists op'. split; [|done]. rewrite list_lookup_insert_ne; [done|].
    intros <-. congruence. }
  destruct (_envelopes d !! id (message op)) as [q|] eqn:Hq; split; simpl.
  - intros i q' [Hne Hq']%lookup_delete_Some. by apply Hother.
  - apply NoDup_app. split; [done|]. split; [|apply NoDup_singleton].
    intros x Hx ->%list_elem_of_singleton.
    destruct (H3 _ Hx) as [_ Hout]. by eapply Hout.
  - intros q' [Hq'| ->%list_elem_of_singleton]%elem_of_app;
      rewrite length_insert.
    + destruct (H3 _ Hq') as [Hlt Hout]. split; [done|].
      intros i [_ Hi]%lookup_delete_Some. by eapply Hout.
    + destruct (H1 _ _ Hq) as (op' & Hop' & Hid & _).
      split; [by eapply lookup_lt_Some|].
      intros i [Hne Hi]%lookup_delete_Some.
      destruct (H1 _ _ Hi) as (op'' & Hop'' & Hid' & _). congruence.
  - intros q' op' [(<- & <- & _)|[Hne Hq']]%list_lookup_insert_Some; simpl.
    + right. destruct (H4 _ _ Hp) as [Hin|Hin].
      * apply elem_of_app. right. apply list_elem_of_singleton. congruence.
      * apply elem_of_app. by left.
    + destruct (H4 _ _ Hq') as [Hin|Hin].
      * destruct (decide (id (message op') = id (message op))) as [Heq|Hne'].
        -- right. apply elem_of_app. right. apply list_elem_of_singleton.
           congruence.
        -- left. by rewrite lookup_delete_ne.
      * right. apply elem_of_app. by left.
  - intros i q' Hq'. apply Hother; [|done]. intros ->. congruence.
  - done.
  - intros q' Hq'. rewrite length_insert. by apply H3.
  - intros q' op' [(<- & <- & _)|[Hne Hq']]%list_lookup_insert_Some; simpl.
    + right. destruct (H4 _ _ Hp) as [Hin|Hin]; [congruence|done].
    + by apply H4.
Qed.

Lemma consistent_cancel_all (envelopes : list (string * PromiseRef)) d :
  consistent d →
  consistent (foldl (λ d envelope, on_operation envelope.2 (λ _, cancel) d)
                d envelopes).
Proof.
  revert d. induction envelopes as [|e es IH]; intros d Hd; [done|].
  simpl. apply IH. apply consistent_on_operation; [apply tame_cancel|done].
Qed.

Lemma consistent_cancelPending d : consistent d → consistent (_cancelPending d).
Proof.
  intros [H1 H2 H3 H4]. unfold _cancelPending.
  apply consistent_cancel_all. split; simpl.
  - intros i p. by rewrite lookup_empty.
  - apply NoDup_app. split; [done|]. split.
    + intros x Hx [[i q] [-> Hiq]]%list_elem_of_fmap. simpl in *.
      apply elem_of_map_to_list in Hiq.
      destruct (H3 _ Hx) as [_ Hout]. by eapply Hout.
    + apply NoDup_fmap_2_strong; [|apply NoDup_map_to_list].
      intros [i q] [j q'] Hi Hj Heq. simpl in Heq. subst q'.
      apply elem_of_map_to_list in Hi, Hj.
      destruct (H1 _ _ Hi) as (op & Hop & Hid & _).
      destruct (H1 _ _ Hj) as (op' & Hop' & Hid' & _). congruence.
  - intros p [Hp|[[i q] [-> Hiq]]%list_elem_of_fmap]%elem_of_app.
    + destruct (H3 _ Hp) as [Hlt _]. split; [done|].
      intros i. by rewrite lookup_empty.
    + apply elem_of_map_to_list in Hiq. simpl.
      destruct (H1 _ _ Hiq) as (op & Hop & _).
      split; [by eapply lookup_lt_Some|]. intros j. by rewrite lookup_empty.
  - intros p op Hp. right. apply elem_of_app.
    destruct (H4 _ _ Hp) as [Hin|Hin]; [right|by left].
    apply list_elem_of_fmap. exists (id (message op), p). split; [done|].
    by apply elem_of_map_to_list.
Qed.

Lemma consistent_emit effects d : consistent d → consistent (emit effects d).
Proof. by apply consistent_frame. Qed.

Lemma consistent_handleResponse reply d :
  consistent d → consistent (handleResponse reply d).
Proof.
  intros Hd. unfold handleResponse.
  set (d1 := match successful reply with Some _ => _ | None => _ end).
  assert (consistent d1) as Hd1.
  { unfold d1. destruct (successful reply); [|by apply consistent_emit].
    destruct (_envelopes d !! id reply) as [p|];
      [|destruct (inherited (id reply)); [done|by apply consistent_emit]].
    destruct (resolve <$> operations d !! p) as [[| |k]|]; try done.
    apply consistent_on_operation; [apply tame_call_resolver|done]. }
  destruct (_state d1 =? UP); [done|].
  apply consistent_emit. by eapply consistent_frame; [..|exact Hd1].
Qed.

Lemma consistent_step d ev : consistent d → consistent (step d ev).
Proof.
  intros Hd. destruct ev; simpl;
    try (apply consistent_on_operation; [|done]).
  - destruct (0 <=? dt); [|done]. by eapply consistent_frame; [..|exact Hd].
  - by apply consistent_sendMessage.
  - by apply consistent_handleResponse.
  - by apply consistent_emit.
  - by apply consistent_cancelPending.
  - by apply consistent_emit.
  - by apply consistent_emit, consistent_cancelPending.
  - by apply consistent_emit, consistent_cancelPending, consistent_emit,
      consistent_emit.
  - apply tame_cancel.
  - apply tame_pool_resolved.
  - apply tame_pool_rejected.
  - apply tame_send_resolved.
  - apply tame_send_rejected.
  - apply tame_attempt_timeout.
  - apply tame_delay_elapsed.
  - apply tame_deadline_timeout.
  - by apply consistent_handlers_run.
Qed.

Lemma consistent_run evs d : consistent d → consistent (run d evs).
Proof.
  revert d. induction evs as [|ev evs IH]; intros d Hd; [done|].
  apply IH. by apply consistent_step.
Qed.

Lemma occurrences_NoDup (x : PromiseRef) l :
  NoDup l → (occurrences x l ≤ 1)%nat ∧ (x ∈ l → occurrences x l = 1%nat).
Proof.
  unfold occurrences. induction 1 as [|y l Hy Hl [IH1 IH2]]; simpl.
  - split; [lia|]. by intros ?%elem_of_nil.
  - rewrite filter_cons. destruct (decide (x = y)) as [->|Hne]; simpl.
    + assert (filter (y =.) l = []) as ->.
      { destruct (filter (y =.) l) as [|z l'] eqn:Hf; [done|].
        assert (z ∈ filter (y =.) l) as [<- Hz]%list_elem_of_filter
          by (rewrite Hf; apply list_elem_of_here).
        done. }
      split; [simpl; lia|done].
    + split; [done|]. intros [->|Hx]%elem_of_cons; [done|auto].
Qed.

Lemma envelopes_of_length i d : (length (envelopes_of i d) ≤ 1)%nat.
Proof.
  unfold envelopes_of.
  pose proof (NoDup_fst_map_to_list (_envelopes d)) as Hnd.
  induction (map_to_list (_envelopes d)) as [|[j q] l IH]; simpl; [lia|].
  apply NoDup_cons in Hnd as [Hj Hnd]. rewrite filter_cons. simpl.
  destruct (decide (j = i)) as [->|Hne]; [|auto].
  assert (filter (λ e : string * PromiseRef, e.1 = i) l = []) as ->; [|simpl; lia].
  destruct (filter _ l) as [|[k z] l'] eqn:Hf; [done|].
  assert ((k, z) ∈ filter (λ e : string * PromiseRef, e.1 = i) l)
    as [Hk Hz]%list_elem_of_filter by (rewrite Hf; apply list_elem_of_here).
  simpl in Hk. subst k. exfalso. apply Hj.
  apply list_elem_of_fmap. by exists (i, z).
Qed.

Lemma cancel_all_envelopes (envelopes : list (string * PromiseRef)) d :
  let d' := foldl (λ d envelope, on_operation envelope.2 (λ _, cancel) d)
              d envelopes in
  _envelopes d' = _envelopes d ∧ removals d' = removals d.
Proof.
  revert d. induction envelopes as [|e es IH]; intros d; [done|].
  simpl. destruct (IH (on_operation e.2 (λ _, cancel) d)) as [-> ->].
  by rewrite on_operation_envelopes, on_operation_removals.
Qed.

End OperationFacts.

Section Envelopes.
Context {S : Type} `{!Scheduler S}.
Implicit Types (d : Dispatcher S) (p : PromiseRef).

(** As long as the envelope of a message is in the map, [sendMessage] is
    idempotent on its id.  In every state the dispatcher can reach, when
    the id has an envelope, a call returns the promise that envelope
    holds, which is still pending, and changes nothing (no scheduler is
    constructed, no envelope or operation is created, nothing is called);
    and a call for an id that is not a member of [Object.prototype]
    leaves an envelope for the id that holds the very promise it
    returns. *)
Lemma sendMessage_of_envelope retry now evs (m : Message) ms options p :
  let d := run (new_Dispatcher retry now) evs in
  _envelopes d !! id m = Some p →
  sendMessage m ms options d = (Some p, d) ∧
  phase_of p d ≠ None ∧
  (∀ o, phase_of p d ≠ Some (Settled o)) ∧
  (∀ m0 ms0 options0,
     inherited (id m0) = false →
     let first := sendMessage m0 ms0 options0 d in
     first.1 = _envelopes first.2 !! id m0 ∧ first.1 ≠ None ∧
     (id m0 = id m → sendMessage m ms options first.2 = first)).
Proof.
  intros d Hm. assert (consistent d) as Hd
    by apply consistent_run, consistent_new.
  destruct (open_pending _ Hd _ _ Hm) as (op & Hop & _ & Hpend).
  unfold phase_of. rewrite Hop. simpl.
  split; [|split; [done|split]].
  - unfold sendMessage. by rewrite Hm.
  - intros o [= Ho]. by rewrite Ho in Hpend.
  - intros m0 ms0 options0 Hown. simpl.
    assert (∃ q, (sendMessage m0 ms0 options0 d).1 = Some q ∧
                 _envelopes (sendMessage m0 ms0 options0 d).2 !! id m0 = Some q)
      as (q & Hq & Hfirst).
    { unfold sendMessage.
      destruct (_envelopes d !! id m0) as [q|] eqn:Hm0; [by exists q|].
      rewrite Hown. simpl. eexists. split; [done|].
      rewrite on_operation_envelopes. simpl. by rewrite lookup_insert_eq. }
    rewrite Hq, Hfirst. split; [done|]. split; [done|]. intros Hid.
    destruct (sendMessage m0 ms0 options0 d) as [q' d1] eqn:Hcall.
    simpl in *. unfold sendMessage. rewrite <- Hid, Hfirst. by rewrite Hq.
Qed.

(** What does hold of the envelope map in every state the dispatcher can
    reach: it holds at most one envelope per id; every envelope in it
    belongs to a pending operation for that id (never a settled one); an
    envelope is taken out of the map at most once, and has been taken out
    by the time its operation has settled; when the [then], [catch] and
    [finally] of an operation run, whatever the outcome (fulfilled,
    rejected, cancelled), no envelope is left under its id; and [close]
    empties the map, each envelope it held being taken out once.  It does
    not hold that an envelope stays in the map until its own operation
    settles: the [finally] deletes by id, whosever envelope is there. *)
Lemma envelopes_in_the_map retry now evs :
  let d := run (new_Dispatcher retry now) evs in
  (∀ i, (length (envelopes_of i d) ≤ 1)%nat) ∧
  (∀ i p, _envelopes d !! i = Some p →
     ∃ op, operations d !! p = Some op ∧ id (message op) = i ∧
           is_pending (phase op) = true) ∧
  (∀ p, (occurrences p (removals d) ≤ 1)%nat) ∧
  (∀ p op o, operations d !! p = Some op → phase op = Settled o →
     occurrences p (removals d) = 1%nat ∧
     ∀ i, _envelopes d !! i ≠ Some p) ∧
  (∀ p op o, operations d !! p = Some op → phase op = Settling o →
     let d' := handlers_run p d in
     phase_of p d' = Some (Settled o) ∧
     _envelopes d' !! id (message op) = None ∧
     occurrences p (removals d') = 1%nat) ∧
  (_envelopes (close d) = ∅ ∧
   ∀ i p, _envelopes d !! i = Some p →
     occurrences p (removals (close d)) = 1%nat).
Proof.
  intros d. assert (consistent d) as Hd
    by apply consistent_run, consistent_new.
  assert (∀ d' p op o, consistent d' → operations d' !! p = Some op →
            phase op = Settled o →
            occurrences p (removals d') = 1%nat ∧
            ∀ i, _envelopes d' !! i ≠ Some p) as Hsettled.
  { intros d' p op o Hd' Hop Hph.
    assert (∀ i, _envelopes d' !! i ≠ Some p) as Hout.
    { intros i Hi. destruct (open_pending _ Hd' _ _ Hi) as (op' & Hop' & _ & Hpend).
      assert (op' = op) as -> by congruence. by rewrite Hph in Hpend. }
    split; [|done].
    apply occurrences_NoDup; [apply Hd'|].
    destruct (kept_or_removed _ Hd' _ _ Hop) as [Hin|Hin]; [|done].
    by apply Hout in Hin. }
  split; [intros i; apply envelopes_of_length|].
  split; [apply Hd|].
  split; [intros p; apply occurrences_NoDup, Hd|].
  split; [intros p op o; by apply Hsettled|].
  split.
  - intros p op o Hop Hph d'.
    assert (consistent d') as Hd' by by apply consistent_handlers_run.
    assert (∃ op', operations d' !! p = Some op' ∧ phase op' = Settled o ∧
                   _envelopes d' !! id (message op) = None)
      as (op' & Hop' & Hph' & Hgone).
    { unfold d', handlers_run. rewrite Hop, Hph.
      pose proof (then_catch_message (clock d) p o op) as Hmsg.
      destruct (then_catch (clock d) p o op) as [op1 effects]. simpl in Hmsg.
      eexists. split; [|split].
      - simpl. apply list_lookup_insert_eq.
        unfold delete_envelope. simpl.
        destruct (_envelopes d !! id (message op1)); simpl;
          by eapply lookup_lt_Some.
      - done.
      - simpl. unfold delete_envelope. simpl. rewrite Hmsg.
        destruct (_envelopes d !! id (message op)) eqn:He; simpl; [|done].
        apply lookup_delete_eq. }
    unfold phase_of. rewrite Hop'. simpl. rewrite Hph'.
    split; [done|]. split; [done|].
    by eapply Hsettled.
  - destruct (cancel_all_envelopes (map_to_list (_envelopes d))
                (set_envelopes ∅ ((map_to_list (_envelopes d)).*2) d))
      as [He Hr].
    split; [exact He|].
    intros i p Hi.
    assert (consistent (close d)) as Hd'
      by by apply consistent_emit, consistent_cancelPending.
    apply occurrences_NoDup; [apply Hd'|].
    change (removals (close d)) with (removals (_cancelPending d)).
    unfold _cancelPending. rewrite Hr. simpl.
    apply elem_of_app. right. apply list_elem_of_fmap.
    exists (i, p). split; [done|]. by apply elem_of_map_to_list.
Qed.

End Envelopes.

Section Replies.
Context {S : Type} `{!Scheduler S}.
Implicit Types (d : Dispatcher S) (p : PromiseRef) (reply : Message).

Lemma since_app d d' (new : list (Z * Effect)) :
  trace d' = trace d ++ new → since d d' = new.
Proof. intros Heq. unfold since. rewrite Heq. apply drop_app_length. Qed.

Lemma handleResponse_trace reply d :
  trace (handleResponse reply d) =
    trace d ++
    (pair (clock d) <$> correlation reply d) ++
    (if _state d =? UP then [] else [(clock d, trigger "transport:up" None)]).
Proof.
  unfold handleResponse, correlation.
  destruct (successful reply) as [b|]; simpl.
  - destruct (_envelopes d !! id reply) as [p|]; simpl.
    + destruct (operations d !! p) as [op|] eqn:Hop; simpl.
      * destruct (resolve op) as [| |k] eqn:Hres; simpl;
          try (destruct (_state d =? UP); simpl; by rewrite ?app_nil_r).
        rewrite on_operation_state.
        destruct (_state d =? UP); simpl;
          rewrite ?on_operation_clock, on_operation_trace, Hop; simpl;
          by rewrite <- ?app_assoc.
      * destruct (_state d =? UP); simpl; by rewrite ?app_nil_r.
    + destruct (inherited (id reply)); simpl;
        destruct (_state d =? UP); simpl; by rewrite <- ?app_assoc, ?app_nil_r.
  - destruct (_state d =? UP); simpl; by rewrite <- ?app_assoc.
Qed.

Lemma handleResponse_state reply d : _state (handleResponse reply d) = UP.
Proof.
  unfold handleResponse.
  set (d1 := match successful reply with Some _ => _ | None => _ end).
  destruct (_state d1 =? UP) eqn:Hup; [|done]. by apply Z.eqb_eq.
Qed.

Lemma handleResponse_clock reply d : clock (handleResponse reply d) = clock d.
Proof.
  unfold handleResponse.
  set (d1 := match successful reply with Some _ => _ | None => _ end).
  assert (clock d1 = clock d) as Hc.
  { unfold d1. destruct (successful reply); [|done].
    destruct (_envelopes d !! id reply) as [p|];
      [|by destruct (inherited (id reply))].
    destruct (resolve <$> operations d !! p) as [[| |k]|]; try done.
    apply on_operation_clock. }
  by destruct (_state d1 =? UP).
Qed.

Lemma notifications_app name (l k : list (Z * Effect)) :
  notifications name (l ++ k) = notifications name l ++ notifications name k.
Proof. apply omap_app. Qed.

Lemma correlation_no_up now reply d :
  notifications "transport:up" (pair now <$> correlation reply d) = [].
Proof.
  unfold correlation.
  destruct (successful reply), (_envelopes d !! id reply) as [p|]; try done.
  - by destruct (resolve <$> operations d !! p) as [[| |k]|].
  - by destruct (inherited (id reply)).
Qed.

Lemma handle_all_up replies d :
  _state d = UP →
  ∃ new, trace (handle_all d replies) = trace d ++ new ∧
         notifications "transport:up" new = [].
Proof.
  revert d. induction replies as [|reply replies IH]; intros d Hup.
  - exists []. simpl. by rewrite app_nil_r.
  - destruct (IH (handleResponse reply d) (handleResponse_state _ _))
      as (new & Htr & Hnew).
    change (handle_all d (reply :: replies))
      with (handle_all (handleResponse reply d) replies).
    eexists. split.
    + rewrite Htr, handleResponse_trace, Hup.
      simpl. rewrite app_nil_r, <- app_assoc. reflexivity.
    + by rewrite notifications_app, correlation_no_up.
Qed.

Lemma handle_all_state reply replies d :
  _state (handle_all d (reply :: replies)) = UP.
Proof.
  revert reply d. induction replies as [|r rs IH]; intros reply d.
  - apply handleResponse_state.
  - apply (IH r (handleResponse reply d)).
Qed.

Lemma correlation_resolve reply d p k r :
  envelope_resolve p k r ∈ correlation reply d ↔
  r = reply ∧ successful reply ≠ None ∧ _envelopes d !! id reply = Some p ∧
  resolve <$> operations d !! p = Some (Resolver k).
Proof.
  unfold correlation. split.
  - destruct (successful reply) as [b|];
      [|by intros [=]%list_elem_of_singleton].
    destruct (_envelopes d !! id reply) as [q|];
      [|destruct (inherited (id reply));
        [by intros ?%elem_of_nil|by intros [=]%list_elem_of_singleton]].
    destruct (resolve <$> operations d !! q) as [[| |k']|] eqn:Hres;
      try by intros ?%elem_of_nil.
    by intros [= -> -> ->]%list_elem_of_singleton.
  - intros (-> & Hs & -> & ->). destruct (successful reply); [|done].
    apply list_elem_of_here.
Qed.

Lemma correlation_message reply d r :
  trigger "message" r ∈ correlation reply d ↔
  r = Some reply ∧
  ¬ (successful reply ≠ None ∧
     (_envelopes d !! id reply ≠ None ∨ inherited (id reply) = true)).
Proof.
  unfold correlation. split.
  - destruct (successful reply) as [b|];
      [|intros [= ->]%list_elem_of_singleton; split; [done|]; by intros [? _]].
    destruct (_envelopes d !! id reply) as [q|].
    + destruct (resolve <$> operations d !! q) as [[| |k']|];
        try by intros ?%elem_of_nil.
      by intros [=]%list_elem_of_singleton.
    + destruct (inherited (id reply)); [by intros ?%elem_of_nil|].
      intros [= ->]%list_elem_of_singleton. split; [done|].
      by intros [_ [?|?]].
  - intros [-> Hno]. destruct (successful reply) as [b|];
      [|apply list_elem_of_here].
    destruct (_envelopes d !! id reply) as [q|].
    + exfalso. apply Hno. split; [done|by left].
    + destruct (inherited (id reply)); [|apply list_elem_of_here].
      exfalso. apply Hno. split; [done|by right].
Qed.

Lemma handleResponse_operations reply d :
  operations (handleResponse reply d) =
    match successful reply, _envelopes d !! id reply with
    | Some _, Some p =>
        match resolve <$> operations d !! p with
        | Some (Resolver k) =>
            operations (on_operation p (λ _ p, call_resolver p k reply) d)
        | _ => operations d
        end
    | _, _ => operations d
    end.
Proof.
  unfold handleResponse.
  set (d1 := match successful reply with Some _ => _ | None => _ end).
  transitivity (operations d1); [by destruct (_state d1 =? UP)|].
  unfold d1. destruct (successful reply); [|done].
  destruct (_envelopes d !! id reply) as [p|];
    [|by destruct (inherited (id reply))].
  by destruct (resolve <$> operations d !! p) as [[| |k]|].
Qed.

Lemma call_resolver_never_rejects p k reply (op : Operation S) e :
  let op' := (call_resolver p k reply op).1 in
  phase op' = Settling (Rejected e) ∨ phase op' = Settled (Rejected e) →
  phase op' = phase op.
Proof.
  unfold call_resolver, join. simpl.
  destruct (phase op) as [| |t due sent [r|]| | |] eqn:Hph; simpl;
    rewrite ?Hph; try done.
  destruct (k =? attempt op)%nat; simpl; rewrite ?Hph; [|done].
  destruct sent; simpl; by intros [[=]|[=]].
Qed.

(** What [handleResponse] does with a reply.  It calls a resolver exactly
    when the reply carries [successful], the map holds an envelope for the
    reply's id and that envelope's [resolve] is a resolver, and it is then
    this resolver, called with the reply; with [successful] and an
    envelope whose resolver is not set it does nothing to the operations
    and calls nothing.  It publishes ['message'] exactly when the reply
    does not carry [successful], or its id has no envelope and is not a
    member of [Object.prototype] either; and then touches no operation.
    No operation is rejected by it. *)
Lemma handleResponse_calls reply d :
  let d' := handleResponse reply d in
  (∀ t p k r,
     (t, envelope_resolve p k r) ∈ since d d' ↔
     t = clock d ∧ r = reply ∧ successful reply ≠ None ∧
     _envelopes d !! id reply = Some p ∧
     resolve <$> operations d !! p = Some (Resolver k)) ∧
  (∀ p, successful reply ≠ None → _envelopes d !! id reply = Some p →
     (∀ k, resolve <$> operations d !! p ≠ Some (Resolver k)) →
     operations d' = operations d ∧ correlation reply d = []) ∧
  (∀ t r,
     (t, trigger "message" r) ∈ since d d' ↔
     t = clock d ∧ r = Some reply ∧
     ¬ (successful reply ≠ None ∧
        (_envelopes d !! id reply ≠ None ∨ inherited (id reply) = true))) ∧
  (¬ (successful reply ≠ None ∧ _envelopes d !! id reply ≠ None) →
     operations d' = operations d) ∧
  (∀ q e, phase_of q d' = Some (Settling (Rejected e)) ∨
          phase_of q d' = Some (Settled (Rejected e)) →
          phase_of q d' = phase_of q d).
Proof.
  intros d'.
  rewrite (since_app d d' _ (handleResponse_trace reply d)).
  assert (∀ x : Z * Effect,
    x ∈ (if _state d =? UP then [] else [(clock d, trigger "transport:up" None)]) →
    x = (clock d, trigger "transport:up" None)) as Hup.
  { intros x. destruct (_state d =? UP); [by intros ?%elem_of_nil|].
    by intros ?%list_elem_of_singleton. }
  split; [|split; [|split; [|split]]].
  - intros t p k r. rewrite <- correlation_resolve. split.
    + intros [[e [[= -> ->] He]]%list_elem_of_fmap|[=]%Hup]%elem_of_app.
      done.
    + intros [-> Hin]. apply elem_of_app. left.
      apply list_elem_of_fmap. by exists (envelope_resolve p k r).
  - intros p Hs He Hk. unfold d'. rewrite handleResponse_operations.
    unfold correlation. destruct (successful reply); [|done]. rewrite He.
    destruct (resolve <$> operations d !! p) as [[| |k]|] eqn:Hres; try done.
    by destruct (Hk k).
  - intros t r. split.
    + intros [[e [[= -> <-] He]]%list_elem_of_fmap|[=]%Hup]%elem_of_app.
      split; [done|]. by apply correlation_message.
    + intros (-> & Hin). apply correlation_message in Hin.
      apply elem_of_app. left. apply list_elem_of_fmap.
      by exists (trigger "message" r).
  - intros Hno. unfold d'. rewrite handleResponse_operations.
    destruct (successful reply); [|done].
    destruct (_envelopes d !! id reply);
      [|by destruct (inherited (id reply))].
    exfalso. by apply Hno.
  - intros q e. unfold d', phase_of. rewrite handleResponse_operations.
    destruct (successful reply); [|done].
    destruct (_envelopes d !! id reply) as [p|];
      [|by destruct (inherited (id reply))].
    destruct (operations d !! p) as [op|] eqn:Hop; [|done]. simpl.
    destruct (resolve op) as [| |k]; try done.
    destruct (decide (q = p)) as [->|Hne];
      [|by rewrite on_operation_lookup_ne].
    rewrite (on_operation_lookup_eq _ _ _ _ Hop), Hop. simpl.
    intros Hrej. f_equal. apply (call_resolver_never_rejects p k reply op e).
    destruct Hrej as [[= Hrej]|[= Hrej]]; [left|right]; exact Hrej.
Qed.

(** C6.  A non-empty series of consecutive [handleResponse] calls that
    starts in a state other than UP publishes ['transport:up'] exactly
    once and ends in UP; and a series of calls that starts in UP publishes
    none. *)
Theorem transport_up_once (replies : list Message) d :
  replies ≠ [] → _state d ≠ UP →
  let d' := handle_all d replies in
  notifications "transport:up" (since d d') = [None] ∧
  _state d' = UP ∧
  (∀ (d0 : Dispatcher S) more,
     _state d0 = UP →
     notifications "transport:up" (since d0 (handle_all d0 more)) = []).
Proof.
  intros Hne Hdown d'.
  assert (∀ (d0 : Dispatcher S) more, _state d0 = UP →
            notifications "transport:up" (since d0 (handle_all d0 more)) = [])
    as Hquiet.
  { intros d0 more Hup.
    destruct (handle_all_up more d0 Hup) as (new & Htr & Hnew).
    by rewrite (since_app _ _ _ Htr). }
  destruct replies as [|reply replies]; [done|].
  split; [|split; [apply handle_all_state|done]].
  destruct (handle_all_up replies (handleResponse reply d)
              (handleResponse_state _ _)) as (new & Htr & Hnew).
  unfold d'.
  change (handle_all d (reply :: replies))
    with (handle_all (handleResponse reply d) replies).
  erewrite since_app.
  2:{ rewrite Htr, handleResponse_trace. rewrite <- !app_assoc. reflexivity. }
  rewrite !notifications_app, correlation_no_up, Hnew.
  apply Z.eqb_neq in Hdown. by rewrite Hdown.
Qed.

End Replies.

Section RetryLoop.
Context {S : Type} `{!Scheduler S}.
Implicit Types (d : Dispatcher S) (op : Operation S) (p q : PromiseRef).

Section Waiting.
Variables (p : PromiseRef) (bound : option Z) (n0 : nat).

Lemma late_mono t t' : late bound t → t ≤ t' → late bound t'.
Proof. intros (due & ? & ?) ?. exists due. split; [done|lia]. Qed.

Lemma waiting_on_operation q f d :
  labelled (S:=S) f → waits (S:=S) p bound f → waiting p bound n0 d →
  waiting p bound n0 (on_operation q f d).
Proof.
  intros Hlab Hwaits Hd.
  destruct (operations d !! q) as [opq|] eqn:Hq;
    [|by rewrite on_operation_None].
  destruct Hd as [Hlen Htr (op & Hop & Hw)]. split.
  - rewrite on_operation_trace, length_app. lia.
  - intros t e. rewrite on_operation_trace, Hq, drop_app_le by done.
    intros [Hin|[e' [[= -> <-] Hin]]%list_elem_of_fmap]%elem_of_app He.
    + by eapply Htr.
    + assert (p = q) as <- by by eapply Hlab.
      assert (opq = op) as -> by congruence.
      by eapply (Hwaits (clock d) op Hw).
  - rewrite on_operation_clock.
    destruct (decide (p = q)) as [<-|Hne].
    + exists (f (clock d) p op).1.
      split; [by apply on_operation_lookup_eq|].
      by apply (Hwaits (clock d) op Hw).
    + exists op. by rewrite on_operation_lookup_ne.
Qed.

Lemma waiting_emit effects d :
  (∀ e, e ∈ effects → attempt_effect p e = false) →
  waiting p bound n0 d → waiting p bound n0 (emit effects d).
Proof.
  intros Hno [Hlen Htr Hph]. split; [| |exact Hph]; simpl.
  - rewrite length_app. lia.
  - intros t e. rewrite drop_app_le by done.
    intros [Hin|[e' [[= -> <-] Hin]]%list_elem_of_fmap]%elem_of_app He.
    + by eapply Htr.
    + by rewrite (Hno _ Hin) in He.
Qed.

Lemma waiting_frame d d' :
  trace d' = trace d → operations d' !! p = operations d !! p →
  clock d ≤ clock d' → waiting p bound n0 d → waiting p bound n0 d'.
Proof.
  intros Ht Ho Hc [Hlen Htr (op & Hop & Hw)].
  split; rewrite ?Ht, ?Ho; [done|done|].
  exists op. split; [done|].
  destruct Hw as [Hw|[Hw|Hw]]; [by left| |by right; right].
  right; left. by eapply late_mono.
Qed.

Ltac label_tac :=
  intros ? ? ? ? ?; unfold_callbacks; crush_op;
  intros Hin He; set_unfold; destruct_or?; subst; simpl in He; try done;
  by apply Nat.eqb_eq.

Lemma labelled_attemptSend : labelled (S:=S) _attemptSend.
Proof. label_tac. Qed.

Lemma labelled_cancel : labelled (S:=S) (λ _, cancel).
Proof. label_tac. Qed.

Lemma labelled_pool_resolved t : labelled (S:=S) (λ now p, pool_resolved now p t).
Proof. label_tac. Qed.

Lemma labelled_pool_rejected e : labelled (S:=S) (λ now p, pool_rejected now p e).
Proof. label_tac. Qed.

Lemma labelled_send_resolved : labelled (S:=S) (λ _ _, send_resolved).
Proof. label_tac. Qed.

Lemma labelled_send_rejected e : labelled (S:=S) (λ now p, send_rejected now p e).
Proof. label_tac. Qed.

Lemma labelled_attempt_timeout : labelled (S:=S) attempt_timeout.
Proof. label_tac. Qed.

Lemma labelled_delay_elapsed : labelled (S:=S) delay_elapsed.
Proof. label_tac. Qed.

Lemma labelled_deadline_timeout : labelled (S:=S) deadline_timeout.
Proof. label_tac. Qed.

Lemma labelled_call_resolver k reply :
  labelled (S:=S) (λ _ p, call_resolver p k reply).
Proof. label_tac. Qed.

Ltac waits_effects :=
  let Hin := fresh in let He := fresh in
  intros ? Hin He; set_unfold; destruct_or?; subst; simpl in He; done.

Ltac waits_tac :=
  let Hfin := fresh "Hfin" in let Hlate := fresh "Hlate" in
  let due := fresh "due" in let Hb := fresh "Hb" in
  let Hph := fresh "Hph" in let op := fresh "op" in
  intros ? op [Hfin|[Hlate|(due & Hb & Hph)]];
  [ unfold_callbacks; simpl;
    destruct (phase op) eqn:?; simpl in Hfin; try discriminate;
    crush_op;
    (split;
     [ left; simpl;
       try match goal with H : phase _ = _ |- _ => rewrite H end; done
     | waits_effects ])
  | split; [by right; left | by intros]
  | unfold_callbacks; simpl; rewrite ?Hph; simpl; crush_op;
    (split;
     [ first
         [ by left
         | by right; right; exists due
         | right; left; exists due; split; [done|lia] ]
     | first
         [ waits_effects
         | intros; exists due; split; [done|lia] ] ]) ].

Lemma waits_cancel : waits (S:=S) p bound (λ _, cancel).
Proof. waits_tac. Qed.

Lemma waits_pool_resolved t : waits (S:=S) p bound (λ now p, pool_resolved now p t).
Proof. waits_tac. Qed.

Lemma waits_pool_rejected e : waits (S:=S) p bound (λ now p, pool_rejected now p e).
Proof. waits_tac. Qed.

Lemma waits_send_resolved : waits (S:=S) p bound (λ _ _, send_resolved).
Proof. waits_tac. Qed.

Lemma waits_send_rejected e : waits (S:=S) p bound (λ now p, send_rejected now p e).
Proof. waits_tac. Qed.

Lemma waits_attempt_timeout : waits (S:=S) p bound attempt_timeout.
Proof. waits_tac. Qed.

Lemma waits_delay_elapsed : waits (S:=S) p bound delay_elapsed.
Proof. waits_tac. Qed.

Lemma waits_deadline_timeout : waits (S:=S) p bound deadline_timeout.
Proof. waits_tac. Qed.

Lemma waits_call_resolver k reply : waits (S:=S) p bound (λ _ p, call_resolver p k reply).
Proof. waits_tac. Qed.

Lemma waiting_on_other q f d :
  q ≠ p → labelled (S:=S) f → waiting p bound n0 d → waiting p bound n0 (on_operation q f d).
Proof.
  intros Hne Hlab Hd.
  destruct (operations d !! q) as [opq|] eqn:Hq;
    [|by rewrite on_operation_None].
  destruct Hd as [Hlen Htr (op & Hop & Hw)]. split.
  - rewrite on_operation_trace, length_app. lia.
  - intros t e. rewrite on_operation_trace, Hq, drop_app_le by done.
    intros [Hin|[e' [[= -> <-] Hin]]%list_elem_of_fmap]%elem_of_app He.
    + by eapply Htr.
    + destruct Hne. symmetry. by eapply Hlab.
  - rewrite on_operation_clock. exists op.
    by rewrite on_operation_lookup_ne.
Qed.

Lemma waiting_sendMessage m ms options d :
  waiting p bound n0 d → waiting p bound n0 (sendMessage m ms options d).2.
Proof.
  intros Hd. unfold sendMessage.
  destruct (_envelopes d !! id m) as [q|]; [done|].
  destruct (inherited (id m)); [done|]. simpl.
  destruct (waiting_phase _ _ _ _ Hd) as (op & Hop & _).
  apply waiting_on_other.
  - apply lookup_lt_Some in Hop. simpl in *. lia.
  - apply labelled_attemptSend.
  - apply waiting_emit; [by intros e ->%list_elem_of_singleton|].
    eapply waiting_frame; [..|exact Hd]; simpl; [done| |lia].
    rewrite Hop. by apply lookup_app_l_Some.
Qed.

Lemma waiting_cancel_all (envelopes : list (string * PromiseRef)) d :
  waiting p bound n0 d →
  waiting p bound n0 (foldl (λ d envelope, on_operation envelope.2 (λ _, cancel) d)
             d envelopes).
Proof.
  revert d. induction envelopes as [|e es IH]; intros d Hd; [done|].
  simpl. apply IH.
  apply waiting_on_operation;
    [apply labelled_cancel|apply waits_cancel|done].
Qed.

Lemma waiting_cancelPending d : waiting p bound n0 d → waiting p bound n0 (_cancelPending d).
Proof.
  intros Hd. apply waiting_cancel_all.
  eapply waiting_frame; [..|exact Hd]; simpl; [done|done|lia].
Qed.

Lemma waiting_handleResponse reply d :
  waiting p bound n0 d → waiting p bound n0 (handleResponse reply d).
Proof.
  intros Hd. unfold handleResponse.
  set (d1 := match successful reply with Some _ => _ | None => _ end).
  assert (waiting p bound n0 d1) as Hd1.
  { assert (waiting p bound n0 (emit [trigger "message" (Some reply)] d)) as Hmsg
      by (apply waiting_emit; [by intros e ->%list_elem_of_singleton|done]).
    unfold d1. destruct (successful reply); [|done].
    destruct (_envelopes d !! id reply) as [q|];
      [|by destruct (inherited (id reply))].
    destruct (resolve <$> operations d !! q) as [[| |k]|]; try done.
    apply waiting_on_operation;
      [apply labelled_call_resolver|apply waits_call_resolver|done]. }
  destruct (_state d1 =? UP); [done|].
  apply waiting_emit; [by intros e ->%list_elem_of_singleton|].
  eapply waiting_frame; [..|exact Hd1]; simpl; [done|done|lia].
Qed.

Lemma waiting_handlers_run q d : waiting p bound n0 d → waiting p bound n0 (handlers_run q d).
Proof.
  intros Hd. unfold handlers_run.
  destruct (operations d !! q) as [opq|] eqn:Hq; [|done].
  destruct (phase opq) as [| | | |o|] eqn:Hph; try done.
  assert (∀ e, e ∈ (then_catch (clock d) q o opq).2 →
            attempt_effect p e = false) as Hquiet.
  { intros e. destruct o; simpl; try by intros ->%list_elem_of_singleton.
    by intros ?%elem_of_nil. }
  destruct (then_catch (clock d) q o opq) as [op1 effects]. simpl in Hquiet.
  apply (waiting_emit effects) in Hd; [|done].
  destruct Hd as [Hlen Htr (op & Hop & Hw)].
  destruct (delete_envelope_frame (id (message op1)) (emit effects d))
    as (Ht & Ho & Hc).
  split; simpl; rewrite ?Ht, ?Ho, ?Hc; [done|done|].
  simpl in Hop. destruct (decide (p = q)) as [<-|Hne].
  - eexists. split.
    + apply list_lookup_insert_eq. by eapply lookup_lt_Some.
    + by left.
  - exists op. by rewrite list_lookup_insert_ne.
Qed.

Lemma waiting_step ev d : waiting p bound n0 d → waiting p bound n0 (step d ev).
Proof.
  intros Hd. destruct ev; simpl;
    try (apply waiting_on_operation; [| |done]).
  - destruct (0 <=? dt) eqn:Hdt; [|done].
    eapply waiting_frame; [..|exact Hd]; simpl; [done|done|lia].
  - by apply waiting_sendMessage.
  - by apply waiting_handleResponse.
  - apply waiting_emit; [by intros e ->%list_elem_of_singleton|done].
  - by apply waiting_cancelPending.
  - apply waiting_emit; [by intros e ->%list_elem_of_singleton|done].
  - apply waiting_emit; [by intros e ->%list_elem_of_singleton|].
    by apply waiting_cancelPending.
  - apply waiting_emit; [by intros e ->%list_elem_of_singleton|].
    apply waiting_cancelPending.
    apply waiting_emit; [by intros e ->%list_elem_of_singleton|].
    apply waiting_emit; [by intros e ->%list_elem_of_singleton|done].
  - apply labelled_cancel.
  - apply waits_cancel.
  - apply labelled_pool_resolved.
  - apply waits_pool_resolved.
  - apply labelled_pool_rejected.
  - apply waits_pool_rejected.
  - apply labelled_send_resolved.
  - apply waits_send_resolved.
  - apply labelled_send_rejected.
  - apply waits_send_rejected.
  - apply labelled_attempt_timeout.
  - apply waits_attempt_timeout.
  - apply labelled_delay_elapsed.
  - apply waits_delay_elapsed.
  - apply labelled_deadline_timeout.
  - apply waits_deadline_timeout.
  - by apply waiting_handlers_run.
Qed.

Lemma waiting_run evs d : waiting p bound n0 d → waiting p bound n0 (run d evs).
Proof.
  revert d. induction evs as [|ev evs IH]; intros d Hd; [done|].
  apply IH. by apply waiting_step.
Qed.

End Waiting.

(** From a state in which operation [p] waits, no run makes an attempt
    for [p] that is not late. *)
Lemma waiting_since p bound d evs t e :
  (∃ op, operations d !! p = Some op ∧ op_waiting bound (clock d) op) →
  (t, e) ∈ since d (run d evs) → attempt_effect p e = true → late bound t.
Proof.
  intros Hop. apply (waiting_trace p bound (length (trace d))).
  apply waiting_run. split; [done| |done].
  intros t' e'. rewrite drop_all. by intros ?%elem_of_nil.
Qed.

Lemma never_late t : ¬ late None t.
Proof. by intros (due & [=] & _). Qed.

Lemma handlers_run_settles p d op o :
  operations d !! p = Some op → phase op = Settling o →
  phase_of p (handlers_run p d) = Some (Settled o).
Proof.
  intros Hop Hph. unfold phase_of, handlers_run. rewrite Hop, Hph.
  destruct (then_catch (clock d) p o op) as [op1 effects]. simpl.
  destruct (delete_envelope_frame (id (message op1)) (emit effects d))
    as (_ & Ho & _).
  rewrite Ho. simpl. rewrite list_lookup_insert_eq; [done|].
  by eapply lookup_lt_Some.
Qed.

Lemma attempt_catch_unfold now p e op :
  let s := fail now (scheduler op) in
  attempt_catch now p e op =
    if isDeliverable now s then
      (set_phase (AwaitRetry (now + getInterval now s)) (set_scheduler s op),
       [scheduler_fail p; Promise_delay p (getInterval now s)])
    else
      (set_phase (Settling (Rejected e)) (set_scheduler s op),
       [scheduler_fail p]).
Proof.
  unfold attempt_catch, _awaitRetry. simpl.
  by destruct (isDeliverable now (fail now (scheduler op))).
Qed.

(** What a failing event runs: the [catch] of [_attemptSend], after the
    legs of the join were cancelled when the failure is its timeout. *)
Lemma failure_step d p op ev e :
  operations d !! p = Some op →
  failure ev p op (clock d) = Some e →
  ∃ op0 cancels,
    scheduler op0 = scheduler op ∧
    (∀ x, x ∈ cancels → x = sendPromise_cancel p) ∧
    step d ev =
      emit (cancels ++ (attempt_catch (clock d) p e op0).2)
        (set_operations
           (<[p := (attempt_catch (clock d) p e op0).1]> (operations d)) d).
Proof.
  intros Hop Hfail. unfold failure in Hfail.
  destruct ev; try done; destruct (phase op) eqn:Hph; try done.
  - destruct (Nat.eqb_spec p0 p) as [->|]; [|done]. injection Hfail as ->.
    exists op, []. split; [done|]. split; [by intros x ?%elem_of_nil|].
    simpl. rewrite (on_operation_unfold _ _ _ _ Hop).
    unfold pool_rejected. by rewrite Hph.
  - destruct sent; [done|].
    destruct (Nat.eqb_spec p0 p) as [->|]; [|done]. injection Hfail as ->.
    exists op, []. split; [done|]. split; [by intros x ?%elem_of_nil|].
    simpl. rewrite (on_operation_unfold _ _ _ _ Hop).
    unfold send_rejected. by rewrite Hph.
  - destruct (Nat.eqb_spec p0 p) as [->|]; [|done].
    destruct (due <=? clock d) eqn:Hdue; [|done]. injection Hfail as <-.
    exists op, []. split; [done|]. split; [by intros x ?%elem_of_nil|].
    simpl. rewrite (on_operation_unfold _ _ _ _ Hop).
    unfold attempt_timeout. by rewrite Hph, Hdue.
  - destruct (Nat.eqb_spec p0 p) as [->|]; [|done].
    destruct (due <=? clock d) eqn:Hdue; [|done]. injection Hfail as <-.
    exists (set_resolve Null op), [sendPromise_cancel p].
    split; [done|]. split; [by intros x ->%list_elem_of_singleton|].
    simpl. rewrite (on_operation_unfold _ _ _ _ Hop).
    unfold attempt_timeout, cancel_legs. rewrite Hph, Hdue.
    by destruct (attempt_catch (clock d) p TimeoutError (set_resolve Null op)).
Qed.

(** C4.  When an attempt of operation [p] fails (the pool or the transport
    rejects, or a per-attempt timer fires), the dispatcher calls the
    scheduler's [fail] first and decides on the scheduler as [fail] left
    it.  If that scheduler is deliverable, the operation waits on
    [Promise.delay(getInterval())], and in no continuation does a call of
    a further attempt (to the scheduler's [send], to the pool, to a
    transport) happen earlier than the time of the failure plus that
    interval; and once the interval has passed and the [then] of the delay
    runs, the next attempt starts there and then: the scheduler's [send]
    is called and the pool is asked for a transport, for the attempt with
    the next number (or, should the scheduler by then report the message
    no longer deliverable, the operation is rejected and nothing is
    called).  If it is not deliverable, the operation is rejected with
    the error of the failure, which is what the caller's promise settles
    with when its handlers run, and no continuation makes a further
    attempt. *)
Theorem retry_after_failure d p op ev e :
  operations d !! p = Some op →
  failure ev p op (clock d) = Some e →
  let now := clock d in
  let s := fail now (scheduler op) in
  let d1 := step d ev in
  (∃ cancels,
     since d d1 =
       cancels ++ (now, scheduler_fail p) ::
       (if isDeliverable now s
        then [(now, Promise_delay p (getInterval now s))] else []) ∧
     ∀ x, x ∈ cancels → x = (now, sendPromise_cancel p)) ∧
  scheduler <$> operations d1 !! p = Some s ∧
  (if isDeliverable now s then
     phase_of p d1 = Some (AwaitRetry (now + getInterval now s)) ∧
     (∀ evs t eff,
        (t, eff) ∈ since d1 (run d1 evs) → attempt_effect p eff = true →
        now + getInterval now s ≤ t) ∧
     (∀ dt, 0 ≤ dt → getInterval now s ≤ dt →
        let d2 := step d1 (Tick dt) in
        let d3 := step d2 (Delay_elapsed p) in
        if isDeliverable (now + dt) s then
          since d2 d3 = [(now + dt, scheduler_send p); (now + dt, pool_get p)] ∧
          phase_of p d3 =
            Some (AwaitTransport
                    (now + dt + getTimeout (now + dt) (send (now + dt) s))) ∧
          attempt <$> operations d3 !! p = Some (Datatypes.S (attempt op))
        else
          since d2 d3 = [] ∧
          phase_of p d3 = Some (Settling (Rejected NoLongerDeliverable)))
   else
     phase_of p d1 = Some (Settling (Rejected e)) ∧
     phase_of p (handlers_run p d1) = Some (Settled (Rejected e)) ∧
     ∀ evs t eff,
       (t, eff) ∈ since d1 (run d1 evs) → attempt_effect p eff = false).
Proof.
  intros Hop Hfail now s d1.
  destruct (failure_step d p op ev e Hop Hfail)
    as (op0 & cancels & Hs & Hcancels & Hstep).
  assert (operations d1 !! p = Some (attempt_catch now p e op0).1) as Hop1.
  { unfold d1. rewrite Hstep. simpl. apply list_lookup_insert_eq.
    by eapply lookup_lt_Some. }
  assert (clock d1 = now) as Hclock by (unfold d1; by rewrite Hstep).
  assert (since d d1 =
            pair now <$> (cancels ++ (attempt_catch now p e op0).2)) as Hsince.
  { apply since_app. unfold d1. by rewrite Hstep. }
  rewrite attempt_catch_unfold, Hs in Hop1, Hsince. fold s in Hop1, Hsince.
  split; [|split].
  - exists (pair now <$> cancels). split.
    + rewrite Hsince, fmap_app. by destruct (isDeliverable now s).
    + intros x [y [-> Hy]]%list_elem_of_fmap. by rewrite (Hcancels y Hy).
  - rewrite Hop1. by destruct (isDeliverable now s).
  - destruct (isDeliverable now s) eqn:Hdel; simpl in Hop1.
    + split; [unfold phase_of; by rewrite Hop1|]. split.
      { intros evs t eff Hin Heff.
        destruct (waiting_since p (Some (now + getInterval now s)) d1 evs t eff)
          as (due & [= <-] & Hle); try done.
        eexists. split; [exact Hop1|]. right; right. by eexists. }
      intros dt Hdt Hint d2 d3.
      assert (attempt op0 = attempt op) as Hatt.
      { clear -Hop Hfail Hstep. unfold failure in Hfail.
        pose proof (f_equal (λ d', operations d' !! p) Hstep) as Heq.
        simpl in Heq.
        rewrite list_lookup_insert_eq in Heq by (by eapply lookup_lt_Some).
        destruct ev; try done; destruct (phase op) eqn:Hph; try done;
          simpl in Heq.
        - destruct (Nat.eqb_spec p0 p) as [->|]; [|done].
          rewrite (on_operation_lookup_eq _ _ _ _ Hop) in Heq.
          unfold pool_rejected in Heq. rewrite Hph in Heq.
          injection Heq as Heq. apply (f_equal attempt) in Heq.
          revert Heq. rewrite !attempt_catch_unfold.
          by do 2 destruct (isDeliverable _ _).
        - destruct sent; [done|].
          destruct (Nat.eqb_spec p0 p) as [->|]; [|done].
          rewrite (on_operation_lookup_eq _ _ _ _ Hop) in Heq.
          unfold send_rejected in Heq. rewrite Hph in Heq.
          injection Heq as Heq. apply (f_equal attempt) in Heq.
          revert Heq. rewrite !attempt_catch_unfold.
          by do 2 destruct (isDeliverable _ _).
        - destruct (Nat.eqb_spec p0 p) as [->|]; [|done].
          destruct (due <=? clock d) eqn:Hdue; [|done].
          rewrite (on_operation_lookup_eq _ _ _ _ Hop) in Heq.
          unfold attempt_timeout in Heq. rewrite Hph, Hdue in Heq.
          injection Heq as Heq. apply (f_equal attempt) in Heq.
          revert Heq. rewrite !attempt_catch_unfold.
          by do 2 destruct (isDeliverable _ _).
        - destruct (Nat.eqb_spec p0 p) as [->|]; [|done].
          destruct (due <=? clock d) eqn:Hdue; [|done].
          rewrite (on_operation_lookup_eq _ _ _ _ Hop) in Heq.
          unfold attempt_timeout, cancel_legs in Heq. rewrite Hph, Hdue in Heq.
          destruct (attempt_catch (clock d) p TimeoutError (set_resolve Null op))
            as [opc effc] eqn:Hc.
          simpl in Heq. injection Heq as Heq. apply (f_equal attempt) in Heq.
          apply (f_equal (λ x, attempt x.1)) in Hc. simpl in Hc.
          revert Heq Hc. rewrite !attempt_catch_unfold.
          do 2 destruct (isDeliverable _ _); simpl; congruence. }
      assert (clock d2 = now + dt ∧ trace d2 = trace d1 ∧
              operations d2 = operations d1) as (Hc2 & Ht2 & Ho2).
      { unfold d2. simpl. destruct (Z.leb_spec 0 dt); [|lia].
        simpl. by rewrite Hclock. }
      set (op1 := set_phase (AwaitRetry (now + getInterval now s))
                    (set_scheduler s op0)) in *.
      assert (operations d2 !! p = Some op1) as Hop2 by (by rewrite Ho2).
      assert ((now + getInterval now s <=? now + dt) = true) as Hdue
        by (apply Z.leb_le; lia).
      unfold d3. simpl.
      unfold phase_of.
      rewrite (since_app d2 _ _ (on_operation_trace p delay_elapsed d2)).
      rewrite (on_operation_lookup_eq _ _ _ _ Hop2), Hop2, Hc2.
      unfold delay_elapsed, _attemptSend. simpl. rewrite Hdue.
      destruct (isDeliverable (now + dt) s); simpl; [|done].
      by rewrite Hatt.
    + split; [unfold phase_of; by rewrite Hop1|].
      split; [by eapply handlers_run_settles|].
      intros evs t eff Hin.
      destruct (attempt_effect p eff) eqn:Heff; [|done].
      destruct (never_late t).
      eapply (waiting_since p None d1 evs t eff); try done.
      eexists. split; [exact Hop1|]. by left.
Qed.

(** C5.  When [sendMessage] goes past its in-flight test (the id has no
    envelope and is not a member of [Object.prototype]) and the scheduler
    constructed for the message is not deliverable, [sendMessage] returns
    a new promise and records no call but the construction of the
    scheduler; the
    operation is at once rejected with 'No longer deliverable', which is
    what the returned promise settles with when its handlers run; and in
    no continuation is the scheduler told of an attempt, the pool asked
    for a transport or the message handed to one.  The same holds for an
    attempt that would start after a retry delay: when the scheduler is
    not deliverable at that point, the operation is rejected without a
    call. *)
Theorem undeliverable_fails_fast (m : Message) ms options d :
  let o := {| timeout := ms; interval := _advice_retry d;
              attempts := options ≫= opt_attempts |} in
  let p := length (operations d) in
  let d1 := (sendMessage m ms options d).2 in
  _envelopes d !! id m = None → inherited (id m) = false →
  isDeliverable (clock d) (new_Scheduler (clock d) m o) = false →
  (sendMessage m ms options d).1 = Some p ∧
  since d d1 = [(clock d, scheduler_new p o)] ∧
  phase_of p d1 = Some (Settling (Rejected NoLongerDeliverable)) ∧
  phase_of p (handlers_run p d1) = Some (Settled (Rejected NoLongerDeliverable)) ∧
  (∀ evs t e, (t, e) ∈ since d1 (run d1 evs) → attempt_effect p e = false) ∧
  (∀ (d2 : Dispatcher S) q op due,
     operations d2 !! q = Some op → phase op = AwaitRetry due →
     due ≤ clock d2 → isDeliverable (clock d2) (scheduler op) = false →
     let d3 := step d2 (Delay_elapsed q) in
     since d2 d3 = [] ∧
     phase_of q d3 = Some (Settling (Rejected NoLongerDeliverable)) ∧
     ∀ evs t e, (t, e) ∈ since d3 (run d3 evs) → attempt_effect q e = false).
Proof.
  intros o p d1 Hm Hown Hdel.
  assert (∀ (d' : Dispatcher S) q op',
            operations d' !! q = Some op' → finished (phase op') = true →
            ∀ evs t e, (t, e) ∈ since d' (run d' evs) →
                       attempt_effect q e = false) as Hnever.
  { intros d' q op' Hop' Hfin evs t e Hin.
    destruct (attempt_effect q e) eqn:He; [|done].
    destruct (never_late t).
    eapply (waiting_since q None d' evs t e); try done.
    eexists. split; [exact Hop'|]. by left. }
  assert (∃ op1, operations d1 !! p = Some op1 ∧
                 phase op1 = Settling (Rejected NoLongerDeliverable) ∧
                 trace d1 = trace d ++ [(clock d, scheduler_new p o)])
    as (op1 & Hop1 & Hph1 & Htr).
  { unfold d1, p, sendMessage. rewrite Hm, Hown. simpl.
    set (op0 := {| resolve := Undefined; message := m;
                   scheduler := new_Scheduler (clock d) m o;
                   deadline := clock d + deadline_of options;
                   attempt := 0; phase := Starting |}).
    set (d0 := emit _ _).
    assert (operations d0 !! length (operations d) = Some op0) as Hop0.
    { simpl. rewrite lookup_app_r by done. by rewrite Nat.sub_diag. }
    eexists. split; [by apply on_operation_lookup_eq|].
    rewrite on_operation_trace. unfold PromiseRef in *. rewrite Hop0.
    unfold _attemptSend. simpl. fold o. rewrite Hdel. simpl.
    split; [done|]. by rewrite app_nil_r. }
  split; [unfold sendMessage; by rewrite Hm, Hown|].
  split; [by apply since_app|].
  split; [unfold phase_of, PromiseRef in *; rewrite Hop1; simpl; by rewrite Hph1|].
  split; [by eapply handlers_run_settles|].
  split; [eapply Hnever; [exact Hop1|by rewrite Hph1]|].
  intros d2 q op due Hop Hph Hdue Hdel2 d3.
  assert (operations d3 !! q =
            Some (set_phase (Settling (Rejected NoLongerDeliverable)) op) ∧
          trace d3 = trace d2 ++ []) as [Hop3 Htr3].
  { unfold d3. simpl.
    assert (delay_elapsed (clock d2) q op =
              (set_phase (Settling (Rejected NoLongerDeliverable)) op, []))
      as Hdelay.
    { unfold delay_elapsed, _attemptSend. rewrite Hph, Hdel2.
      by destruct (Z.leb_spec due (clock d2)); [|lia]. }
    rewrite (on_operation_lookup_eq _ _ _ _ Hop), on_operation_trace, Hop.
    by rewrite Hdelay. }
  split; [by apply since_app|].
  split; [unfold phase_of; by rewrite Hop3|].
  by eapply Hnever.
Qed.

End RetryLoop.

Section Http.
Context {S : Type}.
Variable JSON_parse : string → option JSON.
Implicit Types (r : Request S) (status : Z).

Lemma downs_signal_down r : downs (signal_down r) = downs r ++ [self r].
Proof. unfold downs. simpl. by rewrite omap_app. Qed.

Lemma settle_dispatcher f r : _dispatcher (settle f r) = _dispatcher r.
Proof. unfold settle. by destruct (future r). Qed.

Lemma settle_self f r : self (settle f r) = self r.
Proof. unfold settle. by destruct (future r). Qed.

Lemma settle_pending f r : future r = pending → future (settle f r) = f.
Proof. unfold settle. by intros ->. Qed.

Lemma settle_settled f r : future r ≠ pending → settle f r = r.
Proof. unfold settle. by destruct (future r). Qed.

Lemma on_response_out_of_range status r :
  ¬ in_range status →
  on_response status r =
    signal_down
      (settle (rejected (TransportError ("HTTP Status " +:+ pretty status))) r).
Proof.
  intros Hout. unfold on_response, in_range in *.
  destruct (Z.leb_spec 200 status), (Z.ltb_spec status 300); simpl;
    try done; lia.
Qed.

Lemma on_response_in_range status r :
  in_range status → on_response status r = listen (settle resolved r).
Proof.
  intros Hin. unfold on_response, in_range in *.
  destruct (Z.leb_spec 200 status), (Z.ltb_spec status 300); simpl;
    try done; lia.
Qed.

(** A settled promise stays as it is. *)
Lemma future_settled r evs :
  future r ≠ pending → future (http_run JSON_parse r evs) = future r.
Proof.
  revert r. induction evs as [|ev evs IH]; intros r Hr; [done|].
  assert (future (http_step JSON_parse r ev) = future r) as Hstep.
  { destruct ev; simpl.
    - unfold on_response.
      destruct ((200 <=? status) && (status <? 300)); simpl;
        by rewrite settle_settled.
    - unfold on_data. by destruct (listening r).
    - unfold on_end. destruct (listening r); [|done].
      destruct (JSON_parse (body r)) as [v|]; [|done]. by destruct (truthy v).
    - unfold on_error. by rewrite settle_settled.
    - unfold on_cancel. destruct (future r) eqn:Hf; simpl; congruence. }
  simpl. rewrite IH; [done|]. by rewrite Hstep.
Qed.

(** Without listeners, nothing is read and nothing is forwarded. *)
Lemma deaf r evs :
  listening r = false → no_response evs →
  let r' := http_run JSON_parse r evs in
  listening r' = false ∧ body r' = body r ∧ received r' = received r.
Proof.
  revert r. induction evs as [|ev evs IH]; intros r Hr Hno; [done|].
  assert (listening (http_step JSON_parse r ev) = false ∧
          body (http_step JSON_parse r ev) = body r ∧
          received (http_step JSON_parse r ev) = received r)
    as (Hl & Hb & Hrec).
  { destruct ev; simpl.
    - destruct (Hno status). apply list_elem_of_here.
    - unfold on_data. by rewrite Hr.
    - unfold on_end. by rewrite Hr.
    - unfold on_error, settle. by destruct (future r).
    - unfold on_cancel. by destruct (future r). }
  simpl. destruct (IH (http_step JSON_parse r ev) Hl) as (? & ? & ?).
  { intros status Hin. apply (Hno status). by apply list_elem_of_further. }
  repeat split; congruence.
Qed.

Lemma body_accumulates r chunks :
  listening r = true →
  let r' := data_all r chunks in
  listening r' = true ∧ future r' = future r ∧ self r' = self r ∧
  _dispatcher r' = _dispatcher r ∧ received r' = received r ∧
  body r' = accumulate (body r) chunks.
Proof.
  revert r. induction chunks as [|chunk chunks IH]; intros r Hr; [done|].
  simpl. assert (on_data chunk r = append_body chunk r) as ->
    by (unfold on_data; by rewrite Hr).
  apply (IH (append_body chunk r) Hr).
Qed.

Lemma on_end_listening r :
  listening r = true →
  on_end JSON_parse r =
    match JSON_parse (body r) with
    | None => signal_down r
    | Some replies =>
        if truthy replies then _receive replies r else signal_down r
    end.
Proof. intros Hr. unfold on_end. by rewrite Hr. Qed.

Lemma truthy_false (v : JSON) :
  truthy v = false ↔
  v = JNull ∨ v = JBool false ∨ v = JNumber 0 ∨ v = JString "".
Proof.
  split.
  - destruct v as [|[]|n|s| |]; simpl; try done; auto.
    + intros Hn%negb_false_iff%Z.eqb_eq. subst. auto.
    + intros Hs%negb_false_iff%String.eqb_eq. subst. auto.
  - by intros [->|[->|[->| ->]]].
Qed.

(** C7.  A response whose status is outside [200, 300), on a request whose
    promise is pending (a response is the first thing that settles it),
    rejects the promise with the TransportError 'HTTP Status <status>' and
    calls [transportDown] of the dispatcher, hence [down] of the pool,
    with the transport itself; the body is not listened to. *)
Theorem bad_status_rejects_and_signals_down status r :
  ¬ in_range status → future r = pending →
  let r' := on_response status r in
  future r' = rejected (TransportError ("HTTP Status " +:+ pretty status)) ∧
  _dispatcher r' = transportDown (self r) (_dispatcher r) ∧
  since (_dispatcher r) (_dispatcher r') =
    [(clock (_dispatcher r), pool_down (self r))] ∧
  downs r' = downs r ++ [self r] ∧
  listening r' = listening r ∧ received r' = received r.
Proof.
  intros Hout Hpend r'. unfold r'. rewrite on_response_out_of_range by done.
  split; [by apply settle_pending|].
  split; [simpl; by rewrite settle_dispatcher, settle_self|].
  split.
  { apply since_app. simpl. by rewrite settle_dispatcher, settle_self. }
  split.
  { rewrite downs_signal_down, settle_self. unfold downs.
    by rewrite settle_dispatcher. }
  unfold settle. by rewrite Hpend.
Qed.

(** C8, as amended.  After a status in [200, 300), once the body has
    arrived: when it does not parse, or parses to a falsy value (which is
    one of null, false, 0 and the empty string), the transport calls
    [transportDown] with itself and forwards nothing; when it parses to a
    truthy value (every array and object is one, the empty ones too) that
    value is forwarded to [_receive] and nothing is signalled.  The
    promise is not touched in either case. *)
Theorem falsy_body_signals_down status chunks r :
  in_range status →
  let r1 := data_all (on_response status r) chunks in
  let r2 := on_end JSON_parse r1 in
  let text := accumulate "" chunks in
  body r1 = text ∧ future r2 = future r1 ∧
  (JSON_parse text = None →
     downs r2 = downs r ++ [self r] ∧ received r2 = received r) ∧
  (∀ v, JSON_parse text = Some v → truthy v = false →
     downs r2 = downs r ++ [self r] ∧ received r2 = received r) ∧
  (∀ v, JSON_parse text = Some v → truthy v = true →
     received r2 = received r ++ [v] ∧ downs r2 = downs r) ∧
  (∀ v, truthy v = false ↔
        v = JNull ∨ v = JBool false ∨ v = JNumber 0 ∨ v = JString "") ∧
  (∀ items, truthy (JArray items) = true) ∧
  (∀ fields, truthy (JObject fields) = true).
Proof.
  intros Hin r1 r2 text.
  assert (listening (on_response status r) = true ∧
          body (on_response status r) = "" ∧
          self (on_response status r) = self r ∧
          _dispatcher (on_response status r) = _dispatcher r ∧
          received (on_response status r) = received r)
    as (Hl & Hb & Hself & Hd & Hrec).
  { rewrite on_response_in_range by done. simpl.
    rewrite settle_self, settle_dispatcher. unfold settle.
    by destruct (future r). }
  destruct (body_accumulates (on_response status r) chunks Hl)
    as (Hl1 & Hf1 & Hself1 & Hd1 & Hrec1 & Hb1).
  fold r1 in Hl1, Hf1, Hself1, Hd1, Hrec1, Hb1.
  rewrite Hb in Hb1. fold text in Hb1.
  assert (downs r1 = downs r) as Hdowns by (unfold downs; congruence).
  split; [done|]. unfold r2. rewrite (on_end_listening r1 Hl1), Hb1.
  split; [|split; [|split; [|split]]].
  - destruct (JSON_parse text) as [v|]; [|done]. by destruct (truthy v).
  - intros ->. rewrite downs_signal_down. simpl. split; congruence.
  - intros v -> ->. rewrite downs_signal_down. simpl. split; congruence.
  - intros v -> ->. simpl. split; [congruence|]. unfold downs in *. simpl.
    congruence.
  - split; [apply truthy_false|done].
Qed.

(** C9, as amended.  A network error on a request whose promise is still
    pending rejects it with the TransportError of the error's message; on
    a request whose promise has settled (after a status in [200, 300), for
    one) it changes nothing.  In neither case is [transportDown] called. *)
Theorem network_error_rejects_pending message r :
  future r = pending →
  let r' := on_error message r in
  future r' = rejected (TransportError message) ∧
  _dispatcher r' = _dispatcher r ∧ downs r' = downs r ∧
  (∀ r0 : Request S, future r0 ≠ pending → on_error message r0 = r0).
Proof.
  intros Hpend r'. unfold r', on_error.
  split; [by apply settle_pending|].
  split; [apply settle_dispatcher|].
  split; [unfold downs; by rewrite settle_dispatcher|].
  intros r0. apply settle_settled.
Qed.

(** C10.  A response with a status in [200, 300) resolves the pending
    promise at once: the body is still empty, nothing has been forwarded
    and nothing signalled.  From then on no event changes the promise:
    whatever the body turns out to be, the promise stays resolved and the
    transport at most signals down.  After a status outside the range no
    listener is installed, so that, with no second response, no event
    reads a body or forwards a reply. *)
Theorem resolves_on_status status r :
  in_range status → future r = pending →
  let r' := on_response status r in
  future r' = resolved ∧ body r' = "" ∧ received r' = received r ∧
  downs r' = downs r ∧
  (∀ evs, future (http_run JSON_parse r' evs) = resolved) ∧
  (∀ chunks,
     let r2 := on_end JSON_parse (data_all r' chunks) in
     future r2 = resolved ∧
     (downs r2 = downs r ∨ downs r2 = downs r ++ [self r])) ∧
  (∀ (r0 : Request S) status0 evs,
     ¬ in_range status0 → listening r0 = false → no_response evs →
     let r1 := http_run JSON_parse (on_response status0 r0) evs in
     listening r1 = false ∧ body r1 = body r0 ∧ received r1 = received r0).
Proof.
  intros Hin Hpend r'.
  assert (future r' = resolved) as Hf.
  { unfold r'. rewrite on_response_in_range by done. simpl.
    by apply settle_pending. }
  assert (listening r' = true ∧ self r' = self r ∧
          _dispatcher r' = _dispatcher r ∧ received r' = received r ∧
          body r' = "") as (Hl & Hself & Hd & Hrec & Hb).
  { unfold r'. rewrite on_response_in_range by done. simpl.
    rewrite settle_self, settle_dispatcher. unfold settle.
    by rewrite Hpend. }
  split; [done|]. split; [done|]. split; [done|].
  split; [unfold downs; by rewrite Hd|].
  split; [intros evs; rewrite future_settled; [done|congruence]|].
  split.
  - intros chunks r2.
    destruct (body_accumulates r' chunks Hl)
      as (Hl1 & Hf1 & Hself1 & Hd1 & Hrec1 & Hb1).
    assert (downs (data_all r' chunks) = downs r) as Hdowns
      by (unfold downs; congruence).
    unfold r2. rewrite (on_end_listening _ Hl1).
    destruct (JSON_parse (body (data_all r' chunks))) as [v|].
    + destruct (truthy v).
      * split; [simpl; congruence|]. left. unfold downs in *. by simpl.
      * split; [simpl; congruence|]. right.
        rewrite downs_signal_down. congruence.
    + split; [simpl; congruence|]. right.
      rewrite downs_signal_down. congruence.
  - intros r0 status0 evs Hout Hl0 Hno r1.
    assert (listening (on_response status0 r0) = false ∧
            body (on_response status0 r0) = body r0 ∧
            received (on_response status0 r0) = received r0)
      as (Hl1 & Hb1 & Hrec1).
    { rewrite on_response_out_of_range by done. simpl. unfold settle.
      by destruct (future r0). }
    destruct (deaf (on_response status0 r0) evs Hl1 Hno)
      as (H1 & H2 & H3).
    unfold r1. rewrite H1, H2, H3. by rewrite Hb1, Hrec1.
Qed.

End Http.

(** * The properties at work on examples *)

(** C1.  [sendMessage] is not idempotent on the id of a message in
    flight.  Message 1 is sent, the dispatcher closed, and message 1 sent
    again: this second call returns promise 1.  The [finally] of promise
    0, which [close] cancelled, runs after that and deletes the envelope
    under id "1", by now the envelope of promise 1.  Promise 1 is still
    pending and its message in flight, yet a further [sendMessage] for
    message 1 constructs another scheduler, starts another attempt and
    returns another promise, 2; both are now pending for the one id.  And
    for a message whose id names a member of [Object.prototype] the very
    first call returns no promise at all, and does nothing. *)
Theorem repeated_send_starts_anew :
  let o := {| timeout := 1000; interval := 100; attempts := None |} in
  let again := sendMessage message_1 1000 None resent_after_close in
  (sendMessage message_1 1000 None
     (run fresh_dispatcher [Call_sendMessage message_1 1000 None; Call_close])).1
    = Some 1%nat ∧
  phase_of 1%nat resent_after_close = Some (AwaitTransport 1000) ∧
  id <$> (message <$> operations resent_after_close !! 1%nat) = Some "1" ∧
  again.1 = Some 2%nat ∧
  (since resent_after_close again.2).*2 =
    [scheduler_new 2%nat o; scheduler_send 2%nat; pool_get 2%nat] ∧
  phase_of 1%nat again.2 = Some (AwaitTransport 1000) ∧
  phase_of 2%nat again.2 = Some (AwaitTransport 1000) ∧
  sendMessage constructor_message 1000 None fresh_dispatcher
    = (None, fresh_dispatcher).
Proof. vm_compute. repeat split; reflexivity. Qed.

(** C2.  An envelope is removed before, and not on, the settlement of its
    operation.  In the state above the envelope of promise 1 has been
    taken out of the map by the [finally] of promise 0, although promise
    1 is pending.  After a further [sendMessage] for message 1 two
    operations are in flight for the one id.  When promise 1 then settles
    (here: the caller cancels it), its [finally] takes out the envelope
    of promise 2, which is pending and from then on without an envelope:
    a reply to message 1 now finds none and is published as ['message'],
    promise 2 is not fulfilled. *)
Theorem envelope_removed_before_settlement :
  let d := (sendMessage message_1 1000 None resent_after_close).2 in
  let d' := run d [Call_cancel 1%nat; Handlers_run 1%nat] in
  let d'' := handleResponse reply_1 d' in
  phase_of 0%nat closed_and_resent = Some (Settling Cancelled) ∧
  _envelopes closed_and_resent !! "1" = Some 1%nat ∧
  phase_of 1%nat resent_after_close = Some (AwaitTransport 1000) ∧
  _envelopes resent_after_close !! "1" = None ∧
  removals resent_after_close = [0%nat; 1%nat] ∧
  _envelopes d !! "1" = Some 2%nat ∧
  phase_of 1%nat d' = Some (Settled Cancelled) ∧
  phase_of 2%nat d' = Some (AwaitTransport 1000) ∧
  _envelopes d' !! "1" = None ∧
  removals d' = [0%nat; 1%nat; 2%nat] ∧
  notifications "message" (since d' d'') = [Some reply_1] ∧
  phase_of 2%nat d'' = Some (AwaitTransport 1000).
Proof. vm_compute. repeat split; reflexivity. Qed.

(** C3.  A reply that carries [successful] and whose id names a member of
    [Object.prototype] is neither passed to a resolver nor published.  No
    envelope exists for the id ["toString"], in a dispatcher that has
    sent nothing; the read [this._envelopes["toString"]] gives the
    inherited function, which is truthy and has no [resolve]: nothing is
    resolved, and the branch that publishes ['message'] is not taken.
    The same reply without [successful] is published. *)
Theorem inherited_id_is_not_republished :
  let d := handleResponse toString_reply fresh_dispatcher in
  let unsolicited := {| id := "toString"; channel := "/chat";
                        successful := None; connectionType := None |} in
  _envelopes fresh_dispatcher = ∅ ∧
  operations fresh_dispatcher = [] ∧
  correlation toString_reply fresh_dispatcher = [] ∧
  (since fresh_dispatcher d).*2 = [trigger "transport:up" None] ∧
  notifications "message" (since fresh_dispatcher d) = [] ∧
  notifications "message"
    (since fresh_dispatcher (handleResponse unsolicited fresh_dispatcher))
    = [Some unsolicited].
Proof. vm_compute. repeat split; reflexivity. Qed.

Lemma retry_after_failure_witness :
  operations sending_1 !! 0%nat = Some first_attempt ∧
  failure no_transport 0%nat first_attempt (clock sending_1)
    = Some (Failure "no transport") ∧
  phase_of 0%nat (step sending_1 no_transport) = Some (AwaitRetry 100) ∧
  (∀ evs t eff,
     (t, eff) ∈ since (step sending_1 no_transport)
                  (run (step sending_1 no_transport) evs) →
     attempt_effect 0%nat eff = true → 100 ≤ t) ∧
  since (run sending_1 [no_transport; Tick 100])
        (run sending_1 [no_transport; Tick 100; Delay_elapsed 0%nat])
    = [(100, scheduler_send 0%nat); (100, pool_get 0%nat)] ∧
  attempt <$>
    operations (run sending_1 [no_transport; Tick 100; Delay_elapsed 0%nat])
      !! 0%nat = Some 2%nat.
Proof.
  assert (operations sending_1 !! 0%nat = Some first_attempt) as Hop
    by (vm_compute; reflexivity).
  assert (failure no_transport 0%nat first_attempt (clock sending_1)
          = Some (Failure "no transport")) as Hfail by (vm_compute; reflexivity).
  split; [exact Hop|]. split; [exact Hfail|].
  destruct (retry_after_failure sending_1 0%nat first_attempt no_transport
              (Failure "no transport") Hop Hfail) as (_ & _ & Hretry).
  destruct Hretry as (Hphase & Hlate & Hnext).
  split; [exact Hphase|]. split; [exact Hlate|].
  assert (0 ≤ 100) as Hdt by lia.
  assert (100 ≤ 100) as Hint by lia.
  destruct (Hnext 100 Hdt Hint) as (Hsince & _ & Hattempt).
  split; [exact Hsince|exact Hattempt].
Defined.

Lemma undeliverable_fails_fast_witness :
  _envelopes fresh_dispatcher !! id message_1 = None ∧
  inherited (id message_1) = false ∧
  isDeliverable (clock fresh_dispatcher)
    (new_Scheduler (clock fresh_dispatcher) message_1
       {| timeout := 1000; interval := 100; attempts := Some 0 |}) = false ∧
  phase_of 0%nat (sendMessage message_1 1000 (Some no_attempts) fresh_dispatcher).2
    = Some (Settling (Rejected NoLongerDeliverable)).
Proof.
  split; [vm_compute; reflexivity|].
  split; [vm_compute; reflexivity|].
  split; [vm_compute; reflexivity|].
  destruct (undeliverable_fails_fast message_1 1000 (Some no_attempts)
              fresh_dispatcher) as (_ & _ & Hphase & _);
    [vm_compute; reflexivity..|].
  exact Hphase.
Defined.

Lemma transport_up_once_witness :
  [reply_1; message_1] ≠ [] ∧ _state sending_1 ≠ UP ∧
  notifications "transport:up"
    (since sending_1 (handle_all sending_1 [reply_1; message_1])) = [None].
Proof.
  split; [done|]. split; [by vm_compute|].
  apply (transport_up_once [reply_1; message_1] sending_1);
    [done|by vm_compute].
Defined.

Lemma bad_status_rejects_and_signals_down_witness :
  ¬ in_range 503 ∧ future first_request = pending ∧
  future (on_response 503 first_request)
    = rejected (TransportError ("HTTP Status " +:+ pretty 503)) ∧
  downs (on_response 503 first_request) = [3%nat].
Proof.
  assert (¬ in_range 503) as Hout by (unfold in_range; lia).
  split; [done|]. split; [reflexivity|].
  destruct (bad_status_rejects_and_signals_down 503 first_request Hout eq_refl)
    as (Hf & _ & _ & Hdowns & _).
  split; [exact Hf|exact Hdowns].
Defined.

Lemma falsy_body_signals_down_witness :
  in_range 200 ∧
  downs (on_end parse_literal
           (data_all (on_response 200 first_request) ["nu"; "ll"])) = [3%nat].
Proof.
  assert (in_range 200) as Hin by (unfold in_range; lia).
  split; [done|].
  destruct (falsy_body_signals_down parse_literal 200 ["nu"; "ll"]
              first_request Hin) as (_ & _ & _ & Hfalsy & _).
  destruct (Hfalsy JNull eq_refl eq_refl) as [Hdowns _]. exact Hdowns.
Defined.

Lemma network_error_rejects_pending_witness :
  future first_request = pending ∧
  future (on_error "socket hang up" first_request)
    = rejected (TransportError "socket hang up").
Proof.
  split; [reflexivity|].
  apply (network_error_rejects_pending "socket hang up" first_request eq_refl).
Defined.

Lemma resolves_on_status_witness :
  in_range 204 ∧ future first_request = pending ∧
  future (on_response 204 first_request) = resolved.
Proof.
  assert (in_range 204) as Hin by (unfold in_range; lia).
  split; [done|]. split; [reflexivity|].
  apply (resolves_on_status parse_literal 204 first_request Hin eq_refl).
Defined.

(** C8, as stated, fails: a body that is the empty array is an empty value,
    yet it is forwarded to [_receive] and nothing is signalled. *)
Lemma empty_array_is_forwarded :
  let r := data_all (on_response 200 first_request) ["[]"] in
  parse_literal (body r) = Some (JArray []) ∧
  is_empty (JArray []) = true ∧
  received (on_end parse_literal r) = [JArray []] ∧
  downs (on_end parse_literal r) = [] ∧
  downs (on_end parse_literal r) ≠ downs first_request ++ [self first_request].
Proof. vm_compute. repeat split; done. Qed.

(** C9, as stated, fails: a network error that follows a status in
    [200, 300) finds the promise resolved and does not reject it. *)
Lemma network_error_after_status_is_not_rejected :
  let r := on_response 200 first_request in
  future (on_error "socket hang up" r) = resolved ∧
  ∀ e, future (on_error "socket hang up" r) ≠ rejected e.
Proof. vm_compute. split; done. Qed.

(** The transport fails the first two attempts of a connect message and
    delivers the third: the promise is fulfilled with the reply to the
    third attempt, the scheduler's [fail] was called twice, and the message
    was stamped with the connection type of the transport. *)
Example third_attempt_succeeds :
  let connect := {| id := "1"; channel := CONNECT; successful := None;
                    connectionType := None |} in
  let stamped := {| id := "1"; channel := CONNECT; successful := None;
                    connectionType := Some "websocket" |} in
  let ws := {| tref := 7%nat; transport_connectionType := "websocket" |} in
  let d := run fresh_dispatcher
             [Call_sendMessage connect 1000 None;
              Pool_resolved 0%nat ws; Send_rejected 0%nat (Failure "reset");
              Tick 100; Delay_elapsed 0%nat;
              Pool_resolved 0%nat ws; Send_rejected 0%nat (Failure "reset");
              Tick 100; Delay_elapsed 0%nat;
              Pool_resolved 0%nat ws; Send_resolved 0%nat;
              Call_handleResponse reply_1; Handlers_run 0%nat] in
  phase_of 0%nat d = Some (Settled (Fulfilled reply_1)) ∧
  failures_told 0%nat (trace d) = 2%nat ∧
  message <$> operations d !! 0%nat = Some stamped ∧
  _envelopes d = ∅.
Proof. vm_compute. repeat split; reflexivity. Qed.

(** [close] swaps the map and cancels; the [finally] of a cancelled
    operation runs later and deletes by id.  A message sent again under
    the same id in between loses its envelope to that [finally] while its
    own operation is still pending. *)
Example stale_finally_takes_newer_envelope :
  let d := run fresh_dispatcher
             [Call_sendMessage message_1 1000 None; Call_close;
              Call_sendMessage message_1 1000 None; Handlers_run 0%nat] in
  phase_of 0%nat d = Some (Settled Cancelled) ∧
  phase_of 1%nat d = Some (AwaitTransport 1000) ∧
  _envelopes d !! "1" = None ∧
  removals d = [0%nat; 1%nat].
Proof. vm_compute. repeat split; reflexivity. Qed.

(** * Further properties *)

(** ** The process-wide events *)

Lemma change_listener_published status g :
  published (change_listener status g) = published g ∧
  sleepLast (change_listener status g) = sleepLast g ∧
  change_listener_installed (change_listener status g)
    = change_listener_installed g.
Proof. done. Qed.

Lemma sleep_timer_published now g :
  published (sleep_timer now g) =
    published g ++
    (if sleepLast g - now >? SLEEP_TIMER_INTERVAL * 2 then [("sleep", None)]
     else []) ∧
  sleepLast (sleep_timer now g) = now.
Proof.
  unfold sleep_timer.
  destruct (sleepLast g - now >? SLEEP_TIMER_INTERVAL * 2); simpl; [done|].
  by rewrite app_nil_r.
Qed.

Lemma global_step_published g ev :
  ∃ new, published (global_step g ev) = published g ++ new ∧
         (∀ x, x ∈ new → x = ("sleep", None)) ∧
         (new = [] ↔ steady (sleepLast g) [ev]) ∧
         (∀ evs, steady (sleepLast g) (ev :: evs) ↔
                 steady (sleepLast g) [ev] ∧
                 steady (sleepLast (global_step g ev)) evs).
Proof.
  destruct ev as [status|now].
  - simpl. exists []. rewrite app_nil_r.
    assert (published (if change_listener_installed g
                       then change_listener status g else g) = published g ∧
            sleepLast (if change_listener_installed g
                       then change_listener status g else g) = sleepLast g)
      as [-> ->] by by destruct (change_listener_installed g).
    split; [done|]. split; [by intros x ?%elem_of_nil|]. split; [done|].
    intros evs. tauto.
  - change (global_step g (Interval_elapsed now)) with (sleep_timer now g).
    destruct (sleep_timer_published now g) as [-> ->].
    eexists. split; [reflexivity|]. simpl. rewrite Z.gtb_ltb.
    destruct (Z.ltb_spec (SLEEP_TIMER_INTERVAL * 2) (sleepLast g - now)).
    + split; [by intros x ->%list_elem_of_singleton|].
      split; [|intros evs; tauto]. split; [done|]. intros [? _]. lia.
    + split; [by intros x ?%elem_of_nil|].
      split; [|intros evs; tauto]. split; [|done]. intros _. split; [lia|done].
Qed.

Lemma global_run_published evs g :
  ∃ new, published (global_run g evs) = published g ++ new ∧
         (∀ x, x ∈ new → x = ("sleep", None)) ∧
         (new = [] ↔ steady (sleepLast g) evs).
Proof.
  revert g. induction evs as [|ev evs IH]; intros g.
  - exists []. simpl. rewrite app_nil_r.
    split; [done|]. split; [by intros x ?%elem_of_nil|done].
  - destruct (global_step_published g ev)
      as (new1 & Heq1 & Hall1 & Hnil1 & Hsplit).
    destruct (IH (global_step g ev)) as (new2 & Heq2 & Hall2 & Hnil2).
    exists (new1 ++ new2). simpl. rewrite Heq2, Heq1, <- app_assoc.
    split; [done|]. split.
    + intros x [?|?]%elem_of_app; auto.
    + rewrite (Hsplit evs), <- Hnil1, <- Hnil2. split.
      * by intros [-> ->]%app_eq_nil.
      * by intros [-> ->].
Qed.

(** X1.  Whether or not the change listener is installed, and whatever the
    status changes and the readings of the clock, the only event that
    [globalEvents] ever publishes is ['sleep']: a change of the network
    status is logged but publishes nothing (the handler that [fire] builds
    is never called), and ['beforeunload'] is never published. *)
Theorem globalEvents_publishes_only_sleep window now evs :
  Forall (λ x, x = ("sleep", None))
    (published (global_run (load_globalEvents window now) evs)).
Proof.
  destruct (global_run_published evs (load_globalEvents window now))
    as (new & -> & Hall & _).
  assert (published (load_globalEvents window now) = []) as ->
    by by destruct window.
  by apply Forall_forall.
Qed.

(** X2.  ['sleep'] is published when a reading of the clock is more than
    twice the interval behind the reading before it, and only then: nothing
    at all is published exactly when no reading goes back that far.  A
    reading that is ahead of the one before it, by however much, publishes
    nothing. *)
Theorem sleep_only_when_clock_goes_back window now evs :
  published (global_run (load_globalEvents window now) evs) = [] ↔
  steady now evs.
Proof.
  destruct (global_run_published evs (load_globalEvents window now))
    as (new & -> & _ & Hnil).
  assert (published (load_globalEvents window now) = [] ∧
          sleepLast (load_globalEvents window now) = now) as [-> Hlast]
    by by destruct window.
  by rewrite Hlast in Hnil.
Qed.

(** The process sleeps for an hour between two timer callbacks, the
    network status changes: nothing is published. *)
Example an_hour_asleep :
  global_run (load_globalEvents true 0)
    [Interval_elapsed 30000; NetInfo_change false; Interval_elapsed 3630000;
     NetInfo_change true] =
  {| published := []; console := [false; true];
     change_listener_installed := true; sleepLast := 3630000 |}.
Proof. reflexivity. Qed.

(** ** The endpoint of the HTTP transport *)

Lemma truthy_part s :
  truthy (part s) = true ↔ ∃ h, s = Some h ∧ h ≠ "".
Proof.
  destruct s as [h|]; simpl.
  - destruct (String.eqb_spec h "") as [->|Hh]; simpl.
    + split; [done|]. by intros (? & [= <-] & ?).
    + split; [eauto|done].
  - split; [done|]. by intros (? & ? & _).
Qed.

Lemma isUsable_cases endpoint :
  (protocol endpoint = "http:" ∨ protocol endpoint = "https:") ∧
  isUsable endpoint =
    (if truthy (part (host endpoint)) then part (path endpoint)
     else part (host endpoint)) ∨
  protocol endpoint ≠ "http:" ∧ protocol endpoint ≠ "https:" ∧
  isUsable endpoint = JBool false.
Proof.
  unfold isUsable.
  destruct (String.eqb_spec (protocol endpoint) "http:");
    destruct (String.eqb_spec (protocol endpoint) "https:"); simpl; auto.
Qed.

(** X3.  [isUsable] gives a truthy value exactly for an endpoint whose
    protocol is 'http:' or 'https:' and whose host and path are present and
    not empty, and the value is then the path, not [true]; for such an
    endpoint the client the constructor picks is the one of the protocol.
    For any other protocol the constructor picks the plain [http] client. *)
Theorem isUsable_and_client endpoint :
  (truthy (isUsable endpoint) = true ↔
     (protocol endpoint = "http:" ∨ protocol endpoint = "https:") ∧
     (∃ h, host endpoint = Some h ∧ h ≠ "") ∧
     (∃ p, path endpoint = Some p ∧ p ≠ "")) ∧
  (truthy (isUsable endpoint) = true → isUsable endpoint = part (path endpoint)) ∧
  (truthy (isUsable endpoint) = true →
     (_httpClient endpoint = https ↔ protocol endpoint = "https:") ∧
     (_httpClient endpoint = http ↔ protocol endpoint = "http:")) ∧
  (protocol endpoint ≠ "https:" → _httpClient endpoint = http).
Proof.
  assert (truthy (isUsable endpoint) = true →
          (protocol endpoint = "http:" ∨ protocol endpoint = "https:") ∧
          truthy (part (host endpoint)) = true ∧
          isUsable endpoint = part (path endpoint)) as Husable.
  { destruct (isUsable_cases endpoint) as [[Hp ->]|(_ & _ & ->)]; [|done].
    destruct (truthy (part (host endpoint))) eqn:Hh; [done|]. congruence. }
  assert (_httpClient endpoint = https ↔ protocol endpoint = "https:") as Hs.
  { unfold _httpClient.
    by destruct (String.eqb_spec (protocol endpoint) "https:"). }
  split; [|split; [|split]].
  - rewrite <- !truthy_part. split.
    + intros Ht. destruct (Husable Ht) as (? & ? & Heq). by rewrite <- Heq.
    + intros (Hp & Hh & Hq).
      destruct (isUsable_cases endpoint) as [[_ ->]|(? & ? & _)];
        [by rewrite Hh|by destruct Hp].
  - intros Ht. by destruct (Husable Ht) as (_ & _ & ?).
  - intros Ht. split; [done|]. destruct (Husable Ht) as (Hp & _).
    clear Hs Husable. unfold _httpClient.
    destruct (String.eqb_spec (protocol endpoint) "https:") as [Heq|Hne].
    + split; [done|]. intros Heq'. rewrite Heq in Heq'. discriminate Heq'.
    + split; [|done]. intros _. by destruct Hp.
  - intros Hne. unfold _httpClient.
    by destruct (String.eqb_spec (protocol endpoint) "https:").
Qed.

(** ** Runs of a request *)

Lemma append_empty_r (s : string) : s +:+ "" = s.
Proof.
  induction s as [|a s IH]; [done|].
  change (String a (s +:+ "") = String a s). by rewrite IH.
Qed.

Lemma append_assoc (s1 s2 s3 : string) : (s1 +:+ s2) +:+ s3 = s1 +:+ s2 +:+ s3.
Proof.
  induction s1 as [|a s1 IH]; [done|].
  change (String a ((s1 +:+ s2) +:+ s3) = String a (s1 +:+ s2 +:+ s3)).
  by rewrite IH.
Qed.

Lemma accumulate_whole (b : string) chunks :
  accumulate b chunks = b +:+ whole chunks.
Proof.
  revert b. induction chunks as [|chunk chunks IH]; intros b.
  - symmetry. apply append_empty_r.
  - change (accumulate b (chunk :: chunks))
      with (accumulate (b +:+ chunk) chunks).
    rewrite IH. apply append_assoc.
Qed.

Section HttpRuns.
Context {S : Type}.
Variable JSON_parse : string → option JSON.
Implicit Types (r : Request S) (evs : list HttpEvent).

Lemma http_run_app r evs evs' :
  http_run JSON_parse r (evs ++ evs') =
    http_run JSON_parse (http_run JSON_parse r evs) evs'.
Proof. apply foldl_app. Qed.

Lemma aborted_iff_cancelled_step r ev :
  (aborted r = true ↔ future r = cancelled) →
  aborted (http_step JSON_parse r ev) = true ↔
  future (http_step JSON_parse r ev) = cancelled.
Proof.
  intros Hr. destruct ev; simpl.
  - unfold on_response, settle.
    destruct ((200 <=? status) && (status <? 300));
      destruct (future r) eqn:Hf; simpl; rewrite ?Hf; try done;
      split; try done; intros Ha; apply Hr in Ha; done.
  - unfold on_data. destruct (listening r); [|done]. done.
  - unfold on_end. destruct (listening r); [|done].
    destruct (JSON_parse (body r)) as [v|]; [|done]. by destruct (truthy v).
  - unfold on_error, settle. destruct (future r) eqn:Hf; simpl; rewrite ?Hf;
      try done. split; [|done]. intros Ha. apply Hr in Ha. done.
  - unfold on_cancel. destruct (future r) eqn:Hf; simpl; rewrite ?Hf; done.
Qed.

(** X4.  In every run of a request: the underlying request has been
    aborted exactly when the promise is cancelled, so a cancellation that
    comes after the promise has settled (after a status in [200, 300), for
    one) aborts nothing; and once the promise has settled, no later event
    changes it. *)
Theorem request_settles_once transport (d : Dispatcher S) evs :
  let r := http_run JSON_parse (request transport d) evs in
  (aborted r = true ↔ future r = cancelled) ∧
  (future r ≠ pending →
   ∀ evs', future (http_run JSON_parse r evs') = future r ∧
           aborted (http_run JSON_parse r evs') = aborted r).
Proof.
  assert (∀ r evs, (aborted r = true ↔ future r = cancelled) →
            aborted (http_run JSON_parse r evs) = true ↔
            future (http_run JSON_parse r evs) = cancelled) as Hrun.
  { intros r evs0. revert r.
    induction evs0 as [|ev evs0 IH]; intros r Hr; [done|].
    simpl. apply IH. by apply aborted_iff_cancelled_step. }
  intros r.
  assert (aborted r = true ↔ future r = cancelled) as Hr
    by (apply Hrun; simpl; done).
  split; [done|]. intros Hsettled evs'.
  pose proof (future_settled JSON_parse r evs' Hsettled) as Hf.
  split; [done|].
  pose proof (Hrun r evs' Hr) as Hr'. rewrite Hf in Hr'.
  destruct (aborted (http_run JSON_parse r evs')), (aborted r); try done.
  - symmetry. apply Hr, Hr'. done.
  - apply Hr', Hr. done.
Qed.

(** X5.  As long as no response has arrived, whatever else happens to the
    request (socket errors, cancellation, stray body events): the
    dispatcher is not called, nothing is forwarded to [_receive], no body
    is read, and the promise is not resolved. *)
Theorem nothing_without_response transport (d : Dispatcher S) evs :
  no_response evs →
  let r := http_run JSON_parse (request transport d) evs in
  _dispatcher r = d ∧ received r = [] ∧ body r = "" ∧ future r ≠ resolved.
Proof.
  intros Hno r.
  assert (∀ r0 evs0, no_response evs0 → listening r0 = false →
            _dispatcher (http_run JSON_parse r0 evs0) = _dispatcher r0 ∧
            (future r0 ≠ resolved →
             future (http_run JSON_parse r0 evs0) ≠ resolved)) as Hrun.
  { intros r0 evs0. revert r0.
    induction evs0 as [|ev evs0 IH]; intros r0 Hno0 Hl; [done|].
    assert (no_response evs0) as Hno1.
    { intros status Hin. apply (Hno0 status). by apply list_elem_of_further. }
    assert (listening (http_step JSON_parse r0 ev) = false ∧
            _dispatcher (http_step JSON_parse r0 ev) = _dispatcher r0 ∧
            (future r0 ≠ resolved →
             future (http_step JSON_parse r0 ev) ≠ resolved))
      as (Hl1 & Hd1 & Hf1).
    { destruct ev; simpl.
      - destruct (Hno0 status). apply list_elem_of_here.
      - unfold on_data. by rewrite Hl.
      - unfold on_end. by rewrite Hl.
      - unfold on_error, settle.
        destruct (future r0) eqn:Hf0; simpl; rewrite ?Hf0; by repeat split.
      - unfold on_cancel.
        destruct (future r0) eqn:Hf0; simpl; rewrite ?Hf0; by repeat split. }
    simpl. destruct (IH _ Hno1 Hl1) as [-> Hf]. split; [done|]. auto. }
  destruct (Hrun (request transport d) evs Hno eq_refl) as [Hd Hf].
  destruct (deaf JSON_parse (request transport d) evs eq_refl Hno)
    as (_ & Hb & Hrec).
  repeat split; try done. by apply Hf.
Qed.

(** X6.  How the body is cut into chunks does not matter: two series of
    chunks that make up the same text leave the request, when the body
    ends, in the same state, and what is parsed is that text. *)
Theorem chunking_does_not_matter r chunks chunks' :
  listening r = true → whole chunks = whole chunks' →
  on_end JSON_parse (data_all r chunks) = on_end JSON_parse (data_all r chunks') ∧
  body (data_all r chunks) = body r +:+ whole chunks.
Proof.
  intros Hl Heq.
  assert (∀ cs, data_all r cs = append_body (whole cs) r) as Hall.
  { intros cs. revert r Hl. induction cs as [|c cs IH]; intros r Hl; simpl.
    - unfold append_body. rewrite append_empty_r. by destruct r.
    - assert (on_data c r = append_body c r) as ->
        by (unfold on_data; by rewrite Hl).
      rewrite (IH (append_body c r) Hl). unfold append_body. simpl.
      by rewrite append_assoc. }
  rewrite !Hall, Heq. done.
Qed.

End HttpRuns.

(** ** The life of an operation *)

Ltac follows_tac :=
  intros ? ? ?; unfold_callbacks; crush_op;
  (split; simpl;
   repeat match goal with
     | H : phase _ = _ |- _ => rewrite H
     | H : String.eqb _ _ = true |- _ => apply String.eqb_eq in H
     end;
   try done; try lia; try (intros; done); try (intros; congruence)).

Section Life.
Context {S : Type} `{!Scheduler S}.
Implicit Types (op : Operation S) (d : Dispatcher S) (p q : PromiseRef).
Implicit Types (now : Z).

Lemma follows_refl op : follows op op.
Proof. by split. Qed.

Lemma follows_trans op1 op2 op3 :
  follows op1 op2 → follows op2 op3 → follows op1 op3.
Proof.
  intros [Hi1 Hc1 Hs1 Hd1 Ha1 Hu1 Hp1 Hf1] [Hi2 Hc2 Hs2 Hd2 Ha2 Hu2 Hp2 Hf2].
  split; try congruence; try lia.
  - intros Hne. rewrite Hu2; [auto|congruence].
  - eauto.
  - intros Hfin. destruct (Hf1 Hfin) as (Hfin2 & ? & ?).
    destruct (Hf2 Hfin2) as (? & ? & ?).
    repeat split; congruence.
Qed.

Lemma follows_cancel now p op : follows op (cancel p op).1.
Proof. revert now p op. follows_tac. Qed.

Lemma follows_pool_resolved t now p op : follows op (pool_resolved now p t op).1.
Proof. revert now p op. follows_tac. Qed.

Lemma follows_pool_rejected e now p op : follows op (pool_rejected now p e op).1.
Proof. revert now p op. follows_tac. Qed.

Lemma follows_send_resolved now p op : follows op (send_resolved op).1.
Proof. revert now p op. follows_tac. Qed.

Lemma follows_send_rejected e now p op : follows op (send_rejected now p e op).1.
Proof. revert now p op. follows_tac. Qed.

Lemma follows_attempt_timeout now p op : follows op (attempt_timeout now p op).1.
Proof. revert now p op. follows_tac. Qed.

Lemma follows_delay_elapsed now p op : follows op (delay_elapsed now p op).1.
Proof. revert now p op. follows_tac. Qed.

Lemma follows_deadline_timeout now p op :
  follows op (deadline_timeout now p op).1.
Proof. revert now p op. follows_tac. Qed.

Lemma follows_call_resolver k reply now p op :
  follows op (call_resolver p k reply op).1.
Proof. revert now p op. follows_tac. Qed.

End Life.

Section LifeRuns.
Context {S : Type} `{!Scheduler S}.
Implicit Types (op : Operation S) (d : Dispatcher S) (p q : PromiseRef).
Implicit Types (now : Z).

Lemma follows_on_operation q f d p op :
  (∀ now op, follows op (f now q op).1) →
  operations d !! p = Some op →
  ∃ op', operations (on_operation q f d) !! p = Some op' ∧ follows op op'.
Proof.
  intros Hf Hop. destruct (decide (p = q)) as [->|Hne].
  - eexists. split; [by apply on_operation_lookup_eq|]. apply Hf.
  - exists op. rewrite on_operation_lookup_ne by done.
    split; [done|apply follows_refl].
Qed.

Lemma follows_settle now p o op :
  phase op = Settling o →
  follows op (set_phase (Settled o) (then_catch now p o op).1).
Proof.
  intros Hph. destruct o; split; simpl; rewrite ?Hph; try done; intros; done.
Qed.

Lemma follows_handlers_run q d p op :
  operations d !! p = Some op →
  ∃ op', operations (handlers_run q d) !! p = Some op' ∧ follows op op'.
Proof.
  intros Hop. unfold handlers_run.
  destruct (operations d !! q) as [opq|] eqn:Hq;
    [|exists op; split; [done|apply follows_refl]].
  destruct (phase opq) as [| | | |o|] eqn:Hph;
    try (exists op; split; [done|apply follows_refl]).
  pose proof (follows_settle (clock d) q o opq Hph) as Hfollows.
  destruct (then_catch (clock d) q o opq) as [op1 effects]. simpl in Hfollows.
  destruct (delete_envelope_frame (id (message op1)) (emit effects d))
    as (_ & Ho & _).
  simpl. rewrite Ho. simpl. destruct (decide (p = q)) as [->|Hne].
  - eexists. split.
    + apply list_lookup_insert_eq. by eapply lookup_lt_Some.
    + by replace op with opq by congruence.
  - exists op. rewrite list_lookup_insert_ne by done.
    split; [done|apply follows_refl].
Qed.

Lemma follows_cancel_all (envelopes : list (string * PromiseRef)) d p op :
  operations d !! p = Some op →
  ∃ op', operations
           (foldl (λ d envelope, on_operation envelope.2 (λ _, cancel) d)
              d envelopes) !! p = Some op' ∧
         follows op op'.
Proof.
  revert d op. induction envelopes as [|e es IH]; intros d op Hop.
  - exists op. split; [done|apply follows_refl].
  - simpl.
    destruct (follows_on_operation e.2 (λ _, cancel) d p op) as (op1 & Hop1 & H1);
      [intros; apply (follows_cancel 0)|done|].
    destruct (IH _ _ Hop1) as (op2 & Hop2 & H2).
    exists op2. split; [done|]. by eapply follows_trans.
Qed.

Lemma follows_handleResponse reply d p op :
  operations d !! p = Some op →
  ∃ op', operations (handleResponse reply d) !! p = Some op' ∧ follows op op'.
Proof.
  intros Hop. rewrite handleResponse_operations.
  destruct (successful reply); [|exists op; split; [done|apply follows_refl]].
  destruct (_envelopes d !! id reply) as [q|];
    [|exists op; split; [done|apply follows_refl]].
  destruct (resolve <$> operations d !! q) as [[| |k]|];
    try (exists op; split; [done|apply follows_refl]).
  apply follows_on_operation; [|done].
  intros. apply (follows_call_resolver k reply 0).
Qed.

Lemma follows_step d ev p op :
  operations d !! p = Some op →
  ∃ op', operations (step d ev) !! p = Some op' ∧ follows op op'.
Proof.
  intros Hop.
  assert (∃ op', operations d !! p = Some op' ∧ follows op op') as Hsame
    by (exists op; split; [done|apply follows_refl]).
  destruct ev; simpl; try done.
  - by destruct (0 <=? dt).
  - unfold sendMessage. destruct (_envelopes d !! id m); [done|].
    destruct (inherited (id m)); [done|]. simpl.
    destruct (decide (p = length (operations d))) as [->|Hne].
    + apply lookup_lt_Some in Hop. lia.
    + exists op. rewrite on_operation_lookup_ne by done. simpl.
      split; [by apply lookup_app_l_Some|apply follows_refl].
  - by apply follows_handleResponse.
  - by apply follows_cancel_all.
  - by apply follows_cancel_all.
  - by apply follows_cancel_all.
  - apply follows_on_operation; [|done]. intros. apply (follows_cancel 0).
  - apply follows_on_operation; [|done]. intros. apply follows_pool_resolved.
  - apply follows_on_operation; [|done]. intros. apply follows_pool_rejected.
  - apply follows_on_operation; [|done]. intros. apply (follows_send_resolved 0 0%nat).
  - apply follows_on_operation; [|done]. intros. apply follows_send_rejected.
  - apply follows_on_operation; [|done]. intros. apply follows_attempt_timeout.
  - apply follows_on_operation; [|done]. intros. apply follows_delay_elapsed.
  - apply follows_on_operation; [|done]. intros. apply follows_deadline_timeout.
  - by apply follows_handlers_run.
Qed.

Lemma follows_run evs d p op :
  operations d !! p = Some op →
  ∃ op', operations (run d evs) !! p = Some op' ∧ follows op op'.
Proof.
  revert d op. induction evs as [|ev evs IH]; intros d op Hop.
  - exists op. split; [done|apply follows_refl].
  - destruct (follows_step d ev p op Hop) as (op1 & Hop1 & H1).
    destruct (IH _ _ Hop1) as (op2 & Hop2 & H2).
    exists op2. split; [done|]. by eapply follows_trans.
Qed.

(** X7.  A promise that has settled stays settled with the same outcome
    whatever happens next, and once the attempt chain of an operation has
    ended (the promise is about to settle or has settled) no further
    attempt is entered and the message is not touched again. *)
Theorem settled_for_ever d p op evs :
  operations d !! p = Some op →
  ∃ op', operations (run d evs) !! p = Some op' ∧
    (∀ o, phase op = Settled o → phase op' = Settled o) ∧
    (finished (phase op) = true →
     finished (phase op') = true ∧ attempt op' = attempt op ∧
     message op' = message op).
Proof.
  intros Hop. destruct (follows_run evs d p op Hop) as (op' & Hop' & Hf).
  exists op'. split; [done|]. split; [apply Hf|apply Hf].
Qed.

(** X8.  Whatever happens to an operation, its message keeps its id, its
    channel and its [successful] field, its overall deadline stays where
    [sendMessage] put it, and the number of attempts never goes down.  A
    message that is not on the connect channel is never modified; one that
    is differs from the original in [connectionType] at most. *)
Theorem message_identity d p op evs :
  operations d !! p = Some op →
  ∃ op', operations (run d evs) !! p = Some op' ∧
    id (message op') = id (message op) ∧
    channel (message op') = channel (message op) ∧
    successful (message op') = successful (message op) ∧
    deadline op' = deadline op ∧
    (attempt op ≤ attempt op')%nat ∧
    (channel (message op) ≠ CONNECT → message op' = message op).
Proof.
  intros Hop. destruct (follows_run evs d p op Hop) as (op' & Hop' & Hf).
  exists op'. split; [done|]. repeat split; apply Hf.
Qed.

End LifeRuns.

(** ** The connectivity state *)

Ltac mute_tac :=
  intros ? ? ?; unfold silent; unfold_callbacks; crush_op;
  intros ? Hin; set_unfold; destruct_or?; subst; done.

Section Connectivity.
Context {S : Type} `{!Scheduler S}.
Implicit Types (op : Operation S) (d : Dispatcher S) (p q : PromiseRef).

Lemma mute_attemptSend : mute (S:=S) _attemptSend.
Proof. mute_tac. Qed.

Lemma mute_cancel : mute (S:=S) (λ _, cancel).
Proof. mute_tac. Qed.

Lemma mute_pool_resolved t : mute (S:=S) (λ now p, pool_resolved now p t).
Proof. mute_tac. Qed.

Lemma mute_pool_rejected e : mute (S:=S) (λ now p, pool_rejected now p e).
Proof. mute_tac. Qed.

Lemma mute_send_resolved : mute (S:=S) (λ _ _, send_resolved).
Proof. mute_tac. Qed.

Lemma mute_send_rejected e : mute (S:=S) (λ now p, send_rejected now p e).
Proof. mute_tac. Qed.

Lemma mute_attempt_timeout : mute (S:=S) attempt_timeout.
Proof. mute_tac. Qed.

Lemma mute_delay_elapsed : mute (S:=S) delay_elapsed.
Proof. mute_tac. Qed.

Lemma mute_deadline_timeout : mute (S:=S) deadline_timeout.
Proof. mute_tac. Qed.

Lemma silent_notifications now name effects :
  silent effects → notifications name (pair now <$> effects) = [].
Proof.
  intros Hs. induction effects as [|e effects IH]; [done|].
  assert (silent effects) as Hs'
    by (intros x Hx; apply Hs; by apply list_elem_of_further).
  unfold notifications in *. simpl.
  destruct e; try (by apply IH).
  by destruct (Hs (trigger name0 arg) (list_elem_of_here _ _) name0 arg).
Qed.

Lemma quietly_refl d : quietly d d.
Proof. split; [done|]. exists []. by rewrite app_nil_r. Qed.

Lemma quietly_trans d1 d2 d3 : quietly d1 d2 → quietly d2 d3 → quietly d1 d3.
Proof.
  intros [Hs1 (new1 & Ht1 & Hn1)] [Hs2 (new2 & Ht2 & Hn2)].
  split; [congruence|]. exists (new1 ++ new2).
  split; [by rewrite Ht2, Ht1, app_assoc|].
  intros name. by rewrite notifications_app, Hn1, Hn2.
Qed.

Lemma quietly_emit effects d : silent effects → quietly d (emit effects d).
Proof.
  intros Hs. split; [done|]. eexists. split; [done|].
  intros name. by apply silent_notifications.
Qed.

Lemma quietly_frame d d' :
  _state d' = _state d → trace d' = trace d → quietly d d'.
Proof. intros Hs Ht. split; [done|]. exists []. by rewrite app_nil_r. Qed.

Lemma quietly_on_operation q f d :
  mute f → quietly d (on_operation q f d).
Proof.
  intros Hf. split; [apply on_operation_state|].
  eexists. split; [apply on_operation_trace|].
  intros name. destruct (operations d !! q) as [op|]; [|done].
  apply silent_notifications, Hf.
Qed.

Lemma quietly_cancel_all (envelopes : list (string * PromiseRef)) d :
  quietly d (foldl (λ d envelope, on_operation envelope.2 (λ _, cancel) d)
               d envelopes).
Proof.
  revert d. induction envelopes as [|e es IH]; intros d; [apply quietly_refl|].
  simpl. eapply quietly_trans; [|apply IH].
  apply quietly_on_operation, mute_cancel.
Qed.

Lemma quietly_cancelPending d : quietly d (_cancelPending d).
Proof.
  unfold _cancelPending. eapply quietly_trans; [|apply quietly_cancel_all].
  by apply quietly_frame.
Qed.

Lemma silent_singleton e :
  (∀ name arg, e ≠ trigger name arg) → silent [e].
Proof. by intros He x ->%list_elem_of_singleton. Qed.

(** Nothing but [handleResponse] touches the connectivity state or
    publishes. *)
Lemma quietly_step d ev :
  (∀ reply, ev ≠ Call_handleResponse reply) → quietly d (step d ev).
Proof.
  intros Hev. destruct ev; simpl.
  - destruct (0 <=? dt); [by apply quietly_frame|apply quietly_refl].
  - unfold sendMessage. destruct (_envelopes d !! id m); [apply quietly_refl|].
    destruct (inherited (id m)); [apply quietly_refl|].
    simpl. eapply quietly_trans; [|apply quietly_on_operation, mute_attemptSend].
    eapply quietly_trans; [|by apply quietly_emit, silent_singleton].
    by apply quietly_frame.
  - by destruct (Hev reply).
  - by apply quietly_emit, silent_singleton.
  - apply quietly_cancelPending.
  - by apply quietly_emit, silent_singleton.
  - eapply quietly_trans; [apply quietly_cancelPending|].
    by apply quietly_emit, silent_singleton.
  - unfold destroy, close, disconnecting.
    eapply quietly_trans; [|by apply quietly_emit, silent_singleton].
    eapply quietly_trans; [|apply quietly_cancelPending].
    eapply quietly_trans; [|by apply quietly_emit, silent_singleton].
    by apply quietly_emit, silent_singleton.
  - apply quietly_on_operation, mute_cancel.
  - apply quietly_on_operation, mute_pool_resolved.
  - apply quietly_on_operation, mute_pool_rejected.
  - apply quietly_on_operation, mute_send_resolved.
  - apply quietly_on_operation, mute_send_rejected.
  - apply quietly_on_operation, mute_attempt_timeout.
  - apply quietly_on_operation, mute_delay_elapsed.
  - apply quietly_on_operation, mute_deadline_timeout.
  - unfold handlers_run. destruct (operations d !! p) as [op|]; [|apply quietly_refl].
    destruct (phase op) as [| | | |o|]; try apply quietly_refl.
    assert (silent (then_catch (clock d) p o op).2) as Hs.
    { destruct o; simpl; try (by apply silent_singleton).
      by intros x ?%elem_of_nil. }
    destruct (then_catch (clock d) p o op) as [op1 effects]. simpl in Hs.
    eapply quietly_trans; [by apply quietly_emit|].
    destruct (delete_envelope_frame (id (message op1)) (emit effects d))
      as (Ht & _ & _).
    apply quietly_frame; simpl; [|done].
    unfold delete_envelope. by destruct (_envelopes (emit effects d) !! _).
Qed.

Lemma connectivity_quietly d d' :
  quietly d d' → connectivity d → connectivity d'.
Proof.
  intros [Hs (new & Ht & Hn)] Hd. unfold connectivity.
  by rewrite Hs, Ht, notifications_app, Hn, app_nil_r.
Qed.

Lemma connectivity_step d ev : connectivity d → connectivity (step d ev).
Proof.
  intros Hd.
  destruct ev;
    try (apply (connectivity_quietly d); [by apply quietly_step|done]).
  match goal with
  | |- context [step d (Call_handleResponse ?r)] =>
      change (step d (Call_handleResponse r)) with (handleResponse r d)
  end.
  unfold connectivity.
  rewrite handleResponse_state, handleResponse_trace, !notifications_app,
    correlation_no_up.
  destruct Hd as [[Hs Hn]|[Hs Hn]]; rewrite Hs, Hn; simpl; right; done.
Qed.

Lemma up_stays more d : _state d = UP → _state (run d more) = UP.
Proof.
  revert d. induction more as [|ev more IH]; intros d Hup; [done|].
  apply (IH (step d ev)).
  destruct ev;
    try (by match goal with
            | |- _state (step d ?ev) = UP =>
                destruct (quietly_step d ev) as [-> _]
            end).
  match goal with
  | |- context [step d (Call_handleResponse ?r)] =>
      change (step d (Call_handleResponse r)) with (handleResponse r d)
  end.
  apply handleResponse_state.
Qed.

(** X9.  During the whole life of a dispatcher the connectivity state is
    either the initial 0 or UP, never DOWN, and it never leaves UP;
    ['transport:up'] is published at most once, having been published
    exactly when the state is UP; and no event other than a call of
    [handleResponse] changes the state or publishes anything. *)
Theorem connectivity_never_down retry now evs :
  let d : Dispatcher S := run (new_Dispatcher retry now) evs in
  (_state d = 0 ∧ notifications "transport:up" (trace d) = [] ∨
   _state d = UP ∧ notifications "transport:up" (trace d) = [None]) ∧
  _state d ≠ DOWN ∧
  (∀ more, _state d = UP → _state (run d more) = UP) ∧
  (∀ ev, (∀ reply, ev ≠ Call_handleResponse reply) →
     _state (step d ev) = _state d ∧
     ∀ name, notifications name (since d (step d ev)) = []).
Proof.
  assert (∀ evs0 (d0 : Dispatcher S), connectivity d0 →
            connectivity (run d0 evs0)) as Hrun.
  { induction evs0 as [|ev evs0 IH]; intros d0 Hd0; [done|].
    apply (IH (step d0 ev)). by apply connectivity_step. }
  intros d. assert (connectivity d) as Hd.
  { apply Hrun. left. done. }
  split; [exact Hd|]. split.
  { destruct Hd as [[Hs _]|[Hs _]]; rewrite Hs; done. }
  split.
  - intros more Hup. by apply up_stays.
  - intros ev Hev. destruct (quietly_step d ev Hev) as [Hs (new & Ht & Hn)].
    split; [done|]. intros name. by rewrite (since_app _ _ _ Ht).
Qed.

End Connectivity.

(** ** The books of an operation *)

Ltac books_tac :=
  intros ? ? ? ?; unfold balanced; unfold_callbacks; crush_op;
  rewrite ?Nat.eqb_refl; simpl;
  repeat match goal with H : phase _ = _ |- _ => rewrite H end;
  simpl; intros; destruct_and?;
  try match goal with
      | H : (?x =? ?x)%nat = false |- _ =>
          rewrite Nat.eqb_refl in H; discriminate H
      end;
  repeat match goal with
         | H : match ?x with _ => _ end = _ |- _ =>
             destruct x; try discriminate H
         end;
  try congruence; repeat split; lia.

Ltac own_tac :=
  let Hne := fresh "Hne" in let kind := fresh "kind" in
  intros ? ? ? kind ? Hne; apply Nat.eqb_neq in Hne;
  destruct kind; unfold_callbacks; crush_op; rewrite ?Hne in *; done.

Section Books.
Context {S : Type} `{!Scheduler S}.
Implicit Types (op : Operation S) (d : Dispatcher S) (p q : PromiseRef).

Lemma books_cancel : books (S:=S) (λ _, cancel).
Proof. books_tac. Qed.

Lemma books_pool_resolved t : books (S:=S) (λ now p, pool_resolved now p t).
Proof. books_tac. Qed.

Lemma books_pool_rejected e : books (S:=S) (λ now p, pool_rejected now p e).
Proof. books_tac. Qed.

Lemma books_send_resolved : books (S:=S) (λ _ _, send_resolved).
Proof. books_tac. Qed.

Lemma books_send_rejected e : books (S:=S) (λ now p, send_rejected now p e).
Proof. books_tac. Qed.

Lemma books_attempt_timeout : books (S:=S) attempt_timeout.
Proof. books_tac. Qed.

Lemma books_delay_elapsed : books (S:=S) delay_elapsed.
Proof. books_tac. Qed.

Lemma books_deadline_timeout : books (S:=S) deadline_timeout.
Proof. books_tac. Qed.

Lemma books_call_resolver k reply : books (S:=S) (λ _ p, call_resolver p k reply).
Proof. books_tac. Qed.

Lemma own_attemptSend : own (S:=S) _attemptSend.
Proof. own_tac. Qed.

Lemma own_cancel : own (S:=S) (λ _, cancel).
Proof. own_tac. Qed.

Lemma own_pool_resolved t : own (S:=S) (λ now p, pool_resolved now p t).
Proof. own_tac. Qed.

Lemma own_pool_rejected e : own (S:=S) (λ now p, pool_rejected now p e).
Proof. own_tac. Qed.

Lemma own_send_resolved : own (S:=S) (λ _ _, send_resolved).
Proof. own_tac. Qed.

Lemma own_send_rejected e : own (S:=S) (λ now p, send_rejected now p e).
Proof. own_tac. Qed.

Lemma own_attempt_timeout : own (S:=S) attempt_timeout.
Proof. own_tac. Qed.

Lemma own_delay_elapsed : own (S:=S) delay_elapsed.
Proof. own_tac. Qed.

Lemma own_deadline_timeout : own (S:=S) deadline_timeout.
Proof. own_tac. Qed.

Lemma own_call_resolver k reply : own (S:=S) (λ _ p, call_resolver p k reply).
Proof. own_tac. Qed.

End Books.

Section Ledger.
Context {S : Type} `{!Scheduler S}.
Implicit Types (op : Operation S) (d : Dispatcher S) (p q : PromiseRef).

Lemma count_app k p (l1 l2 : list Effect) :
  count k p (l1 ++ l2) = (count k p l1 + count k p l2)%nat.
Proof. induction l1 as [|e l1 IH]; simpl; [done|]. rewrite IH. lia. Qed.

Lemma stamped_calls (now : Z) (effects : list Effect) :
  (pair now <$> effects).*2 = effects.
Proof. induction effects as [|e effects IH]; csimpl; [done|]. by rewrite IH. Qed.

Lemma stamped_calls_map (now : Z) (effects : list Effect) :
  (map (pair now) effects).*2 = effects.
Proof. induction effects as [|e effects IH]; csimpl; [done|]. by rewrite IH. Qed.

Lemma calls_emit k p effects d :
  calls k p (emit effects d) = (calls k p d + count k p effects)%nat.
Proof.
  unfold calls. simpl. by rewrite fmap_app, count_app, stamped_calls_map.
Qed.

Lemma calls_on_operation k p q f d :
  calls k p (on_operation q f d) =
    (calls k p d +
     match operations d !! q with
     | Some op => count k p (f (clock d) q op).2
     | None => 0
     end)%nat.
Proof.
  unfold calls. rewrite on_operation_trace, fmap_app, count_app.
  destruct (operations d !! q); [by rewrite stamped_calls|done].
Qed.

Lemma balanced_ext op (c c' : Kind → nat) :
  (∀ k, c k = c' k) → balanced op c → balanced op c'.
Proof. intros Heq. unfold balanced. by rewrite !Heq. Qed.

Lemma ledger_on_operation q f d :
  own f →
  (∀ op c, operations d !! q = Some op → balanced op c →
     balanced (f (clock d) q op).1
       (λ k, (c k + count k q (f (clock d) q op).2)%nat)) →
  ledger d → ledger (on_operation q f d).
Proof.
  intros Hown Hbooks Hd.
  destruct (operations d !! q) as [opq|] eqn:Hq;
    [|by rewrite on_operation_None].
  destruct Hd as [Hfresh Hbal]. split.
  - intros k p. rewrite on_operation_length, calls_on_operation, Hq.
    intros Hp. rewrite (Hfresh k p Hp), Hown; [done|].
    apply lookup_lt_Some in Hq. lia.
  - intros p op' Hop'.
    destruct (on_operation_lookup _ _ _ _ _ Hop') as (op & Hop & [[Hne ->]|[-> ->]]).
    + eapply balanced_ext; [|by apply Hbal].
      intros k. simpl. rewrite calls_on_operation, Hq, Hown; [lia|done].
    + assert (op = opq) as -> by congruence.
      eapply balanced_ext; [|apply (Hbooks opq _ eq_refl (Hbal _ _ Hq))].
      intros k. simpl. by rewrite calls_on_operation, Hq.
Qed.

Lemma ledger_callback q f d :
  own f → books f → ledger d → ledger (on_operation q f d).
Proof. intros Hown Hbooks. apply ledger_on_operation; [done|]. intros. by apply Hbooks. Qed.

Lemma ledger_emit effects d :
  (∀ k p, count k p effects = 0%nat) → ledger d → ledger (emit effects d).
Proof.
  intros Hzero [Hfresh Hbal]. split.
  - intros k p Hp. rewrite calls_emit, Hzero. simpl in Hp.
    rewrite (Hfresh k p Hp). done.
  - intros p op Hop. eapply balanced_ext; [|by apply Hbal].
    intros k. simpl. rewrite calls_emit, Hzero. lia.
Qed.

Lemma ledger_frame d d' :
  trace d' = trace d → operations d' = operations d → ledger d → ledger d'.
Proof.
  intros Ht Ho [Hfresh Hbal]. split.
  - intros k p. unfold calls. rewrite Ht, Ho. apply Hfresh.
  - intros p op. unfold calls. rewrite Ht, Ho. apply Hbal.
Qed.

Lemma ledger_sendMessage m ms options d :
  ledger d → ledger (sendMessage m ms options d).2.
Proof.
  intros Hd. unfold sendMessage.
  destruct (_envelopes d !! id m) as [q|]; [done|].
  destruct (inherited (id m)); [done|]. simpl.
  set (p := length (operations d)).
  apply ledger_on_operation; [apply own_attemptSend| |].
  - simpl. intros op c Hop Hbal.
    rewrite lookup_app_r in Hop by done.
    replace (p - length (operations d))%nat with 0%nat in Hop by (unfold p; lia).
    injection Hop as <-. revert Hbal.
    unfold balanced, _attemptSend. simpl.
    destruct (isDeliverable (clock d) _); simpl;
      rewrite ?Nat.eqb_refl; simpl; intros; destruct_and?; repeat split; lia.
  - destruct Hd as [Hfresh Hbal]. split.
    + intros k q. simpl. rewrite length_app. simpl. intros Hq.
      rewrite calls_emit. simpl.
      change (calls k q (set_operations _ _)) with (calls k q d).
      rewrite (Hfresh k q) by (simpl; lia).
      destruct k; simpl; try done.
      destruct (Nat.eqb_spec q p) as [->|]; [unfold p in Hq; lia|done].
    + intros q op. simpl. intros [Hop|[Hlen Hop]]%lookup_app_Some.
      * eapply balanced_ext; [|by apply Hbal].
        intros k. simpl. rewrite calls_emit. simpl.
        change (calls k q (set_operations _ _)) with (calls k q d).
        assert (q ≠ p) as Hne by (apply lookup_lt_Some in Hop; unfold p; lia).
        destruct k; simpl; try lia.
        apply Nat.eqb_neq in Hne. rewrite Hne. lia.
      * destruct (q - length (operations d))%nat as [|n] eqn:Hn; [|done].
        simpl in Hop. injection Hop as <-.
        assert (q = p) as -> by (unfold p; lia).
        assert (∀ k, calls k p (emit
                  [scheduler_new p
                     {| timeout := ms; interval := _advice_retry d;
                        attempts := options ≫= opt_attempts |}]
                  (set_operations
                     (operations d ++
                      [{| resolve := Undefined; message := m;
                          scheduler := new_Scheduler (clock d) m
                            {| timeout := ms; interval := _advice_retry d;
                               attempts := options ≫= opt_attempts |};
                          deadline := clock d + deadline_of options;
                          attempt := 0; phase := Starting |}])
                     (set_envelopes (<[id m:=p]> (_envelopes d)) [] d)))
                = match k with K_new => 1 | _ => 0 end%nat) as Hcalls.
        { intros k. rewrite calls_emit. simpl.
          change (calls k p (set_operations _ _)) with (calls k p d).
          rewrite (Hfresh k p) by (unfold p; lia).
          destruct k; simpl; rewrite ?Nat.eqb_refl; done. }
        unfold balanced. simpl. rewrite !Hcalls. repeat split; lia.
Qed.

Lemma ledger_handlers_run q d : ledger d → ledger (handlers_run q d).
Proof.
  intros Hd. unfold handlers_run.
  destruct (operations d !! q) as [opq|] eqn:Hq; [|done].
  destruct (phase opq) as [| | | |o|] eqn:Hph; try done.
  assert (∀ k p, p ≠ q → count k p (then_catch (clock d) q o opq).2 = 0%nat)
    as Hown.
  { intros k p Hne%Nat.eqb_neq. destruct o, k; simpl; rewrite ?Hne; done. }
  assert (∀ c, balanced opq c →
            balanced (set_phase (Settled o) (then_catch (clock d) q o opq).1)
              (λ k, (c k + count k q (then_catch (clock d) q o opq).2)%nat))
    as Hbooks.
  { intros c. unfold balanced. rewrite Hph.
    destruct o; simpl; rewrite ?Nat.eqb_refl; simpl;
      intros; destruct_and?; repeat split; lia. }
  destruct (then_catch (clock d) q o opq) as [op1 effects].
  simpl in Hown, Hbooks.
  destruct (delete_envelope_frame (id (message op1)) (emit effects d))
    as (Ht & Ho & _).
  destruct Hd as [Hfresh Hbal].
  assert (∀ ops k p, calls k p
            (set_operations ops
               (delete_envelope (id (message op1)) (emit effects d)))
          = (calls k p d + count k p effects)%nat) as Hcalls.
  { intros ops k p. unfold calls. simpl. rewrite Ht. simpl.
    by rewrite fmap_app, count_app, stamped_calls_map. }
  split.
  - intros k p. simpl. rewrite length_insert, Ho. simpl. intros Hp.
    rewrite Hcalls, (Hfresh k p Hp), Hown; [done|].
    apply lookup_lt_Some in Hq. lia.
  - intros p op. simpl. rewrite Ho. simpl.
    intros [(<- & <- & _)|[Hne Hop]]%list_lookup_insert_Some.
    + eapply balanced_ext; [|apply (Hbooks _ (Hbal _ _ Hq))].
      intros k. simpl. by rewrite Hcalls.
    + eapply balanced_ext; [|by apply Hbal].
      intros k. simpl. rewrite Hcalls, Hown by done. lia.
Qed.

Lemma ledger_cancel_all (envelopes : list (string * PromiseRef)) d :
  ledger d →
  ledger (foldl (λ d envelope, on_operation envelope.2 (λ _, cancel) d)
            d envelopes).
Proof.
  revert d. induction envelopes as [|e es IH]; intros d Hd; [done|].
  simpl. apply IH. apply ledger_callback; [apply own_cancel|apply books_cancel|done].
Qed.

Lemma ledger_cancelPending d : ledger d → ledger (_cancelPending d).
Proof.
  intros Hd. apply ledger_cancel_all. by eapply ledger_frame; [..|exact Hd].
Qed.

Lemma ledger_handleResponse reply d : ledger d → ledger (handleResponse reply d).
Proof.
  intros Hd. unfold handleResponse.
  set (d1 := match successful reply with Some _ => _ | None => _ end).
  assert (ledger d1) as Hd1.
  { assert (ledger (emit [trigger "message" (Some reply)] d)) as Hmsg
      by (apply ledger_emit; [by intros []|done]).
    unfold d1. destruct (successful reply); [|done].
    destruct (_envelopes d !! id reply) as [q|];
      [|by destruct (inherited (id reply))].
    destruct (resolve <$> operations d !! q) as [[| |k]|]; try done.
    apply ledger_callback;
      [apply own_call_resolver|apply books_call_resolver|done]. }
  destruct (_state d1 =? UP); [done|].
  apply ledger_emit; [by intros []|].
  by eapply ledger_frame; [..|exact Hd1].
Qed.

Lemma ledger_step d ev : ledger d → ledger (step d ev).
Proof.
  intros Hd. destruct ev; simpl;
    try (apply ledger_callback; [| |done]).
  - destruct (0 <=? dt); [|done]. by eapply ledger_frame; [..|exact Hd].
  - by apply ledger_sendMessage.
  - by apply ledger_handleResponse.
  - apply ledger_emit; [by intros []|done].
  - by apply ledger_cancelPending.
  - apply ledger_emit; [by intros []|done].
  - apply ledger_emit; [by intros []|]. by apply ledger_cancelPending.
  - apply ledger_emit; [by intros []|]. apply ledger_cancelPending.
    apply ledger_emit; [by intros []|]. apply ledger_emit; [by intros []|done].
  - apply own_cancel.
  - apply books_cancel.
  - apply own_pool_resolved.
  - apply books_pool_resolved.
  - apply own_pool_rejected.
  - apply books_pool_rejected.
  - apply own_send_resolved.
  - apply books_send_resolved.
  - apply own_send_rejected.
  - apply books_send_rejected.
  - apply own_attempt_timeout.
  - apply books_attempt_timeout.
  - apply own_delay_elapsed.
  - apply books_delay_elapsed.
  - apply own_deadline_timeout.
  - apply books_deadline_timeout.
  - by apply ledger_handlers_run.
Qed.

Lemma ledger_run evs d : ledger d → ledger (run d evs).
Proof.
  revert d. induction evs as [|ev evs IH]; intros d Hd; [done|].
  apply IH. by apply ledger_step.
Qed.

Lemma ledger_new retry now : ledger (S:=S) (new_Dispatcher retry now).
Proof.
  split; simpl; [done|]. intros p op Hop. by rewrite lookup_nil in Hop.
Qed.

(** X10.  In every state a dispatcher can reach, for every operation: one
    scheduler was constructed; the scheduler's [send] and the pool's [get]
    were each called once per attempt entered; the message was handed to a
    transport no more often than that; and the scheduler's [fail] was
    called once for every attempt but the one under way, so exactly
    [attempt - 1] times while an attempt is under way and exactly [attempt]
    times while the operation waits to retry. *)
Theorem attempts_ledger retry now evs p op :
  let d := run (new_Dispatcher retry now) evs in
  operations d !! p = Some op →
  calls K_new p d = 1%nat ∧
  calls K_send p d = attempt op ∧
  calls K_get p d = attempt op ∧
  (calls K_handed p d ≤ attempt op)%nat ∧
  (calls K_fail p d ≤ attempt op)%nat ∧
  (∀ due, phase op = AwaitTransport due →
     (calls K_handed p d + 1 ≤ attempt op ∧
      calls K_fail p d + 1 = attempt op)%nat) ∧
  (∀ t due sent response, phase op = AwaitReply t due sent response →
     (calls K_fail p d + 1 = attempt op)%nat) ∧
  (∀ due, phase op = AwaitRetry due → calls K_fail p d = attempt op).
Proof.
  intros d Hop.
  assert (ledger d) as Hd by apply ledger_run, ledger_new.
  destruct (ledger_balanced _ Hd _ _ Hop) as ((Hn & Hs & Hg) & Hmid & _).
  split; [done|]. split; [done|]. split; [done|].
  destruct (phase op) eqn:Hph; destruct Hmid as [Hh Hf];
    repeat split; try lia; intros; simplify_eq; lia.
Qed.

(** X11.  In every state a dispatcher can reach, the scheduler of an
    operation has been told of the outcome exactly as the promise settled:
    [succeed] once and [abort] never when it is fulfilled, [abort] once and
    [succeed] never when it is rejected, and neither of them while it is
    pending or when it was cancelled. *)
Theorem settlement_ledger retry now evs p op :
  let d := run (new_Dispatcher retry now) evs in
  operations d !! p = Some op →
  (calls K_succeed p d, calls K_abort p d) =
    match phase op with
    | Settled (Fulfilled _) => (1, 0)
    | Settled (Rejected _) => (0, 1)
    | _ => (0, 0)
    end%nat.
Proof.
  intros d Hop.
  assert (ledger d) as Hd by apply ledger_run, ledger_new.
  destruct (ledger_balanced _ Hd _ _ Hop) as (_ & _ & Hend).
  destruct (phase op) as [| | | | |[]]; destruct Hend as [-> ->]; done.
Qed.

End Ledger.

Ltac armed_tac :=
  let Harm := fresh "Harm" in
  intros ? ? ? Harm; unfold armed in *; unfold_callbacks; crush_op;
  repeat match goal with H : phase _ = _ |- _ => rewrite H in * end;
  simpl; try done;
  intros; simplify_eq; eauto.

Ltac unanswering_tac :=
  intros ? ? ? ?; unfold_callbacks; crush_op;
  repeat match goal with H : phase _ = _ |- _ => rewrite H in * end;
  simpl; try done.

Section Arming.
Context {S : Type} `{!Scheduler S}.
Implicit Types (op : Operation S) (d : Dispatcher S) (p q : PromiseRef).
Implicit Types (now : Z).

Lemma armed_attemptSend now p op : armed op → armed (_attemptSend now p op).1.
Proof. revert now p op. armed_tac. Qed.

Lemma armed_cancel now p op : armed op → armed (cancel p op).1.
Proof. revert now p op. armed_tac. Qed.

Lemma armed_pool_resolved t now p op :
  armed op → armed (pool_resolved now p t op).1.
Proof. revert now p op. armed_tac. Qed.

Lemma armed_pool_rejected e now p op :
  armed op → armed (pool_rejected now p e op).1.
Proof. revert now p op. armed_tac. Qed.

Lemma armed_send_resolved now p op : armed op → armed (send_resolved op).1.
Proof. revert now p op. armed_tac. Qed.

Lemma armed_send_rejected e now p op :
  armed op → armed (send_rejected now p e op).1.
Proof. revert now p op. armed_tac. Qed.

Lemma armed_attempt_timeout now p op :
  armed op → armed (attempt_timeout now p op).1.
Proof. revert now p op. armed_tac. Qed.

Lemma armed_delay_elapsed now p op :
  armed op → armed (delay_elapsed now p op).1.
Proof. revert now p op. armed_tac. Qed.

Lemma armed_deadline_timeout now p op :
  armed op → armed (deadline_timeout now p op).1.
Proof. revert now p op. armed_tac. Qed.

Lemma armed_call_resolver k reply p op :
  resolve op = Resolver k → armed op → armed (call_resolver p k reply op).1.
Proof.
  intros Hk Harm t due sent. unfold call_resolver. simpl.
  destruct (phase op) as [| |t0 due0 sent0 [r|]| | |] eqn:Hph;
    simpl; rewrite ?Hph; try done.
  specialize (Harm _ _ _ Hph).
  assert (k = attempt op) as -> by congruence.
  rewrite Nat.eqb_refl. simpl. by destruct sent0.
Qed.

Lemma unanswering_attemptSend : unanswering (S:=S) _attemptSend.
Proof. unanswering_tac. Qed.

Lemma unanswering_cancel : unanswering (S:=S) (λ _, cancel).
Proof. unanswering_tac. Qed.

Lemma unanswering_pool_resolved t :
  unanswering (S:=S) (λ now p, pool_resolved now p t).
Proof. unanswering_tac. Qed.

Lemma unanswering_pool_rejected e :
  unanswering (S:=S) (λ now p, pool_rejected now p e).
Proof. unanswering_tac. Qed.

Lemma unanswering_send_resolved : unanswering (S:=S) (λ _ _, send_resolved).
Proof. unanswering_tac. Qed.

Lemma unanswering_send_rejected e :
  unanswering (S:=S) (λ now p, send_rejected now p e).
Proof. unanswering_tac. Qed.

Lemma unanswering_attempt_timeout : unanswering (S:=S) attempt_timeout.
Proof. unanswering_tac. Qed.

Lemma unanswering_delay_elapsed : unanswering (S:=S) delay_elapsed.
Proof. unanswering_tac. Qed.

Lemma unanswering_deadline_timeout : unanswering (S:=S) deadline_timeout.
Proof. unanswering_tac. Qed.

End Arming.

Section Answered.
Context {S : Type} `{!Scheduler S}.
Implicit Types (op : Operation S) (d : Dispatcher S) (p q : PromiseRef).
Implicit Types (now : Z).

Lemma armed_on_operation q f d :
  (∀ now p op, armed op → armed (f now p op).1) →
  Forall armed (operations d) → Forall armed (operations (on_operation q f d)).
Proof.
  intros Hf Hd. apply Forall_lookup. intros p op' Hop'.
  destruct (on_operation_lookup _ _ _ _ _ Hop') as (op & Hop & [[_ ->]|[-> ->]]).
  - by eapply Forall_lookup_1.
  - apply Hf. by eapply Forall_lookup_1.
Qed.

Lemma armed_sendMessage m ms options d :
  Forall armed (operations d) →
  Forall armed (operations (sendMessage m ms options d).2).
Proof.
  intros Hd. unfold sendMessage.
  destruct (_envelopes d !! id m); [done|].
  destruct (inherited (id m)); [done|]. simpl.
  apply armed_on_operation; [apply armed_attemptSend|]. simpl.
  apply Forall_app. split; [done|].
  apply Forall_singleton. by intros t due sent [=].
Qed.

Lemma armed_handlers_run q d :
  Forall armed (operations d) → Forall armed (operations (handlers_run q d)).
Proof.
  intros Hd. unfold handlers_run.
  destruct (operations d !! q) as [opq|] eqn:Hq; [|done].
  destruct (phase opq) as [| | | |o|] eqn:Hph; try done.
  destruct (then_catch (clock d) q o opq) as [op1 effects].
  destruct (delete_envelope_frame (id (message op1)) (emit effects d))
    as (_ & Ho & _).
  simpl. rewrite Ho. simpl.
  apply Forall_insert; [done|]. by intros t due sent [=].
Qed.

Lemma armed_cancel_all (envelopes : list (string * PromiseRef)) d :
  Forall armed (operations d) →
  Forall armed
    (operations (foldl (λ d envelope, on_operation envelope.2 (λ _, cancel) d)
                   d envelopes)).
Proof.
  revert d. induction envelopes as [|e es IH]; intros d Hd; [done|].
  simpl. apply IH. apply armed_on_operation; [|done].
  intros now p op. by apply armed_cancel.
Qed.

Lemma armed_handleResponse reply d :
  Forall armed (operations d) →
  Forall armed (operations (handleResponse reply d)).
Proof.
  intros Hd. rewrite handleResponse_operations.
  destruct (successful reply); [|done].
  destruct (_envelopes d !! id reply) as [q|];
      [|by destruct (inherited (id reply))].
  destruct (operations d !! q) as [opq|] eqn:Hq; [|done]. simpl.
  destruct (resolve opq) as [| |k] eqn:Hk; try done.
  apply Forall_lookup. intros p op' Hop'.
  destruct (on_operation_lookup _ _ _ _ _ Hop') as (op & Hop & [[_ ->]|[-> ->]]).
  - by eapply Forall_lookup_1.
  - assert (op = opq) as -> by congruence.
    apply armed_call_resolver; [done|]. by eapply Forall_lookup_1.
Qed.

Lemma armed_step d ev :
  Forall armed (operations d) → Forall armed (operations (step d ev)).
Proof.
  intros Hd. destruct ev; simpl;
    try (apply armed_on_operation; [intros now q op|done]).
  - by destruct (0 <=? dt).
  - by apply armed_sendMessage.
  - by apply armed_handleResponse.
  - done.
  - by apply armed_cancel_all.
  - done.
  - by apply armed_cancel_all.
  - by apply armed_cancel_all.
  - by apply armed_cancel.
  - apply armed_pool_resolved.
  - apply armed_pool_rejected.
  - by apply armed_send_resolved.
  - apply armed_send_rejected.
  - apply armed_attempt_timeout.
  - apply armed_delay_elapsed.
  - apply armed_deadline_timeout.
  - by apply armed_handlers_run.
Qed.

Lemma armed_run evs d :
  Forall armed (operations d) → Forall armed (operations (run d evs)).
Proof.
  revert d. induction evs as [|ev evs IH]; intros d Hd; [done|].
  apply IH. by apply armed_step.
Qed.

Lemma sourced_grow d d' new :
  operations d' = operations d → trace d' = trace d ++ new →
  sourced d → sourced d'.
Proof.
  intros Ho Ht Hd p op r. rewrite Ho, Ht. intros Hop Hans.
  destruct (Hd p op r Hop Hans) as (Hid & Hs & t & k & Hin).
  split; [done|]. split; [done|]. exists t, k. apply elem_of_app. by left.
Qed.

Lemma sourced_emit effects d : sourced d → sourced (emit effects d).
Proof. by apply sourced_grow with (new := map (pair (clock d)) effects). Qed.

Lemma sourced_on_operation q f d :
  tame f → unanswering f → sourced d → sourced (on_operation q f d).
Proof.
  intros Htame Hun Hd p op' r Hop' Hans.
  rewrite on_operation_trace.
  destruct (on_operation_lookup _ _ _ _ _ Hop') as (op & Hop & [[_ ->]|[-> ->]]).
  - destruct (Hd p op r Hop Hans) as (Hid & Hs & t & k & Hin).
    split; [done|]. split; [done|]. exists t, k. apply elem_of_app. by left.
  - destruct (Hd q op r Hop (Hun _ _ _ _ Hans)) as (Hid & Hs & t & k & Hin).
    destruct (Htame (clock d) q op) as [Hid' _].
    split; [congruence|]. split; [done|]. exists t, k. apply elem_of_app. by left.
Qed.

Lemma sourced_sendMessage m ms options d :
  sourced d → sourced (sendMessage m ms options d).2.
Proof.
  intros Hd. unfold sendMessage.
  destruct (_envelopes d !! id m); [done|].
  destruct (inherited (id m)); [done|]. simpl.
  apply sourced_on_operation;
    [apply tame_attemptSend|apply unanswering_attemptSend|].
  intros p op r. simpl. intros [Hop|[_ Hop]]%lookup_app_Some Hans.
  - destruct (Hd p op r Hop Hans) as (Hid & Hs & t & k & Hin).
    split; [done|]. split; [done|]. exists t, k. apply elem_of_app. by left.
  - destruct (p - length (operations d))%nat; [|done].
    simpl in Hop. by simplify_eq.
Qed.

Lemma sourced_handlers_run q d : sourced d → sourced (handlers_run q d).
Proof.
  intros Hd. unfold handlers_run.
  destruct (operations d !! q) as [opq|] eqn:Hq; [|done].
  destruct (phase opq) as [| | | |o|] eqn:Hph; try done.
  pose proof (then_catch_message (clock d) q o opq) as Hmsg.
  destruct (then_catch (clock d) q o opq) as [op1 effects].
  destruct (delete_envelope_frame (id (message op1)) (emit effects d))
    as (Ht & Ho & _).
  intros p op r. simpl. rewrite Ho, Ht. simpl.
  intros [(<- & <- & _)|[Hne Hop]]%list_lookup_insert_Some Hans.
  - simpl in *. destruct (Hd q opq r Hq) as (Hid & Hs & t & k & Hin).
    { by rewrite Hph. }
    split; [congruence|]. split; [done|]. exists t, k. apply elem_of_app. by left.
  - destruct (Hd p op r Hop Hans) as (Hid & Hs & t & k & Hin).
    split; [done|]. split; [done|]. exists t, k. apply elem_of_app. by left.
Qed.

Lemma sourced_cancel_all (envelopes : list (string * PromiseRef)) d :
  sourced d →
  sourced (foldl (λ d envelope, on_operation envelope.2 (λ _, cancel) d)
             d envelopes).
Proof.
  revert d. induction envelopes as [|e es IH]; intros d Hd; [done|].
  simpl. apply IH.
  apply sourced_on_operation; [apply tame_cancel|apply unanswering_cancel|done].
Qed.

Lemma sourced_cancelPending d : sourced d → sourced (_cancelPending d).
Proof.
  intros Hd. apply sourced_cancel_all.
  apply (sourced_grow d _ []); [done|by rewrite app_nil_r|done].
Qed.

Lemma answer_call_resolver p k reply op r :
  answer (phase (call_resolver p k reply op).1) = Some r →
  answer (phase op) = Some r ∨ r = reply.
Proof.
  unfold call_resolver. simpl.
  destruct (phase op) as [| |t due sent [r0|]| | |] eqn:Hph;
    simpl; rewrite ?Hph; auto.
  destruct (k =? attempt op)%nat; simpl; rewrite ?Hph; auto.
  destruct sent; simpl; intros [= ->]; auto.
Qed.

Lemma sourced_handleResponse reply d :
  consistent d → sourced d → sourced (handleResponse reply d).
Proof.
  intros Hc Hd. unfold handleResponse.
  set (d1 := match successful reply with Some _ => _ | None => _ end).
  assert (sourced d1) as Hd1.
  { unfold d1. destruct (successful reply) as [b|] eqn:Hb;
      [|by apply sourced_emit].
    destruct (_envelopes d !! id reply) as [q|] eqn:Hq;
      [|destruct (inherited (id reply)); [done|by apply sourced_emit]].
    destruct (operations d !! q) as [opq|] eqn:Hopq; [|done]. simpl.
    destruct (resolve opq) as [| |k] eqn:Hk; try done.
    destruct (open_pending _ Hc _ _ Hq) as (opq' & Hopq' & Hid & _).
    assert (opq' = opq) as -> by congruence.
    intros p op' r Hop' Hans. rewrite on_operation_trace, Hopq. simpl.
    destruct (on_operation_lookup _ _ _ _ _ Hop') as (op & Hop & [[_ ->]|[-> ->]]).
    - destruct (Hd p op r Hop Hans) as (Hid' & Hs & t & k' & Hin).
      split; [done|]. split; [done|]. exists t, k'. apply elem_of_app. by left.
    - assert (op = opq) as -> by congruence.
      destruct (tame_call_resolver k reply (clock d) q opq) as [Hsame _].
      change (id (message (call_resolver q k reply opq).1) = id (message opq))
        in Hsame.
      destruct (answer_call_resolver _ _ _ _ _ Hans) as [Hold| ->].
      + destruct (Hd q opq r Hopq Hold) as (Hid' & Hs & t & k' & Hin).
        split; [congruence|]. split; [done|].
        exists t, k'. apply elem_of_app. by left.
      + split; [congruence|]. split; [by rewrite Hb|].
        exists (clock d), k. apply elem_of_app. right. set_solver. }
  destruct (_state d1 =? UP); [done|].
  apply sourced_emit.
  by apply (sourced_grow d1 _ []); [|rewrite app_nil_r|].
Qed.

Lemma sourced_step d ev : consistent d → sourced d → sourced (step d ev).
Proof.
  intros Hc Hd. destruct ev; simpl;
    try (apply sourced_on_operation; [| |done]).
  - destruct (0 <=? dt); [|done].
    by apply (sourced_grow d _ []); [|rewrite app_nil_r|].
  - by apply sourced_sendMessage.
  - by apply sourced_handleResponse.
  - by apply sourced_emit.
  - by apply sourced_cancelPending.
  - by apply sourced_emit.
  - by apply sourced_emit, sourced_cancelPending.
  - by apply sourced_emit, sourced_cancelPending, sourced_emit, sourced_emit.
  - apply tame_cancel.
  - apply unanswering_cancel.
  - apply tame_pool_resolved.
  - apply unanswering_pool_resolved.
  - apply tame_pool_rejected.
  - apply unanswering_pool_rejected.
  - apply tame_send_resolved.
  - apply unanswering_send_resolved.
  - apply tame_send_rejected.
  - apply unanswering_send_rejected.
  - apply tame_attempt_timeout.
  - apply unanswering_attempt_timeout.
  - apply tame_delay_elapsed.
  - apply unanswering_delay_elapsed.
  - apply tame_deadline_timeout.
  - apply unanswering_deadline_timeout.
  - by apply sourced_handlers_run.
Qed.

Lemma sourced_run evs d : consistent d → sourced d → sourced (run d evs).
Proof.
  revert d. induction evs as [|ev evs IH]; intros d Hc Hd; [done|].
  apply IH; [by apply consistent_step|by apply sourced_step].
Qed.

End Answered.

Section Delivery.
Context {S : Type} `{!Scheduler S}.
Implicit Types (op : Operation S) (d : Dispatcher S) (p q : PromiseRef).
Implicit Types (now : Z).

Lemma sourced_new retry now : sourced (S:=S) (new_Dispatcher retry now).
Proof. intros p op r Hop. simpl in Hop. by rewrite lookup_nil in Hop. Qed.

(** X12.  A promise is fulfilled only with a reply that [handleResponse]
    passed to the resolver of its envelope: in every state a dispatcher
    can reach, the value a promise is (about to be) fulfilled with carries
    the id of the message and a [successful] field, and [envelope.resolve]
    was called with it for this very operation. *)
Theorem fulfilled_only_by_reply retry now evs p op r :
  let d := run (new_Dispatcher retry now) evs in
  operations d !! p = Some op →
  phase op = Settling (Fulfilled r) ∨ phase op = Settled (Fulfilled r) →
  id r = id (message op) ∧ successful r ≠ None ∧
  ∃ t k, (t, envelope_resolve p k r) ∈ trace d.
Proof.
  intros d Hop Hph.
  assert (sourced d) as Hd
    by (apply sourced_run; [apply consistent_new|apply sourced_new]).
  apply (Hd p op r Hop). by destruct Hph as [-> | ->].
Qed.

Lemma handleResponse_phase reply d p op :
  _envelopes d !! id reply = Some p → successful reply ≠ None →
  operations d !! p = Some op → armed op →
  phase_of p (handleResponse reply d) =
    Some match phase op with
         | AwaitReply t due sent None => join t due sent (Some reply)
         | ph => ph
         end.
Proof.
  intros Henv Hs Hop Harm. unfold phase_of.
  rewrite handleResponse_operations, Henv, Hop.
  destruct (successful reply) as [b|]; [clear Hs|done]. simpl.
  destruct (resolve op) as [| |k] eqn:Hk.
  - rewrite Hop. simpl.
    destruct (phase op) as [| |t due sent [r|]| | |] eqn:Hph; try done.
    specialize (Harm _ _ _ Hph). congruence.
  - rewrite Hop. simpl.
    destruct (phase op) as [| |t due sent [r|]| | |] eqn:Hph; try done.
    specialize (Harm _ _ _ Hph). congruence.
  - rewrite (on_operation_lookup_eq _ _ _ _ Hop). unfold call_resolver. simpl.
    destruct (phase op) as [| |t due sent [r|]| | |] eqn:Hph;
      simpl; rewrite ?Hph; try done.
    specialize (Harm _ _ _ Hph).
    assert (k = attempt op) as -> by congruence.
    by rewrite Nat.eqb_refl.
Qed.

(** X13.  A reply that carries [successful] and whose id has an envelope,
    in any state a dispatcher can reach: when the attempt under way awaits
    its reply, the reply is taken (the join then waits for the send only,
    or settles when the send has completed already); in every other phase
    of the operation the reply changes nothing; and in neither case is it
    published as ['message'].  The reply and the completion of the send
    fulfil the promise with the reply in whichever order they come. *)
Theorem reply_reaches_the_attempt retry now evs reply p op :
  let d := run (new_Dispatcher retry now) evs in
  _envelopes d !! id reply = Some p → successful reply ≠ None →
  operations d !! p = Some op →
  phase_of p (handleResponse reply d) =
    Some match phase op with
         | AwaitReply t due sent None => join t due sent (Some reply)
         | ph => ph
         end ∧
  notifications "message" (since d (handleResponse reply d)) = [] ∧
  (∀ t due, phase op = AwaitReply t due false None →
     phase_of p (run d [Call_handleResponse reply; Send_resolved p])
       = Some (Settling (Fulfilled reply)) ∧
     phase_of p (run d [Send_resolved p; Call_handleResponse reply])
       = Some (Settling (Fulfilled reply))).
Proof.
  intros d Henv Hs Hop.
  assert (Forall armed (operations d)) as Hd
    by (apply armed_run; constructor).
  assert (armed op) as Harm by (by eapply Forall_lookup_1).
  split; [by apply handleResponse_phase|]. split.
  - rewrite (since_app _ _ _ (handleResponse_trace reply d)).
    rewrite notifications_app. unfold correlation. rewrite Henv.
    destruct (successful reply) as [b|]; [|done].
    assert (notifications "message"
              (if _state d =? UP then []
               else [(clock d, trigger "transport:up" None)]) = []) as ->
      by (by destruct (_state d =? UP)).
    rewrite app_nil_r.
    by destruct (resolve <$> operations d !! p) as [[| |k]|].
  - intros t due Hph. split.
    + change (run d [Call_handleResponse reply; Send_resolved p])
        with (on_operation p (λ _ _, send_resolved) (handleResponse reply d)).
      pose proof (handleResponse_phase reply d p op Henv Hs Hop Harm) as Hp1.
      rewrite Hph in Hp1. unfold phase_of in *.
      destruct (operations (handleResponse reply d) !! p) as [op1|] eqn:Hop1;
        [|done].
      simpl in Hp1. injection Hp1 as Hp1.
      rewrite (on_operation_lookup_eq _ _ _ _ Hop1). simpl.
      unfold send_resolved. by rewrite Hp1.
    + change (run d [Send_resolved p; Call_handleResponse reply])
        with (handleResponse reply (on_operation p (λ _ _, send_resolved) d)).
      pose proof (on_operation_lookup_eq p (λ _ _, send_resolved) d op Hop)
        as Hop1.
      rewrite (handleResponse_phase reply _ p _ ltac:(by rewrite on_operation_envelopes) Hs Hop1).
      * simpl. unfold send_resolved. by rewrite Hph.
      * by apply (armed_send_resolved 0 p).
Qed.

End Delivery.

Section Closing.
Context {S : Type} `{!Scheduler S}.
Implicit Types (op : Operation S) (d : Dispatcher S) (p q : PromiseRef).
Implicit Types (now : Z).

Lemma cancel_phase p op :
  phase (cancel p op).1 =
    match phase op with Settled o => Settled o | _ => Settling Cancelled end.
Proof.
  unfold cancel, cancel_legs. by destruct (phase op) eqn:Hph; simpl; rewrite ?Hph.
Qed.

Lemma cancel_calls k q p op : count k q (cancel p op).2 = 0%nat.
Proof. unfold cancel, cancel_legs. by destruct (phase op), k. Qed.

Lemma cancel_all_phases (envelopes : list (string * PromiseRef)) d p op :
  let d' := foldl (λ d envelope, on_operation envelope.2 (λ _, cancel) d)
              d envelopes in
  operations d !! p = Some op →
  ∃ op', operations d' !! p = Some op' ∧
    (p ∈ envelopes.*2 →
     phase op' =
       match phase op with Settled o => Settled o | _ => Settling Cancelled end) ∧
    (p ∉ envelopes.*2 → op' = op).
Proof.
  revert d op. induction envelopes as [|e es IH]; intros d op d' Hop.
  - exists op. split; [done|]. split; [by intros ?%elem_of_nil|done].
  - set (d1 := on_operation e.2 (λ _, cancel) d).
    assert (∃ op1, operations d1 !! p = Some op1 ∧
              (p = e.2 → op1 = (cancel p op).1) ∧ (p ≠ e.2 → op1 = op))
      as (op1 & Hop1 & Heq & Hne).
    { destruct (decide (p = e.2)) as [->|Hpe].
      - exists (cancel e.2 op).1. split; [|done].
        by apply (on_operation_lookup_eq e.2 (λ _, cancel)).
      - exists op. split; [|done]. unfold d1.
        by rewrite on_operation_lookup_ne. }
    destruct (IH d1 op1 Hop1) as (op' & Hop' & Hin & Hout).
    exists op'. split; [exact Hop'|]. split.
    + intros Hp. rewrite fmap_cons in Hp.
      destruct (decide (p ∈ es.*2)) as [Hes|Hes].
      * rewrite (Hin Hes).
        destruct (decide (p = e.2)) as [Hpe|Hpe].
        -- rewrite (Heq Hpe), cancel_phase. by destruct (phase op).
        -- by rewrite (Hne Hpe).
      * rewrite (Hout Hes). apply elem_of_cons in Hp as [Hpe|Hp]; [|done].
        by rewrite (Heq Hpe), cancel_phase.
    + intros Hp. rewrite fmap_cons in Hp.
      apply not_elem_of_cons in Hp as [Hpe Hes].
      by rewrite (Hout Hes), (Hne Hpe).
Qed.

Lemma cancel_all_length (envelopes : list (string * PromiseRef)) d :
  length (operations
            (foldl (λ d envelope, on_operation envelope.2 (λ _, cancel) d)
               d envelopes)) = length (operations d).
Proof.
  revert d. induction envelopes as [|e es IH]; intros d; [done|].
  simpl. by rewrite IH, on_operation_length.
Qed.

Lemma cancel_all_calls (envelopes : list (string * PromiseRef)) d k p :
  calls k p (foldl (λ d envelope, on_operation envelope.2 (λ _, cancel) d)
               d envelopes) = calls k p d.
Proof.
  revert d. induction envelopes as [|e es IH]; intros d; [done|].
  simpl. rewrite IH, calls_on_operation.
  destruct (operations d !! e.2); [|lia]. rewrite cancel_calls. lia.
Qed.

Lemma cancelPending_envelopes d : _envelopes (_cancelPending d) = ∅.
Proof.
  unfold _cancelPending.
  by destruct (cancel_all_envelopes (map_to_list (_envelopes d))
                 (set_envelopes ∅ (map_to_list (_envelopes d)).*2 d)) as [-> _].
Qed.

(** X14.  [close], in any state a dispatcher can reach: every message in
    flight (every operation with an envelope in the map) is cancelled, and
    every other operation is left as it is; no scheduler, pool-[get] or
    transport-send call is made; afterwards the map is empty, so that a
    reply, also one for an id that was in flight, is published as
    ['message'], and a [sendMessage], also for an id that was in flight,
    starts a new operation with a promise of its own.  Ids that name a
    member of [Object.prototype] are the exception, after [close] as
    before: a reply with [successful] is not published, and [sendMessage]
    returns [undefined] and does nothing. *)
Theorem close_cancels_what_is_in_flight retry now evs :
  let d := run (new_Dispatcher retry now) evs in
  (∀ i p, _envelopes d !! i = Some p →
     phase_of p (close d) = Some (Settling Cancelled)) ∧
  (∀ p, (∀ i, _envelopes d !! i ≠ Some p) →
     operations (close d) !! p = operations d !! p) ∧
  (∀ k p, calls k p (close d) = calls k p d) ∧
  (∀ reply,
     notifications "message" (since (close d) (handleResponse reply (close d)))
       = match successful reply with
         | Some _ => if inherited (id reply) then [] else [Some reply]
         | None => [Some reply]
         end) ∧
  (∀ m ms options,
     if inherited (id m) then
       sendMessage m ms options (close d) = (None, close d)
     else
       (sendMessage m ms options (close d)).1 = Some (length (operations d)) ∧
       length (operations (sendMessage m ms options (close d)).2)
         = Datatypes.S (length (operations d))).
Proof.
  intros d.
  assert (consistent d) as Hd by apply consistent_run, consistent_new.
  set (envelopes := map_to_list (_envelopes d)).
  set (d1 := set_envelopes ∅ envelopes.*2 d).
  assert (∀ p, p ∈ envelopes.*2 ↔ ∃ i, _envelopes d !! i = Some p) as Hin.
  { intros p. unfold envelopes. rewrite list_elem_of_fmap. split.
    - intros ([i q] & -> & Hiq%elem_of_map_to_list). by exists i.
    - intros [i Hi]. exists (i, p). split; [done|].
      by apply elem_of_map_to_list. }
  assert (_envelopes (close d) = ∅) as Hempty by apply cancelPending_envelopes.
  split; [|split; [|split; [|split]]].
  - intros i p Hi.
    destruct (open_pending _ Hd _ _ Hi) as (op & Hop & _ & Hpend).
    destruct (cancel_all_phases envelopes d1 p op Hop) as (op' & Hop' & Hph & _).
    unfold phase_of.
    change (operations (close d)) with (operations (_cancelPending d)).
    unfold _cancelPending. fold envelopes. fold d1. rewrite Hop'. simpl.
    rewrite Hph by (apply Hin; by exists i).
    by destruct (phase op).
  - intros p Hp.
    change (operations (close d)) with (operations (_cancelPending d)).
    unfold _cancelPending. fold envelopes. fold d1.
    destruct (operations d !! p) as [op|] eqn:Hop.
    + destruct (cancel_all_phases envelopes d1 p op Hop) as (op' & Hop' & _ & Hout).
      rewrite Hop'. f_equal. apply Hout. rewrite Hin. intros [i Hi].
      by apply (Hp i).
    + apply lookup_ge_None. rewrite cancel_all_length.
      by apply lookup_ge_None.
  - intros k p. unfold close. rewrite calls_emit. simpl.
    unfold _cancelPending. fold envelopes. fold d1.
    rewrite cancel_all_calls.
    change (calls k p d1) with (calls k p d). destruct k; simpl; lia.
  - intros reply.
    rewrite (since_app _ _ _ (handleResponse_trace reply (close d))).
    rewrite notifications_app. unfold correlation. rewrite Hempty, lookup_empty.
    assert (notifications "message"
              (if _state (close d) =? UP then []
               else [(clock (close d), trigger "transport:up" None)]) = []) as ->
      by (by destruct (_state (close d) =? UP)).
    destruct (successful reply); [|done]. by destruct (inherited (id reply)).
  - intros m ms options. unfold sendMessage.
    rewrite Hempty, lookup_empty. destruct (inherited (id m)); [done|]. simpl.
    change (operations (close d)) with (operations (_cancelPending d)).
    unfold _cancelPending. fold envelopes. fold d1.
    rewrite on_operation_length. simpl.
    rewrite length_app, !cancel_all_length. simpl. split; [done|lia].
Qed.


(** X16.  [sendMessage] for an id that has no envelope and is not a member
    of [Object.prototype], when the new scheduler reports the message
    deliverable: the promise returned is a new one, stored in the envelope
    under the id; of the calls the trace records (those that act on the
    scheduler, the pool and the transports; the queries [isDeliverable]
    and [getTimeout] are not among them) three are made before
    [sendMessage] returns, and in this order: the scheduler is
    constructed, its [send] is called, the pool is asked for a transport;
    the first attempt now awaits the transport for the scheduler's
    timeout; and the overall deadline is the one the options give, or
    60000 ms when there are no options, no deadline or a deadline of 0. *)
Theorem first_attempt_starts_at_once m ms options d :
  let o := {| timeout := ms; interval := _advice_retry d;
              attempts := options ≫= opt_attempts |} in
  let s := new_Scheduler (clock d) m o in
  let p := length (operations d) in
  let d' := (sendMessage m ms options d).2 in
  _envelopes d !! id m = None → inherited (id m) = false →
  isDeliverable (clock d) s = true →
  (sendMessage m ms options d).1 = Some p ∧
  _envelopes d' = <[id m := p]> (_envelopes d) ∧
  (since d d').*2 = [scheduler_new p o; scheduler_send p; pool_get p] ∧
  ∃ op, operations d' !! p = Some op ∧
    message op = m ∧ attempt op = 1%nat ∧ resolve op = Undefined ∧
    phase op =
      AwaitTransport (clock d + getTimeout (clock d) (send (clock d) s)) ∧
    (options ≫= opt_deadline = None → deadline op = clock d + 60000) ∧
    (options ≫= opt_deadline = Some 0 → deadline op = clock d + 60000) ∧
    (∀ ms', options ≫= opt_deadline = Some ms' → ms' ≠ 0 →
       deadline op = clock d + ms').
Proof.
  intros o s p d' Hnew Hown Hdel.
  set (op0 := {| resolve := Undefined; message := m; scheduler := s;
                 deadline := clock d + deadline_of options;
                 attempt := 0; phase := Starting |}).
  set (d0 := emit [scheduler_new p o]
               (set_operations (operations d ++ [op0])
                  (set_envelopes (<[id m:=p]> (_envelopes d)) [] d))).
  assert (operations d0 !! p = Some op0) as Hop0.
  { simpl. rewrite lookup_app_r by done. unfold p. by rewrite Nat.sub_diag. }
  assert (_attemptSend (clock d0) p op0 =
            (set_phase (AwaitTransport
                          (clock d + getTimeout (clock d) (send (clock d) s)))
               (next_attempt (set_scheduler (send (clock d) s) op0)),
             [scheduler_send p; pool_get p])) as Hattempt.
  { unfold _attemptSend. simpl. by rewrite Hdel. }
  assert (sendMessage m ms options d = (Some p, on_operation p _attemptSend d0))
    as Hsend by (unfold sendMessage; by rewrite Hnew, Hown).
  unfold d'. rewrite Hsend. cbn [fst snd].
  split; [done|]. split; [by rewrite on_operation_envelopes|]. split.
  - unfold since. rewrite on_operation_trace. unfold PromiseRef in *.
    rewrite Hop0, Hattempt. simpl.
    rewrite <- app_assoc, drop_app_length. done.
  - eexists. split.
    { rewrite (on_operation_lookup_eq _ _ _ _ Hop0), Hattempt. done. }
    simpl. unfold deadline_of. repeat split; try done.
    + by intros ->.
    + by intros ->.
    + intros ms' -> Hne. apply Z.eqb_neq in Hne. by rewrite Hne.
Qed.

End Closing.

(** ** What goes on the wire *)

Ltac in_effects H :=
  repeat match type of H with
         | _ ∈ [] => by apply elem_of_nil in H
         | _ ∈ _ :: _ => apply elem_of_cons in H as [H|H]; [try discriminate H|]
         | _ ∈ _ ++ _ => apply elem_of_app in H as [H|H]
         end.

Ltac idle_tac :=
  let H := fresh "H" in
  intros ? ? ? ? ? ?; unfold_callbacks; crush_op; intros H; in_effects H.

Section Wired.
Context {S : Type} `{!Scheduler S}.
Implicit Types (op : Operation S) (d : Dispatcher S) (p q : PromiseRef).
Implicit Types (now : Z).

Lemma idle_attemptSend : idle (S:=S) _attemptSend.
Proof. idle_tac. Qed.

Lemma idle_cancel : idle (S:=S) (λ _, cancel).
Proof. idle_tac. Qed.

Lemma idle_pool_rejected e : idle (S:=S) (λ now p, pool_rejected now p e).
Proof. idle_tac. Qed.

Lemma idle_send_resolved : idle (S:=S) (λ _ _, send_resolved).
Proof. idle_tac. Qed.

Lemma idle_send_rejected e : idle (S:=S) (λ now p, send_rejected now p e).
Proof. idle_tac. Qed.

Lemma idle_attempt_timeout : idle (S:=S) attempt_timeout.
Proof. idle_tac. Qed.

Lemma idle_delay_elapsed : idle (S:=S) delay_elapsed.
Proof. idle_tac. Qed.

Lemma idle_deadline_timeout : idle (S:=S) deadline_timeout.
Proof. idle_tac. Qed.

Lemma idle_call_resolver k reply : idle (S:=S) (λ _ p, call_resolver p k reply).
Proof. idle_tac. Qed.

Lemma handing_pool_resolved t : handing (S:=S) (λ now p, pool_resolved now p t).
Proof.
  intros now p op q t' m. unfold pool_resolved, attempt_then, stamped.
  destruct (phase op); simpl; try (by intros ?%elem_of_nil).
  by intros [= -> -> ->]%list_elem_of_singleton.
Qed.

Lemma plain_nil : plain [].
Proof. intros p tr m. apply not_elem_of_nil. Qed.

Lemma plain_app l k : plain l → plain k → plain (l ++ k).
Proof.
  intros Hl Hk p tr m [H|H]%elem_of_app; [by apply (Hl p tr m)|by apply (Hk p tr m)].
Qed.

Lemma unhanding_refl d : unhanding d d.
Proof. exists []. split; [by rewrite app_nil_r|apply plain_nil]. Qed.

Lemma unhanding_trans d1 d2 d3 :
  unhanding d1 d2 → unhanding d2 d3 → unhanding d1 d3.
Proof.
  intros (new1 & Ht1 & Hn1) (new2 & Ht2 & Hn2). exists (new1 ++ new2).
  split; [by rewrite Ht2, Ht1, app_assoc|].
  rewrite fmap_app. by apply plain_app.
Qed.

Lemma unhanding_emit effects d : plain effects → unhanding d (emit effects d).
Proof.
  intros Hp. eexists. split; [done|]. by rewrite stamped_calls_map.
Qed.

Lemma unhanding_frame d d' : trace d' = trace d → unhanding d d'.
Proof. intros Ht. exists []. split; [by rewrite app_nil_r|apply plain_nil]. Qed.

Lemma unhanding_on_operation q f d : idle f → unhanding d (on_operation q f d).
Proof.
  intros Hf. eexists. split; [apply on_operation_trace|].
  destruct (operations d !! q) as [op|]; [|apply plain_nil].
  rewrite stamped_calls. apply Hf.
Qed.

Lemma unhanding_cancel_all (envelopes : list (string * PromiseRef)) d :
  unhanding d (foldl (λ d envelope, on_operation envelope.2 (λ _, cancel) d)
                 d envelopes).
Proof.
  revert d. induction envelopes as [|e es IH]; intros d; [apply unhanding_refl|].
  simpl. eapply unhanding_trans; [|apply IH].
  apply unhanding_on_operation, idle_cancel.
Qed.

Lemma unhanding_cancelPending d : unhanding d (_cancelPending d).
Proof.
  unfold _cancelPending.
  eapply unhanding_trans; [|apply unhanding_cancel_all].
  by apply unhanding_frame.
Qed.

Lemma plain_singleton e :
  (∀ p tr m, e ≠ transport_sendMessage p tr m) → plain [e].
Proof. intros He p tr m Hin%list_elem_of_singleton. by destruct (He p tr m). Qed.

Lemma unhanding_step d ev :
  (∀ p t, ev ≠ Pool_resolved p t) → unhanding d (step d ev).
Proof.
  intros Hev. destruct ev; simpl.
  - destruct (0 <=? dt); [by apply unhanding_frame|apply unhanding_refl].
  - unfold sendMessage.
    destruct (_envelopes d !! id m); [apply unhanding_refl|].
    destruct (inherited (id m)); [apply unhanding_refl|]. simpl.
    eapply unhanding_trans;
      [|apply unhanding_on_operation, idle_attemptSend].
    eapply unhanding_trans; [|by apply unhanding_emit, plain_singleton].
    by apply unhanding_frame.
  - eexists. split; [apply handleResponse_trace|].
    rewrite fmap_app, stamped_calls. apply plain_app.
    + unfold correlation.
      destruct (successful reply), (_envelopes d !! id reply) as [q|];
        try (by apply plain_singleton).
      * destruct (resolve <$> operations d !! q) as [[| |k]|];
          try apply plain_nil. by apply plain_singleton.
      * destruct (inherited (id reply));
          [apply plain_nil|by apply plain_singleton].
    + destruct (_state d =? UP); [apply plain_nil|by apply plain_singleton].
  - by apply unhanding_emit, plain_singleton.
  - apply unhanding_cancelPending.
  - by apply unhanding_emit, plain_singleton.
  - eapply unhanding_trans; [apply unhanding_cancelPending|].
    by apply unhanding_emit, plain_singleton.
  - unfold destroy, close, disconnecting.
    eapply unhanding_trans; [|by apply unhanding_emit, plain_singleton].
    eapply unhanding_trans; [|apply unhanding_cancelPending].
    eapply unhanding_trans; [|by apply unhanding_emit, plain_singleton].
    by apply unhanding_emit, plain_singleton.
  - apply unhanding_on_operation, idle_cancel.
  - by destruct (Hev p t).
  - apply unhanding_on_operation, idle_pool_rejected.
  - apply unhanding_on_operation, idle_send_resolved.
  - apply unhanding_on_operation, idle_send_rejected.
  - apply unhanding_on_operation, idle_attempt_timeout.
  - apply unhanding_on_operation, idle_delay_elapsed.
  - apply unhanding_on_operation, idle_deadline_timeout.
  - unfold handlers_run.
    destruct (operations d !! p) as [op|]; [|apply unhanding_refl].
    destruct (phase op) as [| | | |o|]; try apply unhanding_refl.
    destruct (then_catch (clock d) p o op) as [op1 effects] eqn:Htc.
    destruct (delete_envelope_frame (id (message op1)) (emit effects d))
      as (Ht & _ & _).
    exists (map (pair (clock d)) effects). split; [simpl; by rewrite Ht|].
    rewrite stamped_calls_map.
    destruct o; simpl in Htc; injection Htc as <- <-;
      try apply plain_nil; by apply plain_singleton.
Qed.

Lemma restamped_follows op op' m0 :
  follows op op' → restamped (message op) m0 → restamped (message op') m0.
Proof.
  intros [Hi Hc Hs _ _ Hu _ _] (Hid & Hch & Hsu & Hsame).
  split; [congruence|]. split; [congruence|]. split; [congruence|].
  intros Hne. rewrite Hu; [by apply Hsame|congruence].
Qed.

Lemma stamped_restamped t m m0 : restamped m m0 → stamped t m = stamped t m0.
Proof.
  intros (Hid & Hch & Hsu & Hsame). unfold stamped. rewrite Hch, Hid, Hsu.
  destruct (String.eqb_spec (channel m0) CONNECT) as [Hc|Hc]; [done|].
  by apply Hsame.
Qed.

Lemma wired_step p m0 d ev : wired p m0 d → wired p m0 (step d ev).
Proof.
  intros [(op & Hop & Hre) Hd].
  destruct (follows_step d ev p op Hop) as (op' & Hop' & Hfollows).
  split; [exists op'; split; [done|by eapply restamped_follows]|].
  assert (∀ new,
            trace (step d ev) = trace d ++ new →
            (∀ time t m, (time, transport_sendMessage p t m) ∈ new →
               m = stamped t m0) →
            ∀ time t m,
              (time, transport_sendMessage p t m) ∈ trace (step d ev) →
              m = stamped t m0) as Hgrow.
  { intros new Ht Hnew time t m. rewrite Ht.
    intros [Hold|Hin]%elem_of_app; [by apply (Hd time)|by apply (Hnew time)]. }
  clear Hop' Hfollows.
  destruct ev as [| | | | | | | | |q t0| | | | | | |];
    try (match goal with
         | |- context [step d ?ev] =>
             destruct (unhanding_step d ev) as (new & Ht & Hplain); [done|]
         end;
         apply (Hgrow new Ht); intros time' t' m' Hin;
         exfalso; apply (Hplain p t' m');
         apply list_elem_of_fmap;
         by exists (time', transport_sendMessage p t' m')).
  apply (Hgrow _ (on_operation_trace q _ d)).
  intros time t m Hin.
  destruct (operations d !! q) as [opq|] eqn:Hq; [|by apply elem_of_nil in Hin].
  apply list_elem_of_fmap in Hin as (e & [= -> <-] & Hin).
  apply (handing_pool_resolved t0) in Hin as [-> ->].
  assert (opq = op) as -> by congruence.
  by apply stamped_restamped.
Qed.

Lemma wired_run evs p m0 d : wired p m0 d → wired p m0 (run d evs).
Proof.
  revert d. induction evs as [|ev evs IH]; intros d Hd; [done|].
  apply IH. by apply wired_step.
Qed.

Lemma count_none k p effects e :
  count k p effects = 0%nat → e ∈ effects → entry k p e = false.
Proof.
  induction effects as [|e' effects IH]; [by intros _ ?%elem_of_nil|].
  simpl. intros Hc [->|Hin]%elem_of_cons.
  - destruct (entry k p e'); [lia|done].
  - apply IH; [lia|done].
Qed.

Lemma wired_sendMessage m0 ms options d :
  ledger d → _envelopes d !! id m0 = None → inherited (id m0) = false →
  wired (length (operations d)) m0 (sendMessage m0 ms options d).2.
Proof.
  intros Hd Hnew Hown. set (p := length (operations d)). split.
  - unfold sendMessage. rewrite Hnew, Hown. cbn [snd].
    eexists. split.
    { apply on_operation_lookup_eq. simpl.
      rewrite lookup_app_r by done. by rewrite Nat.sub_diag. }
    unfold _attemptSend. simpl.
    by destruct (isDeliverable _ _).
  - destruct (unhanding_step d (Call_sendMessage m0 ms options))
      as (new & Ht & Hplain); [done|].
    intros time t m. simpl in Ht. rewrite Ht.
    intros [Hold|Hin]%elem_of_app.
    + pose proof (ledger_fresh _ Hd K_handed p (Nat.le_refl _)) as Hfresh.
      assert (entry K_handed p (transport_sendMessage p t m) = false) as Hno.
      { apply (count_none _ _ (trace d).*2); [exact Hfresh|].
        apply list_elem_of_fmap.
        by exists (time, transport_sendMessage p t m). }
      simpl in Hno. by rewrite Nat.eqb_refl in Hno.
    + exfalso. apply (Hplain p t m). apply list_elem_of_fmap.
      by exists (time, transport_sendMessage p t m).
Qed.

(** X17.  What goes on the wire.  Let [sendMessage] be called, in a state
    a dispatcher can reach, with message [m0] and start a new operation.
    Then, whatever happens, every message handed to a transport for this
    operation, in whichever attempt, is [m0] as it was passed to
    [sendMessage] unless [m0] is on the connect channel; and then it is
    [m0] with the connection type of the very transport it is handed
    to, whatever connection type [m0] had or an earlier attempt gave
    it. *)
Theorem what_is_handed_over retry now evs0 m0 ms options evs time t m :
  let d0 : Dispatcher S := run (new_Dispatcher retry now) evs0 in
  let p := length (operations d0) in
  _envelopes d0 !! id m0 = None → inherited (id m0) = false →
  (time, transport_sendMessage p t m)
    ∈ trace (run (sendMessage m0 ms options d0).2 evs) →
  (sendMessage m0 ms options d0).1 = Some p ∧
  (channel m0 ≠ CONNECT → m = m0) ∧
  (channel m0 = CONNECT →
   m = {| id := id m0; channel := channel m0; successful := successful m0;
          connectionType := Some (transport_connectionType t) |}).
Proof.
  intros d0 p Hnew Hown Hin.
  assert (ledger d0) as Hd0 by apply ledger_run, ledger_new.
  destruct (wired_run evs p m0 _
              (wired_sendMessage m0 ms options d0 Hd0 Hnew Hown)) as [_ Hwired].
  apply Hwired in Hin. split.
  { unfold sendMessage. by rewrite Hnew, Hown. }
  rewrite Hin. unfold stamped.
  destruct (String.eqb_spec (channel m0) CONNECT) as [Hc|Hc]; by split.
Qed.

End Wired.

(** ** What the transport does with the dispatcher *)

Section HttpCalls.
Context {S : Type} `{!Scheduler S}.
Variable JSON_parse : string → option JSON.
Implicit Types (r : Request S) (d : Dispatcher S).

Lemma http_step_calls r ev :
  let r' := http_step JSON_parse r ev in
  self r' = self r ∧
  (Forall (λ v, truthy v = true) (received r) →
   Forall (λ v, truthy v = true) (received r')) ∧
  (_dispatcher r' = _dispatcher r ∨
   _dispatcher r' = transportDown (self r) (_dispatcher r)).
Proof.
  destruct ev; simpl.
  - unfold on_response, settle.
    destruct ((200 <=? status) && (status <? 300)), (future r); simpl; auto.
  - unfold on_data. destruct (listening r); simpl; auto.
  - unfold on_end. destruct (listening r); simpl; [|auto].
    destruct (JSON_parse (body r)) as [v|]; simpl; [|auto].
    destruct (truthy v) eqn:Hv; simpl; [|auto].
    split; [done|]. split; [|auto].
    intros Hr. apply Forall_app. split; [done|]. by apply Forall_singleton.
  - unfold on_error, settle. destruct (future r); simpl; auto.
  - unfold on_cancel. destruct (future r); simpl; auto.
Qed.

Lemma http_run_calls r evs :
  Forall (λ v, truthy v = true) (received r) →
  let r' := http_run JSON_parse r evs in
  self r' = self r ∧
  Forall (λ v, truthy v = true) (received r') ∧
  ∃ n, (n ≤ length evs)%nat ∧
       _dispatcher r' = Nat.iter n (transportDown (self r)) (_dispatcher r).
Proof.
  revert r. induction evs as [|ev evs IH]; intros r Hr.
  - split; [done|]. split; [done|]. by exists 0%nat.
  - destruct (http_step_calls r ev) as (Hself & Hrec & Hdown).
    destruct (IH (http_step JSON_parse r ev) (Hrec Hr)) as (Hself' & Hrec' & n & Hn & Hd).
    simpl. split; [congruence|]. split; [done|].
    rewrite Hself in Hd. destruct Hdown as [Hsame|Hsame]; rewrite Hsame in Hd.
    + exists n. split; [lia|done].
    + exists (Datatypes.S n). split; [lia|]. by rewrite Nat.iter_succ_r.
Qed.

(** X18.  Whatever happens to a request: every value forwarded to
    [_receive] is truthy; and the only thing done with the dispatcher is
    to call its [transportDown], each time with this transport, and at
    most once per event. *)
Theorem transport_reports_only_itself transport d evs :
  let r := http_run JSON_parse (request transport d) evs in
  Forall (λ v, truthy v = true) (received r) ∧
  ∃ n, (n ≤ length evs)%nat ∧
       _dispatcher r = Nat.iter n (transportDown transport) d.
Proof.
  intros r.
  destruct (http_run_calls (request transport d) evs) as (_ & Hrec & Hdown);
    [by apply Forall_nil|].
  split; [exact Hrec|exact Hdown].
Qed.

End HttpCalls.

(** * The further properties at work on examples *)

Lemma what_is_handed_over_witness :
  _envelopes fresh_dispatcher !! id connect_1 = None ∧
  inherited (id connect_1) = false ∧
  (0, transport_sendMessage 0%nat ws connect_1_on_websocket)
    ∈ trace (run (sendMessage connect_1 1000 None fresh_dispatcher).2
               [Pool_resolved 0%nat ws]) ∧
  connect_1_on_websocket =
    {| id := "1"; channel := CONNECT; successful := None;
       connectionType := Some "websocket" |}.
Proof.
  assert ((0, transport_sendMessage 0%nat ws connect_1_on_websocket)
            ∈ trace (run (sendMessage connect_1 1000 None fresh_dispatcher).2
                       [Pool_resolved 0%nat ws])) as Hin.
  { vm_compute. do 3 apply list_elem_of_further. apply list_elem_of_here. }
  split; [vm_compute; reflexivity|]. split; [vm_compute; reflexivity|].
  split; [exact Hin|].
  destruct (what_is_handed_over 100 0 [] connect_1 1000 None
              [Pool_resolved 0%nat ws] 0 ws connect_1_on_websocket)
    as (_ & _ & Hstamped);
    [vm_compute; reflexivity|vm_compute; reflexivity|exact Hin|].
  apply Hstamped. reflexivity.
Defined.

Lemma nothing_without_response_witness :
  no_response before_response ∧
  received (http_run parse_literal first_request before_response) = [] ∧
  future (http_run parse_literal first_request before_response) ≠ resolved.
Proof.
  assert (no_response before_response) as Hno.
  { intros status Hin.
    repeat (apply elem_of_cons in Hin as [Hin|Hin]; [discriminate Hin|]).
    by apply elem_of_nil in Hin. }
  split; [exact Hno|].
  destruct (nothing_without_response parse_literal 3%nat fresh_dispatcher
              before_response Hno) as (_ & Hrec & _ & Hfut).
  split; [exact Hrec|exact Hfut].
Defined.

Lemma chunking_does_not_matter_witness :
  listening (on_response 200 first_request) = true ∧
  whole ["nu"; "ll"] = whole ["null"] ∧
  on_end parse_literal (data_all (on_response 200 first_request) ["nu"; "ll"])
    = on_end parse_literal (data_all (on_response 200 first_request) ["null"]).
Proof.
  split; [reflexivity|]. split; [reflexivity|].
  destruct (chunking_does_not_matter parse_literal
              (on_response 200 first_request) ["nu"; "ll"] ["null"]
              eq_refl eq_refl) as [Hsame _].
  exact Hsame.
Defined.

Lemma settled_for_ever_witness :
  operations delivered_1 !! 0%nat = Some delivered_attempt ∧
  ∃ op',
    operations
      (run delivered_1
         [Call_handleResponse reply_1; Deadline_timeout 0%nat; Call_cancel 0%nat;
          Call_close]) !! 0%nat = Some op' ∧
    phase op' = Settled (Fulfilled reply_1).
Proof.
  assert (operations delivered_1 !! 0%nat = Some delivered_attempt) as Hop
    by (vm_compute; reflexivity).
  split; [exact Hop|].
  destruct (settled_for_ever delivered_1 0%nat delivered_attempt
              [Call_handleResponse reply_1; Deadline_timeout 0%nat;
               Call_cancel 0%nat; Call_close] Hop)
    as (op' & Hop' & Hsettled & _).
  exists op'. split; [exact Hop'|]. apply Hsettled. reflexivity.
Defined.

Lemma message_identity_witness :
  operations sending_1 !! 0%nat = Some first_attempt ∧
  ∃ op',
    operations (run sending_1 [no_transport; Tick 100; Delay_elapsed 0%nat])
      !! 0%nat = Some op' ∧
    message op' = message_1 ∧ deadline op' = 60000.
Proof.
  assert (operations sending_1 !! 0%nat = Some first_attempt) as Hop
    by (vm_compute; reflexivity).
  split; [exact Hop|].
  destruct (message_identity sending_1 0%nat first_attempt
              [no_transport; Tick 100; Delay_elapsed 0%nat] Hop)
    as (op' & Hop' & _ & _ & _ & Hdeadline & _ & Hmessage).
  exists op'. split; [exact Hop'|]. split; [|exact Hdeadline].
  apply Hmessage. discriminate.
Defined.

Lemma attempts_ledger_witness :
  operations awaiting_reply_1 !! 0%nat = Some handed_attempt ∧
  calls K_new 0%nat awaiting_reply_1 = 1%nat ∧
  calls K_send 0%nat awaiting_reply_1 = 1%nat ∧
  (calls K_fail 0%nat awaiting_reply_1 + 1 = 1)%nat.
Proof.
  assert (operations awaiting_reply_1 !! 0%nat = Some handed_attempt) as Hop
    by (vm_compute; reflexivity).
  split; [exact Hop|].
  destruct (attempts_ledger 100 0
              [Call_sendMessage message_1 1000 None; Pool_resolved 0%nat ws]
              0%nat handed_attempt Hop)
    as (Hnew & Hsend & _ & _ & _ & _ & Hfail & _).
  split; [exact Hnew|]. split; [exact Hsend|].
  apply (Hfail ws 1000 false None). reflexivity.
Defined.

Lemma settlement_ledger_witness :
  operations delivered_1 !! 0%nat = Some delivered_attempt ∧
  (calls K_succeed 0%nat delivered_1, calls K_abort 0%nat delivered_1)
    = (1%nat, 0%nat).
Proof.
  assert (operations delivered_1 !! 0%nat = Some delivered_attempt) as Hop
    by (vm_compute; reflexivity).
  split; [exact Hop|].
  exact (settlement_ledger 100 0 delivery_1 0%nat delivered_attempt Hop).
Defined.

Lemma fulfilled_only_by_reply_witness :
  operations delivered_1 !! 0%nat = Some delivered_attempt ∧
  phase delivered_attempt = Settled (Fulfilled reply_1) ∧
  ∃ t k, (t, envelope_resolve 0%nat k reply_1) ∈ trace delivered_1.
Proof.
  assert (operations delivered_1 !! 0%nat = Some delivered_attempt) as Hop
    by (vm_compute; reflexivity).
  split; [exact Hop|]. split; [reflexivity|].
  destruct (fulfilled_only_by_reply 100 0 delivery_1 0%nat delivered_attempt
              reply_1 Hop (or_intror eq_refl)) as (_ & _ & Hcalled).
  exact Hcalled.
Defined.

Lemma reply_reaches_the_attempt_witness :
  _envelopes awaiting_reply_1 !! id reply_1 = Some 0%nat ∧
  successful reply_1 ≠ None ∧
  operations awaiting_reply_1 !! 0%nat = Some handed_attempt ∧
  phase_of 0%nat
    (run awaiting_reply_1 [Call_handleResponse reply_1; Send_resolved 0%nat])
    = Some (Settling (Fulfilled reply_1)) ∧
  phase_of 0%nat
    (run awaiting_reply_1 [Send_resolved 0%nat; Call_handleResponse reply_1])
    = Some (Settling (Fulfilled reply_1)).
Proof.
  assert (_envelopes awaiting_reply_1 !! id reply_1 = Some 0%nat) as Henv
    by (vm_compute; reflexivity).
  assert (successful reply_1 ≠ None) as Hs by discriminate.
  assert (operations awaiting_reply_1 !! 0%nat = Some handed_attempt) as Hop
    by (vm_compute; reflexivity).
  split; [exact Henv|]. split; [exact Hs|]. split; [exact Hop|].
  destruct (reply_reaches_the_attempt 100 0
              [Call_sendMessage message_1 1000 None; Pool_resolved 0%nat ws]
              reply_1 0%nat handed_attempt Henv Hs Hop) as (_ & _ & Horder).
  apply (Horder ws 1000). reflexivity.
Defined.


Lemma first_attempt_starts_at_once_witness :
  _envelopes fresh_dispatcher !! id message_1 = None ∧
  inherited (id message_1) = false ∧
  isDeliverable (clock fresh_dispatcher)
    (new_Scheduler (clock fresh_dispatcher) message_1
       {| timeout := 1000; interval := 100; attempts := None |}) = true ∧
  (sendMessage message_1 1000 None fresh_dispatcher).1 = Some 0%nat ∧
  (since fresh_dispatcher sending_1).*2 =
    [scheduler_new 0%nat {| timeout := 1000; interval := 100; attempts := None |};
     scheduler_send 0%nat; pool_get 0%nat].
Proof.
  split; [vm_compute; reflexivity|]. split; [vm_compute; reflexivity|].
  split; [vm_compute; reflexivity|].
  destruct (first_attempt_starts_at_once message_1 1000 None fresh_dispatcher)
    as (Hpromise & _ & Hcalls & _);
    [vm_compute; reflexivity..|].
  split; [exact Hpromise|exact Hcalls].
Defined.
